(** * Replicable-branch analysis of a DataPipe graph

    A shallow embedding of [torchdata/dataloader2/utils/dispatch.py]:
    [find_lca_non_replicable_dp] (the cut point of a pipeline) and
    [find_replicable_branches] (the roots of its replicable sub-graphs),
    together with the properties of both reductions.

    Python objects are named by their identity, the dictionaries of a
    [DataPipeGraph] live in a store so that they can be shared between
    parents and can refer back to themselves, and the two memo tables are
    threaded through the recursion as explicit state. *)

From stdpp Require Import gmap list.

Set Warnings "-clear-no-such-hyp,-register-all".

(** ** Outcomes of a Python computation *)

Inductive exn := AssertionError | KeyError.

(** [OutOfFuel] is not an outcome of the program: it is the answer of the
    model when the recursion bound it was given is too small. *)
Inductive outcome (A : Type) :=
| Ret (a : A)
| Raise (e : exn)
| OutOfFuel.
Arguments Ret {A} a.
Arguments Raise {A} e.
Arguments OutOfFuel {A}.

Global Instance outcome_bind : MBind outcome := λ A B k c,
  match c with
  | Ret a => k a
  | Raise e => Raise e
  | OutOfFuel => OutOfFuel
  end.

(** [for x in xs: body], the loop state passed along. *)
Fixpoint for_each {S A} (body : A → S → outcome S) (xs : list A) (s : S)
  : outcome S :=
  match xs with
  | [] => Ret s
  | x :: xs' => s' ← body x s; for_each body xs' s'
  end.

(** [d[k]] on a dictionary. *)
Definition getitem {V} (d : gmap nat V) (k : nat) : outcome V :=
  match d !! k with
  | Some v => Ret v
  | None => Raise KeyError
  end.

(** ** The graph model *)

(** A DataPipe is an object; it is named by its identity, so that [==] on
    DataPipes (which no DataPipe class overrides) is equality of names. *)
Definition DataPipe := nat.
Definition id_of (dp : DataPipe) : nat := dp.

Inductive dp_type :=
| ShardingRoundRobinDispatcher
| _DummyIterDataPipe
| OtherIterDataPipe.

Global Instance dp_type_eq_dec : EqDecision dp_type.
Proof. solve_decision. Defined.

(** A [DataPipeGraph] is a dictionary object, named by its address. *)
Definition Ref := nat.

(** One item of a graph dictionary: [dp_id, (dp, src_graph)], in insertion
    order. *)
Definition item : Type := nat * (DataPipe * Ref).

(** A snapshot of the pipeline: the class of every DataPipe, the content of
    every graph dictionary, and the dictionary that holds the direct
    predecessors of every DataPipe (its predecessor graph). *)
Record Snapshot := {
  type_of : DataPipe → dp_type;
  dicts : list (list item);
  pred_graph : DataPipe → Ref;
}.

Definition items (h : Snapshot) (g : Ref) : list item :=
  default [] (dicts h !! g).

(** Every key of every dictionary of the snapshot; the recursion of the
    three traversals below is never deeper than the number of keys, since
    each of them enters a key at most once. *)
Definition all_keys (h : Snapshot) : list nat := (mjoin (dicts h)).*1.

Definition key_set (h : Snapshot) : gset nat := list_to_set (all_keys h).

Definition fuel_of (h : Snapshot) : nat := S (S (length (all_keys h))).
Global Arguments fuel_of : simpl never.

(** Modelled from the spec: [traverse_dps] of [torchdata.dataloader2.graph],
    whose source is not at hand. Section 6 and the two docstrings of
    [dispatch.py] that name it: the graph it generates for a DataPipe is the
    rooted graph of that DataPipe, a fresh dictionary with the one entry
    [id(dp): (dp, predecessor graph of dp)]. The fresh dictionary is given
    by its items. *)
Definition traverse_dps (h : Snapshot) (dp : DataPipe) : list item :=
  [(id_of dp, (dp, pred_graph h dp))].

(** Modelled from the spec: the traversal behind [list_dps] of
    [torchdata.dataloader2.graph], whose source is not at hand. Section 4.1
    (a): every reachable node once, deduplicated by identity, the visited
    identities tracked during the traversal so that a reference cycle is not
    followed twice. It walks the items of the dictionary it is given, and
    below each of them the dictionary filed with it. *)
Fixpoint list_dps_helper (h : Snapshot) (fuel : nat) (its : list item)
    (st : gset nat * list DataPipe) : outcome (gset nat * list DataPipe) :=
  match fuel with
  | 0 => OutOfFuel
  | S n =>
      for_each
        (λ '(dp_id, (dp, src_graph)) '(cache, dps),
           if decide (dp_id ∈ cache) then Ret (cache, dps)
           else list_dps_helper h n (items h src_graph)
                  ({[dp_id]} ∪ cache, dps ++ [dp]))
        its st
  end.

(** Modelled from the spec: [list_dps], the flattening of section 4.1 (a),
    of a graph dictionary given by its items. *)
Definition list_dps (h : Snapshot) (its : list item) : outcome (list DataPipe) :=
  '(_, dps) ← list_dps_helper h (fuel_of h) its (∅, []);
  Ret dps.

(** ** find_lca_non_replicable_dp *)

Definition _is_round_robin_sharding (h : Snapshot) (dp : DataPipe) : bool :=
  bool_decide (type_of h dp = ShardingRoundRobinDispatcher).

(** Lines 46 to 55: the set [non_replicable_dps]. *)
Definition mark_non_replicable (h : Snapshot) (graph : Ref)
  : outcome (gset nat) :=
  dps ← list_dps h (items h graph);
  for_each
    (λ dp non_replicable_dps,
       if decide (id_of dp ∈ non_replicable_dps) then Ret non_replicable_dps
       else if _is_round_robin_sharding h dp then
         parent_dps ← list_dps h (traverse_dps h dp);
         Ret (foldl (λ s par_dp, {[id_of par_dp]} ∪ s)
                non_replicable_dps parent_dps)
       else Ret non_replicable_dps)
    dps ∅.

(** Lines 69 to 73: the loop over the predecessors of a node, given the
    function to call on each of them. *)
Definition lca_parents
    (rec : gmap nat (option DataPipe) → nat → DataPipe → Ref →
           outcome (gmap nat (option DataPipe) * option DataPipe))
    (its : list item) (st : gmap nat (option DataPipe) * list DataPipe)
  : outcome (gmap nat (option DataPipe) * list DataPipe) :=
  for_each
    (λ '(dp_id, (dp, src_graph)) '(lca_for_subgraph, non_replicable_parents),
       '(lca_for_subgraph', res) ← rec lca_for_subgraph dp_id dp src_graph;
       Ret (lca_for_subgraph',
            match res with
            | Some r => non_replicable_parents ++ [r]
            | None => non_replicable_parents
            end))
    its st.

(** Lines 76 to 84: what is recorded for a node once its predecessors have
    answered. *)
Definition lca_record (root_dp_id : nat) (root_dp : DataPipe)
    (non_replicable_parents : list DataPipe)
    (lca_for_subgraph : gmap nat (option DataPipe))
  : gmap nat (option DataPipe) :=
  match non_replicable_parents with
  | [] => lca_for_subgraph
  | p0 :: _ =>
      if bool_decide (length non_replicable_parents = 1)
         || forallb (λ dp, bool_decide (dp = p0)) non_replicable_parents
      then <[root_dp_id := Some p0]> lca_for_subgraph
      else <[root_dp_id := Some root_dp]> lca_for_subgraph
  end.

Fixpoint _get_lca_from_graph (h : Snapshot) (non_replicable_dps : gset nat)
    (fuel : nat) (lca_for_subgraph : gmap nat (option DataPipe))
    (root_dp_id : nat) (root_dp : DataPipe) (root_graph : Ref)
  : outcome (gmap nat (option DataPipe) * option DataPipe) :=
  match fuel with
  | 0 => OutOfFuel
  | S n =>
      match lca_for_subgraph !! root_dp_id with
      | Some r => Ret (lca_for_subgraph, r)
      | None =>
          if decide (root_dp_id ∈ non_replicable_dps) then
            Ret (<[root_dp_id := Some root_dp]> lca_for_subgraph, Some root_dp)
          else
            '(memo, parents) ←
              lca_parents (_get_lca_from_graph h non_replicable_dps n)
                (items h root_graph)
                (<[root_dp_id := None]> lca_for_subgraph, []);
            let memo' := lca_record root_dp_id root_dp parents memo in
            r ← getitem memo' root_dp_id;
            Ret (memo', r)
      end
  end.

Definition find_lca_non_replicable_dp (h : Snapshot) (graph : Ref)
  : outcome (option DataPipe) :=
  match items h graph with
  | [(root_dp_id, (root_dp, root_graph))] =>
      non_replicable_dps ← mark_non_replicable h graph;
      '(_, r) ← _get_lca_from_graph h non_replicable_dps (fuel_of h) ∅
                  root_dp_id root_dp root_graph;
      Ret r
  | _ => Raise AssertionError
  end.

(** ** find_replicable_branches *)

(** The two tables of one invocation: [branch_is_replicable] and [dps]. *)
Definition branch_state : Type := gmap nat bool * list DataPipe.

(** Lines 110 to 113. *)
Definition visit_children
    (rec : branch_state → nat → DataPipe → Ref → outcome (branch_state * bool))
    (root_dp_id : nat) (its : list item) (st : branch_state)
  : outcome branch_state :=
  for_each
    (λ '(dp_id, (dp, src_graph)) st,
       '((branch_is_replicable, dps), b) ← rec st dp_id dp src_graph;
       if negb b then Ret (<[root_dp_id := false]> branch_is_replicable, dps)
       else Ret (branch_is_replicable, dps))
    its st.

(** Lines 116 to 118. *)
Definition append_replicable_children (its : list item) (st : branch_state)
  : outcome branch_state :=
  for_each
    (λ '(dp_id, (dp, _)) '(branch_is_replicable, dps),
       b ← getitem branch_is_replicable dp_id;
       if b : bool then Ret (branch_is_replicable, dps ++ [dp])
       else Ret (branch_is_replicable, dps))
    its st.

Fixpoint _is_replicable_graph (h : Snapshot) (fuel : nat) (st : branch_state)
    (root_dp_id : nat) (root_dp : DataPipe) (root_graph : Ref)
  : outcome (branch_state * bool) :=
  match fuel with
  | 0 => OutOfFuel
  | S n =>
      let '(branch_is_replicable, dps) := st in
      match branch_is_replicable !! root_dp_id with
      | Some b => Ret (st, b)
      | None =>
          if decide (type_of h root_dp = _DummyIterDataPipe) then
            Ret ((<[root_dp_id := false]> branch_is_replicable, dps), false)
          else
            st1 ← visit_children (_is_replicable_graph h n) root_dp_id
                    (items h root_graph)
                    (<[root_dp_id := true]> branch_is_replicable, dps);
            b ← getitem st1.1 root_dp_id;
            st2 ← (if negb b
                   then append_replicable_children (items h root_graph) st1
                   else Ret st1);
            b' ← getitem st2.1 root_dp_id;
            Ret (st2, b')
      end
  end.

Definition find_replicable_branches (h : Snapshot) (graph : Ref)
  : outcome (list DataPipe) :=
  match items h graph with
  | [(root_dp_id, (root_dp, root_graph))] =>
      '((_, dps), b) ← _is_replicable_graph h (fuel_of h) (∅, [])
                         root_dp_id root_dp root_graph;
      Ret (if b : bool then dps ++ [root_dp] else dps)
  | _ => Raise AssertionError
  end.

(** ** Reachability in a snapshot *)

(** The items found in a graph dictionary or below it. *)
Inductive reach_item (h : Snapshot) : Ref → item → Prop :=
| reach_here g it :
    it ∈ items h g → reach_item h g it
| reach_below g k dp sub it :
    (k, (dp, sub)) ∈ items h g → reach_item h sub it → reach_item h g it.

(** The nodes of a graph. *)
Definition reach (h : Snapshot) (g : Ref) (dp : DataPipe) : Prop :=
  ∃ k sub, reach_item h g (k, (dp, sub)).

(** The items found in a graph dictionary that is given by its items, or
    below it. *)
Definition reach_items (h : Snapshot) (its : list item) (it : item) : Prop :=
  it ∈ its ∨ ∃ k dp sub, (k, (dp, sub)) ∈ its ∧ reach_item h sub it.

(** A reference cycle: an item of the graph has its own key below it. *)
Definition has_cycle (h : Snapshot) (graph : Ref) : Prop :=
  ∃ k dp sub v, reach_item h graph (k, (dp, sub)) ∧ reach_item h sub (k, v).

(** The data model of section 3: a DataPipe is filed under its own identity,
    and what is filed with it is its own predecessor graph. *)
Definition well_formed (h : Snapshot) : Prop :=
  ∀ g k dp sub, (k, (dp, sub)) ∈ items h g →
    k = id_of dp ∧ sub = pred_graph h dp.

(** A recursive call that first checks that [root_dp_id] has its entry in the
    memo table. *)
Definition lca_entered (root_dp_id : nat)
    (rec : gmap nat (option DataPipe) → nat → DataPipe → Ref →
           outcome (gmap nat (option DataPipe) * option DataPipe))
  : gmap nat (option DataPipe) → nat → DataPipe → Ref →
    outcome (gmap nat (option DataPipe) * option DataPipe) :=
  λ memo dp_id dp src_graph,
    if decide (root_dp_id ∈ dom memo) then rec memo dp_id dp src_graph
    else Raise AssertionError.

Definition branch_entered (root_dp_id : nat)
    (rec : branch_state → nat → DataPipe → Ref → outcome (branch_state * bool))
  : branch_state → nat → DataPipe → Ref → outcome (branch_state * bool) :=
  λ st dp_id dp src_graph,
    if decide (root_dp_id ∈ dom st.1) then rec st dp_id dp src_graph
    else Raise AssertionError.

(** A DataPipe with a replicable closure: neither it nor any of its
    transitive predecessors is a placeholder. *)
Definition replicable_closure (h : Snapshot) (dp : DataPipe) : Prop :=
  type_of h dp ≠ _DummyIterDataPipe
  ∧ ∀ q, reach h (pred_graph h dp) q → type_of h q ≠ _DummyIterDataPipe.

(** ** Example snapshots *)

(** The snapshot of a pipeline given by the class of each DataPipe and by the
    lists of direct predecessors of DataPipe 0, 1, 2, ...: dictionary [S n] is
    the predecessor graph of DataPipe [n], and dictionary 0 is the rooted
    graph of DataPipe 0. *)
Definition snapshot_of (ty : DataPipe → dp_type) (preds : list (list DataPipe))
  : Snapshot :=
  {| type_of := ty;
     dicts := [(0, (0, 1))] :: map (map (λ d : nat, (d, (d, S d)))) preds;
     pred_graph := S |}.

(** C (0) with the two predecessors A (1) and B (2), both of them
    dispatchers. *)
Definition two_chains : Snapshot :=
  snapshot_of
    (λ dp, match dp with
           | 1 | 2 => ShardingRoundRobinDispatcher
           | _ => OtherIterDataPipe
           end)
    [ [1; 2]; []; [] ].

(** R (0) reads from A (1), A from B (2), and B from A again and from the
    placeholder D (3). *)
Definition cyclic : Snapshot :=
  snapshot_of
    (λ dp, match dp with
           | 3 => _DummyIterDataPipe
           | 1 => ShardingRoundRobinDispatcher
           | _ => OtherIterDataPipe
           end)
    [ [1]; [2]; [1; 3]; [] ].

(** A pipeline without any dispatcher or placeholder: 0 reads from 1. *)
Definition plain_chain : Snapshot :=
  snapshot_of (λ _, OtherIterDataPipe) [ [1]; [] ].

(** The root R (0) reads from X (1) and from Y (2); X reads from the
    placeholder (3), and Y from an ordinary source (4). *)
Definition sibling : Snapshot :=
  snapshot_of
    (λ dp, match dp with
           | 3 => _DummyIterDataPipe
           | _ => OtherIterDataPipe
           end)
    [ [1; 2]; [3]; [4]; []; [] ].

(** 0 reads from the dispatcher 1, which reads from the dispatcher 2, which
    reads from the source 3. *)
Definition nested_markers : Snapshot :=
  snapshot_of
    (λ dp, match dp with
           | 1 | 2 => ShardingRoundRobinDispatcher
           | _ => OtherIterDataPipe
           end)
    [ [1]; [2]; [3]; [] ].

(** The cycle of [cyclic] without any dispatcher: R (0) reads from A (1), A
    from B (2), and B from A again and from the placeholder D (3). *)
Definition cyclic_placeholder : Snapshot :=
  snapshot_of
    (λ dp, match dp with
           | 3 => _DummyIterDataPipe
           | _ => OtherIterDataPipe
           end)
    [ [1]; [2]; [1; 3]; [] ].

(** The same pipeline as a finite nesting of dictionaries, the second
    occurrence of A filed with an empty dictionary:
    [{0: (R, {1: (A, {2: (B, {1: (A, {}), 3: (D, {})})})})}]. *)
Definition cycle_cut : Snapshot :=
  {| type_of := λ dp, match dp with
                      | 3 => _DummyIterDataPipe
                      | _ => OtherIterDataPipe
                      end;
     dicts := [ [(0, (0, 1))]; [(1, (1, 2))]; [(2, (2, 3))];
                [(1, (1, 4)); (3, (3, 4))]; [] ];
     pred_graph := S |}.

(** ** Pipelines shaped as trees *)

(** A pipeline in which no DataPipe is shared: a DataPipe and the pipelines
    of its direct predecessors, in the order of its graph dictionary. *)
Inductive tree := Node (dp : DataPipe) (preds : list tree).

Definition root (t : tree) : DataPipe :=
  match t with Node dp _ => dp end.

Fixpoint nodes (t : tree) : list DataPipe :=
  match t with Node dp ps => dp :: flat_map nodes ps end.

Fixpoint subtrees (t : tree) : list tree :=
  match t with Node _ ps => t :: flat_map subtrees ps end.

(** An item of a graph dictionary is the root of the tree, and the dictionary
    filed with it has the roots of the predecessors, each with its tree. *)
Fixpoint represents (h : Snapshot) (t : tree) (it : item) {struct t} : Prop :=
  match t with
  | Node dp ps =>
      it.1 = id_of dp ∧ it.2.1 = dp
      ∧ (fix all2 (ps : list tree) (its : list item) {struct ps} : Prop :=
           match ps, its with
           | [], [] => True
           | p :: ps', it' :: its' => represents h p it' ∧ all2 ps' its'
           | _, _ => False
           end) ps (items h it.2.2)
  end.

(** No placeholder at the root or below it. *)
Fixpoint replicable (h : Snapshot) (t : tree) : bool :=
  match t with
  | Node dp ps =>
      bool_decide (type_of h dp ≠ _DummyIterDataPipe)
      && forallb (replicable h) ps
  end.

(** What a visit of the tree appends to the list of branches. *)
Fixpoint branches (h : Snapshot) (t : tree) : list DataPipe :=
  match t with
  | Node dp ps =>
      if decide (type_of h dp = _DummyIterDataPipe) then []
      else flat_map (branches h) ps
           ++ (if forallb (replicable h) ps then []
               else root <$> List.filter (replicable h) ps)
  end.

(** The list returned for a rooted tree. *)
Definition listed (h : Snapshot) (t : tree) : list DataPipe :=
  branches h t ++ (if replicable h t then [root t] else []).

(** The subtrees strictly below the root. *)
Definition proper_subtrees (t : tree) : list tree :=
  match t with Node _ ps => flat_map subtrees ps end.

(** The items that can be reached from a dictionary without going below a
    placeholder: the branch extraction does not look at the predecessors of
    a placeholder. *)
Inductive reach_visible (h : Snapshot) : Ref → item → Prop :=
| visible_here g it :
    it ∈ items h g → reach_visible h g it
| visible_below g k dp sub it :
    (k, (dp, sub)) ∈ items h g → type_of h dp ≠ _DummyIterDataPipe →
    reach_visible h sub it → reach_visible h g it.

(** [m] is [q] or a transitive predecessor of [q]. *)
Definition at_or_below (h : Snapshot) (q m : DataPipe) : Prop :=
  m = q ∨ reach h (pred_graph h q) m.

(** [x] is at the top of a region: it is the root of the graph, or a direct
    predecessor of a node that the extraction can see, that is not a
    placeholder and whose closure is not replicable. *)
Definition region_top (h : Snapshot) (graph : Ref) (x : DataPipe) : Prop :=
  (∃ k sub, (k, (x, sub)) ∈ items h graph)
  ∨ ∃ (p : DataPipe) k sub,
      reach_visible h graph (id_of p, (p, pred_graph h p))
      ∧ type_of h p ≠ _DummyIterDataPipe
      ∧ ¬ replicable_closure h p
      ∧ (k, (x, sub)) ∈ items h (pred_graph h p).

(** R (0) reads from the placeholder (1), which reads from the source Z
    (2). *)
Definition behind_placeholder : Snapshot :=
  snapshot_of
    (λ dp, match dp with
           | 1 => _DummyIterDataPipe
           | _ => OtherIterDataPipe
           end)
    [ [1]; [2]; [] ].

(** The root R (0) reads from X (1), A (2) and N (3); X reads from the
    placeholder (4) and from N, and A reads from N. *)
Definition shared_source : Snapshot :=
  snapshot_of
    (λ dp, match dp with
           | 4 => _DummyIterDataPipe
           | _ => OtherIterDataPipe
           end)
    [ [1; 2; 3]; [4; 3]; [3]; []; [] ].

(** What a visit of a represented tree does, when none of its nodes has an
    entry yet. *)
Definition visit_spec (h : Snapshot) (t : tree) : Prop :=
  ∀ fuel memo dps it st b,
    represents h t it → NoDup (nodes t) →
    (∀ q, q ∈ nodes t → memo !! q = None) →
    _is_replicable_graph h fuel (memo, dps) it.1 it.2.1 it.2.2 = Ret (st, b) →
    b = replicable h t ∧ st.2 = dps ++ branches h t
    ∧ ∀ q, q ∈ dom st.1 → q ∈ dom memo ∨ q ∈ nodes t.

(** The pipeline of [sibling] as a tree. *)
Definition sibling_tree : tree :=
  Node 0 [Node 1 [Node 3 []]; Node 2 [Node 4 []]].

(** ** The same graph in two snapshots *)

(** Two snapshots hold the same graph: on a set [R] of dictionaries that is
    closed under "filed with an item" and "predecessor graph of an item",
    they have the same items, the same classes and the same predecessor
    graphs. Outside [R] the snapshots may differ in any way. *)
Definition same_graph (h1 h2 : Snapshot) (R : Ref → Prop) : Prop :=
  ∀ g, R g →
    items h1 g = items h2 g
    ∧ ∀ k dp sub, (k, (dp, sub)) ∈ items h1 g →
        R sub ∧ type_of h1 dp = type_of h2 dp
        ∧ pred_graph h1 dp = pred_graph h2 dp ∧ R (pred_graph h1 dp).

(** [nested_markers] in a process that holds other dictionaries and other
    DataPipes as well. *)
Definition nested_markers_elsewhere : Snapshot :=
  {| type_of := λ dp, match dp with
                      | 1 | 2 => ShardingRoundRobinDispatcher
                      | 0 | 3 => OtherIterDataPipe
                      | _ => _DummyIterDataPipe
                      end;
     dicts := [ [(0, (0, 1))]; [(1, (1, 2))]; [(2, (2, 3))]; [(3, (3, 4))]; [];
                [(7, (7, 5)); (1, (8, 0))] ];
     pred_graph := λ dp, if decide (dp < 4) then S dp else 5 |}.

(** 0 reads from the dispatcher 1, which reads from the source 2. *)
Definition one_marker : Snapshot :=
  snapshot_of
    (λ dp, match dp with
           | 1 => ShardingRoundRobinDispatcher
           | _ => OtherIterDataPipe
           end)
    [ [1]; [2]; [] ].

(** The outcome [v] recorded for [q] covers the non-replicable nodes at or
    below [q]: it is a node at or below [q], and every node of the set at or
    below [q] is at or below it. *)
Definition covers (h : Snapshot) (nrd : gset nat) (q : DataPipe)
    (v : option DataPipe) : Prop :=
  (∀ x, v = Some x → at_or_below h q x)
  ∧ (∀ m, id_of m ∈ nrd → at_or_below h q m →
       ∃ x, v = Some x ∧ at_or_below h x m).

(** The items that can be reached from a dictionary without going below an
    item whose key is in the set [nrd]: the items that the cut-point
    reduction can enter. *)
Inductive reach_outside (h : Snapshot) (nrd : gset nat) : Ref → item → Prop :=
| outside_here g it :
    it ∈ items h g → reach_outside h nrd g it
| outside_below g k dp sub it :
    (k, (dp, sub)) ∈ items h g → k ∉ nrd → reach_outside h nrd sub it →
    reach_outside h nrd g it.

(** * Properties *)

(** ** Outcomes and loops *)

Lemma bind_Ret {A B} (a : A) (k : A → outcome B) : Ret a ≫= k = k a.
Proof. done. Qed.

Lemma bind_Ret_inv {A B} (c : outcome A) (k : A → outcome B) b :
  c ≫= k = Ret b → ∃ a, c = Ret a ∧ k a = Ret b.
Proof. destruct c; simpl; [eauto | done | done]. Qed.

Lemma getitem_Ret {V} (d : gmap nat V) k v : getitem d k = Ret v ↔ d !! k = Some v.
Proof. unfold getitem. destruct (d !! k); split; congruence. Qed.

Lemma getitem_lookup {V} (d : gmap nat V) k v :
  d !! k = Some v → getitem d k = Ret v.
Proof. apply getitem_Ret. Qed.

Lemma for_each_app {S A} (body : A → S → outcome S) xs ys s :
  for_each body (xs ++ ys) s = s' ← for_each body xs s; for_each body ys s'.
Proof.
  revert s. induction xs as [|x xs IH]; intros s; simpl; [done|].
  destruct (body x s); simpl; auto.
Qed.

(** A loop invariant that may mention the items already processed; the loop
    is known to have finished. *)
Lemma for_each_inv {S A} (P : list A → S → Prop) (body : A → S → outcome S)
    xs s s' :
  for_each body xs s = Ret s' →
  P [] s →
  (∀ pre x post s1 s2, xs = pre ++ x :: post → P pre s1 →
     body x s1 = Ret s2 → P (pre ++ [x]) s2) →
  P xs s'.
Proof.
  intros Hrun H0 Hstep.
  cut (∀ pre post s1, xs = pre ++ post → P pre s1 →
         for_each body post s1 = Ret s' → P xs s').
  { intros Hcut. apply (Hcut [] xs s); auto. }
  intros pre post. revert pre.
  induction post as [|x post IH]; intros pre s1 Hxs HP Hr; simpl in Hr.
  - rewrite app_nil_r in Hxs. congruence.
  - apply bind_Ret_inv in Hr as (s2 & Hb & Hr).
    apply (IH (pre ++ [x]) s2); [by rewrite <- app_assoc | | done].
    eapply Hstep; eauto.
Qed.

(** The same invariant, used to show that the loop finishes. *)
Lemma for_each_total {S A} (P : list A → S → Prop) (body : A → S → outcome S)
    xs s :
  P [] s →
  (∀ pre x post s1, xs = pre ++ x :: post → P pre s1 →
     ∃ s2, body x s1 = Ret s2 ∧ P (pre ++ [x]) s2) →
  ∃ s', for_each body xs s = Ret s' ∧ P xs s'.
Proof.
  intros H0 Hstep.
  cut (∀ pre post s1, xs = pre ++ post → P pre s1 →
         ∃ s', for_each body post s1 = Ret s' ∧ P xs s').
  { intros Hcut. apply (Hcut [] xs s); auto. }
  intros pre post. revert pre.
  induction post as [|x post IH]; intros pre s1 Hxs HP; simpl.
  - rewrite app_nil_r in Hxs. subst. eauto.
  - destruct (Hstep pre x post s1 Hxs HP) as (s2 & -> & HP2). simpl.
    apply (IH (pre ++ [x]) s2); [by rewrite <- app_assoc | done].
Qed.

(** ** Every traversal returns *)

Section termination.
Context (h : Snapshot).

Local Abbreviation K := (key_set h).

Lemma item_key_in_key_set g k v : (k, v) ∈ items h g → k ∈ K.
Proof.
  unfold items, K, all_keys. intros Hin.
  destruct (dicts h !! g) as [d|] eqn:Hd; simpl in Hin; [|by apply elem_of_nil in Hin].
  apply elem_of_list_to_set, list_elem_of_fmap. exists (k, v). split; [done|].
  apply list_elem_of_join. exists d. split; [done|].
  apply list_elem_of_lookup. eauto.
Qed.

Lemma size_list_to_set_le (l : list nat) : size (list_to_set l : gset nat) ≤ length l.
Proof.
  induction l as [|x l IH].
  - rewrite list_to_set_nil, size_empty. simpl. lia.
  - rewrite list_to_set_cons, size_union_alt, size_singleton. simpl.
    assert (size (list_to_set l ∖ {[x]} : gset nat) ≤ size (list_to_set l : gset nat))
      by (apply subseteq_size; set_solver).
    lia.
Qed.

Lemma fuel_of_enough (X : gset nat) : size (K ∖ X) < fuel_of h.
Proof.
  assert (size (K ∖ X) ≤ size K) by (apply subseteq_size; set_solver).
  pose proof (size_list_to_set_le (all_keys h)).
  unfold fuel_of, K in *. lia.
Qed.

Lemma enter_key_measure k (X Y : gset nat) n :
  k ∈ K → k ∉ X → {[k]} ∪ X ⊆ Y →
  size (K ∖ X) < S n → size (K ∖ Y) < n.
Proof.
  intros Hk Hfresh Hsub Hlt.
  assert (K ∖ Y ⊂ K ∖ X) as Hss.
  { split; [set_solver|]. intros Hc. specialize (Hc k). set_solver. }
  apply subset_size in Hss. lia.
Qed.

Lemma list_dps_helper_total fuel its cache dps :
  (∀ it, it ∈ its → it.1 ∈ K) →
  size (K ∖ cache) < fuel →
  ∃ cache' dps', list_dps_helper h fuel its (cache, dps) = Ret (cache', dps')
                 ∧ cache ⊆ cache'.
Proof.
  revert its cache dps.
  induction fuel as [|n IH]; intros its cache dps Hkeys Hfuel; [lia|]. simpl.
  edestruct (for_each_total (A:=item)
               (λ _ (st : gset nat * list DataPipe), cache ⊆ st.1))
    as ([c' d'] & Hr & HP); [| | rewrite Hr; eauto]; [done|].
  intros pre [k [dp sub]] post [c d] Hitems Hc. simpl in Hc.
  destruct (decide (k ∈ c)) as [Hin|Hin]; [eauto|].
  destruct (IH (items h sub) ({[k]} ∪ c) (d ++ [dp])) as (c2 & d2 & -> & Hsub).
  - intros [k' v'] Hin'. by apply (item_key_in_key_set sub k' v').
  - apply (enter_key_measure k cache); [| set_solver | set_solver | done].
    apply (Hkeys (k, (dp, sub))). rewrite Hitems. set_solver.
  - exists (c2, d2). split; [done|]. simpl. set_solver.
Qed.

Lemma lca_record_dom k dp ps (m : gmap nat (option DataPipe)) :
  k ∈ dom m → dom (lca_record k dp ps m) = dom m.
Proof.
  intros Hk. unfold lca_record. destruct ps as [|p0 ps]; [done|].
  destruct (_ || _); rewrite dom_insert_L; set_solver.
Qed.

Lemma lca_record_lookup_ne k dp ps (m : gmap nat (option DataPipe)) q :
  q ≠ k → lca_record k dp ps m !! q = m !! q.
Proof.
  intros Hq. unfold lca_record. destruct ps as [|p0 ps]; [done|].
  destruct (_ || _); by rewrite lookup_insert_ne.
Qed.

Lemma _get_lca_from_graph_total nrd fuel memo k dp g :
  size (K ∖ dom memo) < fuel → k ∈ K →
  ∃ memo' r, _get_lca_from_graph h nrd fuel memo k dp g = Ret (memo', r)
             ∧ dom memo ⊆ dom memo' ∧ k ∈ dom memo'.
Proof.
  revert memo k dp g.
  induction fuel as [|n IH]; intros memo k dp g Hfuel Hk; [lia|]. simpl.
  destruct (memo !! k) as [r|] eqn:Hmk.
  { exists memo, r. split_and!; [done..|]. apply elem_of_dom; eauto. }
  destruct (decide (k ∈ nrd)).
  { eexists _, _. split; [done|]. rewrite dom_insert_L. set_solver. }
  unfold lca_parents.
  edestruct (for_each_total (A:=item)
               (λ _ (st : gmap nat (option DataPipe) * list DataPipe),
                  {[k]} ∪ dom memo ⊆ dom st.1))
    as ([m ps] & -> & HP).
  { simpl. rewrite dom_insert_L. set_solver. }
  { intros pre [k' [dp' sub]] post [m ps] Hitems Hm. simpl in Hm.
    destruct (IH m k' dp' sub) as (m' & r & -> & Hsub & Hk').
    - apply (enter_key_measure k (dom memo)); [done | | done | done].
      by apply not_elem_of_dom.
    - apply (item_key_in_key_set g k' (dp', sub)). rewrite Hitems. set_solver.
    - simpl. eexists. split; [done|]. simpl. set_solver. }
  simpl in *.
  assert (k ∈ dom (lca_record k dp ps m)) as Hin
    by (rewrite lca_record_dom; set_solver).
  apply elem_of_dom in Hin as [r Hr]. unfold getitem. rewrite Hr. simpl.
  eexists _, _. split; [done|]. rewrite lca_record_dom; set_solver.
Qed.

Lemma append_replicable_children_total its (m : gmap nat bool) dps :
  (∀ it, it ∈ its → it.1 ∈ dom m) →
  ∃ dps', append_replicable_children its (m, dps) = Ret (m, dps').
Proof.
  intros Hits. unfold append_replicable_children.
  edestruct (for_each_total (A:=item) (λ _ (st : branch_state), st.1 = m))
    as ([m' dps'] & -> & HP); [done | | simpl in HP; subst; eauto].
  intros pre [k' [dp' sub]] post [m1 d1] -> Hm. simpl in Hm. subst m1.
  assert (k' ∈ dom m) as Hin by (apply (Hits (k', (dp', sub))); set_solver).
  apply elem_of_dom in Hin as [b Hb]. unfold getitem. rewrite Hb. simpl.
  destruct b; eauto.
Qed.

Lemma _is_replicable_graph_total fuel memo dps k dp g :
  size (K ∖ dom memo) < fuel → k ∈ K →
  ∃ memo' dps' b,
    _is_replicable_graph h fuel (memo, dps) k dp g = Ret ((memo', dps'), b)
    ∧ dom memo ⊆ dom memo' ∧ k ∈ dom memo'.
Proof.
  revert memo dps k dp g.
  induction fuel as [|n IH]; intros memo dps k dp g Hfuel Hk; [lia|]. simpl.
  destruct (memo !! k) as [b|] eqn:Hmk.
  { exists memo, dps, b. split_and!; [done..|]. apply elem_of_dom; eauto. }
  destruct (decide (type_of h dp = _DummyIterDataPipe)).
  { eexists _, _, _. split; [done|]. rewrite dom_insert_L. set_solver. }
  unfold visit_children.
  edestruct (for_each_total (A:=item)
               (λ pre (st : branch_state),
                  {[k]} ∪ dom memo ⊆ dom st.1
                  ∧ ∀ it, it ∈ pre → it.1 ∈ dom st.1))
    as ([m ds] & -> & HP & Hch).
  { simpl. rewrite dom_insert_L. split; [set_solver|]. intros it Hit.
    by apply elem_of_nil in Hit. }
  { intros pre [k' [dp' sub]] post [m ds] Hitems [Hm Hpre]. simpl in Hm, Hpre.
    destruct (IH m ds k' dp' sub) as (m' & ds' & b & -> & Hsub & Hk').
    - apply (enter_key_measure k (dom memo)); [done | | done | done].
      by apply not_elem_of_dom.
    - apply (item_key_in_key_set g k' (dp', sub)). rewrite Hitems. set_solver.
    - simpl. assert (∀ it, it ∈ pre ++ [(k', (dp', sub))] → it.1 ∈ dom m').
      { intros it [Hit|Hit]%elem_of_app; [apply Hsub, Hpre, Hit|].
        apply list_elem_of_singleton in Hit. by subst. }
      destruct b; simpl; eexists; (split; [done|]); simpl;
        rewrite ?dom_insert_L; set_solver. }
  simpl in *.
  assert (k ∈ dom m) as Hin by set_solver.
  apply elem_of_dom in Hin as [b Hb]. apply getitem_Ret in Hb.
  rewrite Hb. simpl.
  destruct b; simpl.
  - rewrite Hb. simpl. eexists _, _, _. split; [done|]. set_solver.
  - destruct (append_replicable_children_total (items h g) m ds Hch) as (ds' & ->).
    simpl. rewrite Hb. simpl.
    eexists _, _, _. split; [done|]. set_solver.
Qed.

Lemma list_dps_helper_unfold n its st :
  list_dps_helper h (S n) its st
  = for_each
      (λ '(dp_id, (dp, src_graph)) '(cache, dps),
         if decide (dp_id ∈ cache) then Ret (cache, dps)
         else list_dps_helper h n (items h src_graph)
                ({[dp_id]} ∪ cache, dps ++ [dp]))
      its st.
Proof. done. Qed.

(** The keys of the dictionary that is flattened need not be keys of the
    snapshot: [traverse_dps] files a DataPipe under its identity. *)
Lemma list_dps_total its : ∃ dps, list_dps h its = Ret dps.
Proof.
  unfold list_dps, fuel_of. rewrite list_dps_helper_unfold.
  edestruct (for_each_total (A:=item)
               (λ _ (st : gset nat * list DataPipe), True))
    as ([c d] & -> & _); [done| |simpl; eauto].
  intros pre [k [dp sub]] post [c d] _ _.
  destruct (decide (k ∈ c)) as [Hin|Hin]; [eauto|].
  destruct (list_dps_helper_total (S (length (all_keys h))) (items h sub)
              ({[k]} ∪ c) (d ++ [dp])) as (c2 & d2 & -> & _); [| |eauto].
  - intros [k' v'] Hin'. by apply (item_key_in_key_set sub k' v').
  - assert (size (K ∖ ({[k]} ∪ c)) ≤ size K) by (apply subseteq_size; set_solver).
    pose proof (size_list_to_set_le (all_keys h)). unfold K in *. lia.
Qed.

Lemma mark_non_replicable_total graph :
  ∃ nrd, mark_non_replicable h graph = Ret nrd.
Proof.
  unfold mark_non_replicable.
  destruct (list_dps_total (items h graph)) as [dps ->]. simpl.
  generalize (∅ : gset nat).
  induction dps as [|dp dps IH]; intros nrd; simpl; [eauto|].
  destruct (decide (id_of dp ∈ nrd)); simpl; [apply IH|].
  destruct (_is_round_robin_sharding h dp); simpl; [|apply IH].
  destruct (list_dps_total (traverse_dps h dp)) as [ps ->]. simpl. apply IH.
Qed.

Lemma find_lca_non_replicable_dp_total graph :
  length (items h graph) = 1 →
  ∃ r, find_lca_non_replicable_dp h graph = Ret r.
Proof.
  intros Hlen. unfold find_lca_non_replicable_dp.
  destruct (items h graph) as [|[k [dp g]] [|??]] eqn:Hitems; try done.
  destruct (mark_non_replicable_total graph) as [nrd ->]. rewrite bind_Ret.
  destruct (_get_lca_from_graph_total nrd (fuel_of h) ∅ k dp g)
    as (m & r & -> & _).
  - apply fuel_of_enough.
  - apply (item_key_in_key_set graph k (dp, g)). rewrite Hitems. set_solver.
  - simpl. eauto.
Qed.

Lemma find_replicable_branches_total graph :
  length (items h graph) = 1 →
  ∃ dps, find_replicable_branches h graph = Ret dps.
Proof.
  intros Hlen. unfold find_replicable_branches.
  destruct (items h graph) as [|[k [dp g]] [|??]] eqn:Hitems; try done.
  destruct (_is_replicable_graph_total (fuel_of h) ∅ [] k dp g)
    as (m & ds & b & -> & _).
  - apply fuel_of_enough.
  - apply (item_key_in_key_set graph k (dp, g)). rewrite Hitems. set_solver.
  - simpl. eauto.
Qed.
End termination.

(** ** What a call leaves in place *)

Section frame.
Context (h : Snapshot).

Lemma for_each_ext_inv {S A} (P : S → Prop) (f g : A → S → outcome S) xs s :
  P s →
  (∀ x s1, x ∈ xs → P s1 → f x s1 = g x s1) →
  (∀ x s1 s2, x ∈ xs → P s1 → f x s1 = Ret s2 → P s2) →
  for_each f xs s = for_each g xs s.
Proof.
  revert s. induction xs as [|x xs IH]; intros s HP Hfg Hpres; simpl; [done|].
  rewrite <- (Hfg x s); [|set_solver|done].
  destruct (f x s) as [s2| |] eqn:Hf; simpl; try done.
  apply IH.
  - eapply Hpres; [|done|done]. set_solver.
  - intros y s1 Hy. apply Hfg. set_solver.
  - intros y s1 s3 Hy. apply Hpres. set_solver.
Qed.

(** The entries of the memo table of the cut-point reduction are final: a
    call only adds entries. *)
Lemma _get_lca_from_graph_mono nrd fuel memo k dp g memo' r :
  _get_lca_from_graph h nrd fuel memo k dp g = Ret (memo', r) →
  memo ⊆ memo' ∧ memo' !! k = Some r.
Proof.
  revert memo k dp g memo' r.
  induction fuel as [|n IH]; intros memo k dp g memo' r Hrun; [done|].
  simpl in Hrun. destruct (memo !! k) as [r0|] eqn:Hmk.
  { by simplify_eq. }
  destruct (decide (k ∈ nrd)).
  { simplify_eq. split; [by apply insert_subseteq|]. by rewrite lookup_insert_eq. }
  apply bind_Ret_inv in Hrun as ([m ps] & Hloop & Hrun).
  apply bind_Ret_inv in Hrun as (r1 & Hget & Hrun). simplify_eq.
  apply getitem_Ret in Hget. split; [|done].
  assert (<[k:=None]> memo ⊆ m) as Hsub.
  { unfold lca_parents in Hloop.
    apply (for_each_inv
             (λ _ (st : gmap nat (option DataPipe) * list DataPipe),
                <[k:=None]> memo ⊆ st.1)) in Hloop; [done | done |].
    intros pre [k' [dp' sub]] post [m1 ps1] [m2 ps2] _ Hm1 Hbody.
    apply bind_Ret_inv in Hbody as ([m3 r3] & Hcall & Hbody). simplify_eq.
    apply IH in Hcall as [Hcall _]. simpl in *. by etrans. }
  apply map_subseteq_spec. intros q v Hq.
  assert (q ≠ k) by congruence.
  rewrite lca_record_lookup_ne by done.
  eapply lookup_weaken; [|exact Hsub]. by rewrite lookup_insert_ne.
Qed.

Lemma append_replicable_children_inv its (m : gmap nat bool) dps st :
  append_replicable_children its (m, dps) = Ret st →
  st.1 = m ∧ ∃ new, st.2 = dps ++ new.
Proof.
  intros Hrun. unfold append_replicable_children in Hrun.
  apply (for_each_inv
           (λ _ (st : branch_state), st.1 = m ∧ ∃ new, st.2 = dps ++ new))
    in Hrun; [done | |].
  { split; [done|]. exists []. by rewrite app_nil_r. }
  intros pre [k' [dp' sub]] post [m1 d1] [m2 d2] _ [Hm [new Hd]] Hbody.
  simpl in *. subst.
  apply bind_Ret_inv in Hbody as (b & _ & Hbody).
  destruct b; simpl in Hbody; simplify_eq; simpl; (split; [done|]).
  - exists (new ++ [dp']). by rewrite app_assoc.
  - eauto.
Qed.

(** What lines 116 to 118 append: the predecessors filed under a key whose
    entry is [True]. *)
Lemma append_replicable_children_spec its (m : gmap nat bool) d st :
  append_replicable_children its (m, d) = Ret st →
  st.1 = m
  ∧ ∀ x, x ∈ st.2 ↔
      x ∈ d ∨ ∃ k sub, (k, (x, sub)) ∈ its ∧ m !! k = Some true.
Proof.
  intros Hrun. unfold append_replicable_children in Hrun.
  apply (for_each_inv
           (λ pre (st : branch_state),
              st.1 = m
              ∧ ∀ x, x ∈ st.2 ↔
                  x ∈ d ∨ ∃ k sub, (k, (x, sub)) ∈ pre ∧ m !! k = Some true)
           _ _ _ _ Hrun).
  { split; [done|]. intros x. split; [auto|].
    intros [?|(k & sub & Hin & _)]; [done|]. by apply elem_of_nil in Hin. }
  intros pre [k' [dp' sub']] post [m1 d1] [m2 d2] _ [Hm Hd] Hbody.
  simpl in *. subst m1.
  apply bind_Ret_inv in Hbody as (bc & Hget & Hbody).
  apply getitem_Ret in Hget.
  destruct bc; simpl in Hbody; simplify_eq; (split; [done|]); intros x.
  - rewrite elem_of_app, list_elem_of_singleton, Hd. split.
    + intros [[?|(k & sub & Hin & Hk)]| ->];
        [by left|right; exists k, sub; set_solver
        |right; exists k', sub'; set_solver].
    + intros [?|(k & sub & [Hin|Hin]%elem_of_app & Hk)];
        [by left; left|left; right; eauto|].
      apply list_elem_of_singleton in Hin. simplify_eq. by right.
  - rewrite Hd. split.
    + intros [?|(k & sub & Hin & Hk)];
        [by left|right; exists k, sub; set_solver].
    + intros [?|(k & sub & [Hin|Hin]%elem_of_app & Hk)];
        [by left|right; eauto|].
      apply list_elem_of_singleton in Hin. simplify_eq.
Qed.

Lemma insert_false_is_Some (m : gmap nat bool) (k x : nat) :
  is_Some (m !! x) → is_Some (<[k:=false]> m !! x).
Proof.
  intros [w Hw]. destruct (decide (x = k)) as [->|];
    [rewrite lookup_insert_eq|rewrite lookup_insert_ne by done]; eauto.
Qed.

Lemma insert_false_true (m : gmap nat bool) (k x : nat) :
  <[k:=false]> m !! x = Some true → m !! x = Some true.
Proof. by intros [[_ ?]|[_ ?]]%lookup_insert_Some. Qed.

Lemma insert_false_false (m : gmap nat bool) (k x : nat) :
  m !! x = Some false → <[k:=false]> m !! x = Some false.
Proof.
  intros Hx. destruct (decide (x = k)) as [->|];
    [by rewrite lookup_insert_eq|by rewrite lookup_insert_ne].
Qed.

(** A call of the branch extraction only adds entries to its table, and only
    appends to its list. *)
Lemma _is_replicable_graph_mono fuel memo dps k dp g memo' dps' b :
  _is_replicable_graph h fuel (memo, dps) k dp g = Ret ((memo', dps'), b) →
  memo ⊆ memo' ∧ memo' !! k = Some b ∧ ∃ new, dps' = dps ++ new.
Proof.
  revert memo dps k dp g memo' dps' b.
  induction fuel as [|n IH]; intros memo dps k dp g memo' dps' b Hrun; [done|].
  simpl in Hrun. destruct (memo !! k) as [b0|] eqn:Hmk.
  { simplify_eq. split_and!; [done..|]. exists []. by rewrite app_nil_r. }
  destruct (decide (type_of h dp = _DummyIterDataPipe)).
  { simplify_eq. split_and!; [by apply insert_subseteq| by rewrite lookup_insert_eq|].
    exists []. by rewrite app_nil_r. }
  apply bind_Ret_inv in Hrun as ([m1 d1] & Hloop & Hrun).
  apply bind_Ret_inv in Hrun as (b1 & Hget1 & Hrun).
  apply bind_Ret_inv in Hrun as ([m2 d2] & Happ & Hrun).
  apply bind_Ret_inv in Hrun as (b2 & Hget2 & Hrun). simplify_eq. simpl in *.
  apply getitem_Ret in Hget1, Hget2.
  assert ((∀ q v, q ≠ k → memo !! q = Some v → m1 !! q = Some v)
          ∧ ∃ new, d1 = dps ++ new) as [Hsub [new1 ->]].
  { unfold visit_children in Hloop.
    apply (for_each_inv
             (λ _ (st : branch_state),
                (∀ q v, q ≠ k → memo !! q = Some v → st.1 !! q = Some v)
                ∧ ∃ new, st.2 = dps ++ new)) in Hloop; [done | |].
    { simpl. split; [|exists []; by rewrite app_nil_r].
      intros q v Hq Hv. by rewrite lookup_insert_ne. }
    intros pre [k' [dp' sub]] post [m3 d3] [m4 d4] _ [Hm3 [new3 Hd3]] Hbody.
    simpl in *. subst.
    apply bind_Ret_inv in Hbody as ([[m5 d5] b5] & Hcall & Hbody).
    apply IH in Hcall as (Hcall & _ & new5 & ->).
    assert (∀ q v, q ≠ k → memo !! q = Some v → m5 !! q = Some v) as Hm5.
    { intros q v Hq Hv. eapply lookup_weaken; [|exact Hcall]. eauto. }
    destruct b5; simpl in Hbody; simplify_eq; simpl; split.
    - exact Hm5.
    - exists (new3 ++ new5). by rewrite app_assoc.
    - intros q v Hq Hv. rewrite lookup_insert_ne by done. eauto.
    - exists (new3 ++ new5). by rewrite app_assoc. }
  assert (memo' = m1 ∧ ∃ new, dps' = (dps ++ new1) ++ new) as [-> [new2 ->]].
  { destruct b1; simpl in Happ.
    - simplify_eq. split; [done|]. exists []. by rewrite app_nil_r.
    - by apply append_replicable_children_inv in Happ. }
  split_and!; [|done|].
  - apply map_subseteq_spec. intros q v Hq. apply Hsub; [congruence|done].
  - exists (new1 ++ new2). by rewrite app_assoc.
Qed.

(** Both reductions have the entry of a node in their table while they visit
    its predecessors: asking for it before each recursive call changes
    nothing. *)
Lemma lca_parents_entered nrd n k its st :
  k ∈ dom st.1 →
  lca_parents (_get_lca_from_graph h nrd n) its st
  = lca_parents (lca_entered k (_get_lca_from_graph h nrd n)) its st.
Proof.
  intros Hk. unfold lca_parents.
  apply (for_each_ext_inv
           (λ st : gmap nat (option DataPipe) * list DataPipe, k ∈ dom st.1));
    [done | |].
  - intros [k' [dp' sub]] [m ps] _ Hm. simpl in Hm.
    unfold lca_entered. simpl. by rewrite decide_True.
  - intros [k' [dp' sub]] [m ps] [m2 ps2] _ Hm Hbody. simpl in *.
    apply bind_Ret_inv in Hbody as ([m3 r3] & Hcall & Hbody). simplify_eq.
    apply _get_lca_from_graph_mono in Hcall as [Hcall _].
    apply subseteq_dom in Hcall. set_solver.
Qed.

Lemma visit_children_entered n k its st :
  k ∈ dom st.1 →
  visit_children (_is_replicable_graph h n) k its st
  = visit_children (branch_entered k (_is_replicable_graph h n)) k its st.
Proof.
  intros Hk. unfold visit_children.
  apply (for_each_ext_inv (λ st : branch_state, k ∈ dom st.1)); [done | |].
  - intros [k' [dp' sub]] [m ps] _ Hm. simpl in Hm.
    unfold branch_entered. simpl. by rewrite decide_True.
  - intros [k' [dp' sub]] [m ps] [m2 ps2] _ Hm Hbody. simpl in *.
    apply bind_Ret_inv in Hbody as ([[m3 d3] b3] & Hcall & Hbody).
    apply _is_replicable_graph_mono in Hcall as (Hcall & _ & _).
    apply subseteq_dom in Hcall.
    destruct b3; simpl in Hbody; simplify_eq; simpl; rewrite ?dom_insert_L;
      set_solver.
Qed.
End frame.

(** ** The shape of the input *)

(** C9. A graph with no entry or with more than one root entry makes both
    [find_lca_non_replicable_dp] and [find_replicable_branches] fail with the
    assertion on the graph shape; neither returns a value. *)
Theorem invalid_graph_shape (h : Snapshot) (graph : Ref) :
  length (items h graph) = 0 ∨ 1 < length (items h graph) →
  find_lca_non_replicable_dp h graph = Raise AssertionError
  ∧ find_replicable_branches h graph = Raise AssertionError.
Proof.
  intros Hlen. unfold find_lca_non_replicable_dp, find_replicable_branches.
  destruct (items h graph) as [|[k [dp g]] [|it its]]; simpl in Hlen;
    [done | lia | done].
Qed.

Lemma invalid_graph_shape_witness :
  find_lca_non_replicable_dp two_chains 2 = Raise AssertionError
  ∧ find_replicable_branches two_chains 2 = Raise AssertionError.
Proof. apply invalid_graph_shape. left. reflexivity. Defined.

(** ** The cut-point reduction at one node *)

(** C1. At a node that has no entry yet and is not in the non-replicable set,
    when the outcomes of its predecessors form a non-empty list: if all of
    them are one node (in particular if there is exactly one), that node is
    recorded for the current node and returned; if two of them differ, the
    current node is recorded and returned. *)
Theorem lca_node_result (h : Snapshot) (nrd : gset nat) (n : nat)
    (memo memo1 : gmap nat (option DataPipe)) (k : nat) (dp : DataPipe)
    (g : Ref) (parents : list DataPipe) :
  memo !! k = None → k ∉ nrd →
  lca_parents (_get_lca_from_graph h nrd n) (items h g)
    (<[k:=None]> memo, []) = Ret (memo1, parents) →
  parents ≠ [] →
  (∀ p, (∀ q, q ∈ parents → q = p) →
     _get_lca_from_graph h nrd (S n) memo k dp g
     = Ret (<[k:=Some p]> memo1, Some p))
  ∧ ((∃ p q, p ∈ parents ∧ q ∈ parents ∧ p ≠ q) →
     _get_lca_from_graph h nrd (S n) memo k dp g
     = Ret (<[k:=Some dp]> memo1, Some dp)).
Proof.
  intros Hmk Hk Hloop Hne.
  assert (∀ v, getitem (<[k:=v]> memo1) k = Ret v) as Hget.
  { intros v. apply getitem_Ret. by rewrite lookup_insert_eq. }
  destruct parents as [|p0 ps]; [done|].
  split.
  - intros p Hall. simpl. rewrite Hmk, decide_False by done.
    rewrite Hloop, bind_Ret. unfold lca_record.
    assert (forallb (λ d : DataPipe, bool_decide (d = p0)) (p0 :: ps) = true)
      as ->.
    { apply forallb_forall. intros q Hq%list_elem_of_In.
      apply bool_decide_eq_true. rewrite (Hall q), (Hall p0); set_solver. }
    rewrite orb_true_r, (Hall p0) by set_solver. by rewrite Hget.
  - intros (p & q & Hp & Hq & Hpq). simpl. rewrite Hmk, decide_False by done.
    rewrite Hloop, bind_Ret. unfold lca_record.
    assert (bool_decide (length (p0 :: ps) = 1) = false) as ->.
    { apply bool_decide_eq_false. destruct ps; [|done]. set_solver. }
    assert (forallb (λ d : DataPipe, bool_decide (d = p0)) (p0 :: ps) = false)
      as ->.
    { apply not_true_is_false. intros Hall.
      rewrite forallb_forall in Hall. apply Hpq.
      pose proof (Hall p) as Hp0. pose proof (Hall q) as Hq0.
      rewrite bool_decide_eq_true in Hp0, Hq0.
      rewrite Hp0, Hq0; [done|by apply list_elem_of_In..]. }
    simpl. by rewrite Hget.
Qed.

Lemma lca_node_result_witness :
  _get_lca_from_graph two_chains {[1; 2]} 2 ∅ 0 0 1
  = Ret (<[0:=Some 0]> (<[2:=Some 2]> (<[1:=Some 1]> (<[0:=None]> ∅))), Some 0).
Proof.
  apply (proj2 (lca_node_result two_chains {[1; 2]} 1 ∅
                  (<[2:=Some 2]> (<[1:=Some 1]> (<[0:=None]> ∅))) 0 0 1 [1; 2]
                  (lookup_empty 0) ltac:(set_solver)
                  ltac:(vm_compute; reflexivity)
                  ltac:(discriminate))).
  exists 1, 2. split_and!; [set_solver | set_solver | lia].
Defined.

(** ** Reference cycles *)

Lemma cyclic_has_cycle : has_cycle cyclic 0.
Proof.
  exists 1, 1, 2, (1, 2). split.
  - apply (reach_below cyclic 0 0 0 1); [set_solver|].
    apply reach_here. set_solver.
  - apply (reach_below cyclic 2 2 2 3); [set_solver|].
    apply reach_here. set_solver.
Qed.

(** C5. On a graph with a reference cycle (a node whose own key is found
    below it) [find_lca_non_replicable_dp] returns a value. In both
    reductions the entry of a node is in the table before any of its
    predecessors is visited: a recursive call that first checks for that
    entry behaves as the plain recursive call. *)
Theorem cycle_safety (h : Snapshot) (graph : Ref) :
  has_cycle h graph → length (items h graph) = 1 →
  (∃ r, find_lca_non_replicable_dp h graph = Ret r)
  ∧ (∀ nrd n memo k dp g, memo !! k = None → k ∉ nrd →
       _get_lca_from_graph h nrd (S n) memo k dp g
       = '(m, ps) ← lca_parents (lca_entered k (_get_lca_from_graph h nrd n))
                      (items h g) (<[k:=None]> memo, []);
         r ← getitem (lca_record k dp ps m) k;
         Ret (lca_record k dp ps m, r))
  ∧ (∀ n memo dps k dp g,
       memo !! k = None → type_of h dp ≠ _DummyIterDataPipe →
       _is_replicable_graph h (S n) (memo, dps) k dp g
       = st1 ← visit_children (branch_entered k (_is_replicable_graph h n)) k
                 (items h g) (<[k:=true]> memo, dps);
         b ← getitem st1.1 k;
         st2 ← (if negb b
                then append_replicable_children (items h g) st1
                else Ret st1);
         b' ← getitem st2.1 k;
         Ret (st2, b')).
Proof.
  intros _ Hlen. split_and!.
  - by apply find_lca_non_replicable_dp_total.
  - intros nrd n memo k dp g Hmk Hk. simpl.
    rewrite Hmk, decide_False by done.
    rewrite <- lca_parents_entered; [done|].
    simpl. rewrite dom_insert_L. set_solver.
  - intros n memo dps k dp g Hmk Hty. simpl.
    rewrite Hmk, decide_False by done.
    rewrite <- visit_children_entered; [done|].
    simpl. rewrite dom_insert_L. set_solver.
Qed.

Lemma cycle_safety_witness :
  ∃ r, find_lca_non_replicable_dp cyclic 0 = Ret r.
Proof.
  apply (proj1 (cycle_safety cyclic 0 cyclic_has_cycle eq_refl)).
Defined.

(** ** Graphs without a dispatcher *)

Section cut_point.
Context (h : Snapshot).

Lemma reach_items_of g it : reach_items h (items h g) it ↔ reach_item h g it.
Proof.
  split.
  - intros [Hin|(k & dp & sub & Hin & Hr)];
      [by apply reach_here|by eapply reach_below].
  - intros Hr. inversion Hr; subst; [by left|right; eauto 10].
Qed.

Lemma list_dps_helper_sound fuel its cache dps cache' dps' :
  list_dps_helper h fuel its (cache, dps) = Ret (cache', dps') →
  ∀ dp, dp ∈ dps' → dp ∈ dps ∨ ∃ k sub, reach_items h its (k, (dp, sub)).
Proof.
  revert its cache dps cache' dps'.
  induction fuel as [|n IH]; intros its cache dps cache' dps' Hrun; [done|].
  simpl in Hrun.
  apply (for_each_inv
           (λ _ (st : gset nat * list DataPipe),
              ∀ dp, dp ∈ st.2 →
                dp ∈ dps ∨ ∃ k sub, reach_items h its (k, (dp, sub)))
           _ _ _ _ Hrun);
    [by left |].
  intros pre [k [dp sub]] post [c1 d1] [c2 d2] Hitems Hd1 Hbody. simpl in *.
  assert ((k, (dp, sub)) ∈ its) as Hin by (rewrite Hitems; set_solver).
  destruct (decide (k ∈ c1)); [by simplify_eq|].
  intros dp' Hdp'. destruct (IH _ _ _ _ _ Hbody dp' Hdp') as [Hold|Hnew].
  - apply elem_of_app in Hold as [Hold|Hold]; [by apply Hd1|].
    apply list_elem_of_singleton in Hold as ->.
    right. exists k, sub. by left.
  - right. destruct Hnew as (k' & sub' & Hr). exists k', sub'.
    right. exists k, dp, sub. split; [done|]. by apply reach_items_of.
Qed.

Lemma list_dps_sound its dps dp :
  list_dps h its = Ret dps → dp ∈ dps →
  ∃ k sub, reach_items h its (k, (dp, sub)).
Proof.
  unfold list_dps. intros Hrun Hdp.
  apply bind_Ret_inv in Hrun as ([c d] & Hrun & ?). simplify_eq.
  destruct (list_dps_helper_sound _ _ _ _ _ _ Hrun dp Hdp) as [Hnil|]; [|done].
  by apply elem_of_nil in Hnil.
Qed.

Lemma list_dps_sound_graph g dps dp :
  list_dps h (items h g) = Ret dps → dp ∈ dps → reach h g dp.
Proof.
  intros Hrun Hdp.
  destruct (list_dps_sound _ _ _ Hrun Hdp) as (k & sub & Hr).
  exists k, sub. by apply reach_items_of.
Qed.

Lemma mark_non_replicable_no_marker graph :
  (∀ dp, reach h graph dp → type_of h dp ≠ ShardingRoundRobinDispatcher) →
  mark_non_replicable h graph = Ret ∅.
Proof.
  intros Hno. unfold mark_non_replicable.
  destruct (list_dps_total h (items h graph)) as [dps Hdps].
  rewrite Hdps, bind_Ret.
  assert (∀ dp, dp ∈ dps → _is_round_robin_sharding h dp = false) as Hall.
  { intros dp Hdp. apply bool_decide_eq_false, Hno.
    by eapply list_dps_sound_graph. }
  clear Hdps. induction dps as [|dp dps IH]; simpl; [done|].
  rewrite decide_False by set_solver.
  rewrite Hall by set_solver. simpl. apply IH. intros dp' ?. apply Hall. set_solver.
Qed.

Lemma _get_lca_from_graph_unfold nrd n memo k dp g :
  _get_lca_from_graph h nrd (S n) memo k dp g
  = match memo !! k with
    | Some r => Ret (memo, r)
    | None =>
        if decide (k ∈ nrd) then Ret (<[k:=Some dp]> memo, Some dp)
        else
          '(m, ps) ← lca_parents (_get_lca_from_graph h nrd n) (items h g)
                       (<[k:=None]> memo, []);
          r ← getitem (lca_record k dp ps m) k;
          Ret (lca_record k dp ps m, r)
    end.
Proof. done. Qed.

Lemma _get_lca_from_graph_marked nrd n memo k dp g :
  memo !! k = None → k ∈ nrd →
  _get_lca_from_graph h nrd (S n) memo k dp g
  = Ret (<[k:=Some dp]> memo, Some dp).
Proof.
  intros Hmk Hk. by rewrite _get_lca_from_graph_unfold, Hmk, decide_True.
Qed.

Lemma _get_lca_from_graph_nothing_marked fuel memo k dp g memo' r :
  (∀ q v, memo !! q = Some v → v = None) →
  _get_lca_from_graph h ∅ fuel memo k dp g = Ret (memo', r) →
  r = None ∧ ∀ q v, memo' !! q = Some v → v = None.
Proof.
  revert memo k dp g memo' r.
  induction fuel as [|n IH]; intros memo k dp g memo' r Hnone Hrun; [done|].
  simpl in Hrun. destruct (memo !! k) as [r0|] eqn:Hmk.
  { simplify_eq. split; [by eapply Hnone|done]. }
  rewrite decide_False in Hrun by set_solver.
  apply bind_Ret_inv in Hrun as ([m ps] & Hloop & Hrun).
  apply bind_Ret_inv in Hrun as (r1 & Hget & Hrun). simplify_eq.
  unfold lca_parents in Hloop.
  apply (for_each_inv
           (λ _ (st : gmap nat (option DataPipe) * list DataPipe),
              (∀ q v, st.1 !! q = Some v → v = None) ∧ st.2 = [])) in Hloop.
  - simpl in Hloop. destruct Hloop as [Hm ->]. simpl in *.
    apply getitem_Ret in Hget.
    split; [by eapply Hm|done].
  - simpl. split; [|done]. intros q v [[_ <-]|[_ Hq]]%lookup_insert_Some; eauto.
  - intros pre [k' [dp' sub]] post [m1 ps1] [m2 ps2] _ [Hm1 Hps1] Hbody.
    simpl in *. subst.
    apply bind_Ret_inv in Hbody as ([m3 r3] & Hcall & Hbody).
    apply IH in Hcall as [-> Hm3]; [|done]. by simplify_eq.
Qed.
End cut_point.

(** C6. On a graph none of whose nodes is a [ShardingRoundRobinDispatcher],
    [find_lca_non_replicable_dp] returns [None]. *)
Theorem no_marker_no_cut_point (h : Snapshot) (graph : Ref) :
  length (items h graph) = 1 →
  (∀ dp, reach h graph dp → type_of h dp ≠ ShardingRoundRobinDispatcher) →
  find_lca_non_replicable_dp h graph = Ret None.
Proof.
  intros Hlen Hno.
  destruct (find_lca_non_replicable_dp_total h graph Hlen) as [r Hr].
  rewrite Hr. f_equal.
  unfold find_lca_non_replicable_dp in Hr.
  destruct (items h graph) as [|[k [dp g]] [|??]]; try done.
  rewrite mark_non_replicable_no_marker, bind_Ret in Hr by done.
  apply bind_Ret_inv in Hr as ([m r'] & Hcall & ?). simplify_eq.
  by apply _get_lca_from_graph_nothing_marked in Hcall as [-> _].
Qed.

Lemma no_marker_no_cut_point_witness :
  find_lca_non_replicable_dp plain_chain 0 = Ret None.
Proof.
  apply no_marker_no_cut_point; [reflexivity|].
  intros dp _. simpl. discriminate.
Defined.

(** ** Two chains that meet at the root *)

(** C4. When the root C has exactly the two predecessors A and B, and the
    marking step has put both A and B in the non-replicable set,
    [find_lca_non_replicable_dp] returns C, which is neither A nor B. *)
Theorem merge_point_is_cut_point (h : Snapshot) (graph : Ref)
    (C A B : DataPipe) (gC gA gB : Ref) (nrd : gset nat) :
  items h graph = [(id_of C, (C, gC))] →
  items h gC = [(id_of A, (A, gA)); (id_of B, (B, gB))] →
  A ≠ B → A ≠ C → B ≠ C →
  mark_non_replicable h graph = Ret nrd →
  id_of A ∈ nrd → id_of B ∈ nrd →
  find_lca_non_replicable_dp h graph = Ret (Some C)
  ∧ Some C ≠ Some A ∧ Some C ≠ Some B.
Proof.
  unfold id_of. intros Hroot HC HAB HAC HBC Hmark HA HB.
  split; [|split; congruence].
  unfold find_lca_non_replicable_dp. rewrite Hroot, Hmark, bind_Ret.
  unfold fuel_of.
  destruct (decide (C ∈ nrd)) as [HC'|HC'].
  { by rewrite _get_lca_from_graph_marked by (done || apply lookup_empty). }
  rewrite _get_lca_from_graph_unfold, lookup_empty, decide_False by done.
  unfold lca_parents. rewrite HC. cbn [for_each].
  rewrite _get_lca_from_graph_marked;
    [|by rewrite lookup_insert_ne, lookup_empty|done].
  rewrite !bind_Ret.
  rewrite _get_lca_from_graph_marked;
    [|by rewrite !lookup_insert_ne, lookup_empty|done].
  rewrite !bind_Ret. unfold lca_record. cbn [app length forallb].
  rewrite bool_decide_eq_false_2 by done.
  rewrite (bool_decide_eq_false_2 (B = A)) by done.
  rewrite andb_false_r. cbn [orb].
  unfold getitem. by rewrite lookup_insert_eq.
Qed.

Lemma merge_point_is_cut_point_witness :
  find_lca_non_replicable_dp two_chains 0 = Ret (Some 0)
  ∧ Some 0 ≠ Some 1 ∧ Some 0 ≠ Some 2.
Proof.
  apply (merge_point_is_cut_point two_chains 0 0 1 2 1 2 3 {[1; 2]});
    [reflexivity | reflexivity | lia | lia | lia
    | vm_compute; reflexivity | set_solver | set_solver].
Defined.

(** ** Replicable branches *)

Section branches.
Context (h : Snapshot).

Lemma _is_replicable_graph_unfold n memo dps k dp g :
  _is_replicable_graph h (S n) (memo, dps) k dp g
  = match memo !! k with
    | Some b => Ret ((memo, dps), b)
    | None =>
        if decide (type_of h dp = _DummyIterDataPipe) then
          Ret ((<[k:=false]> memo, dps), false)
        else
          st1 ← visit_children (_is_replicable_graph h n) k (items h g)
                  (<[k:=true]> memo, dps);
          b ← getitem st1.1 k;
          st2 ← (if negb b
                 then append_replicable_children (items h g) st1
                 else Ret st1);
          b' ← getitem st2.1 k;
          Ret (st2, b')
    end.
Proof. done. Qed.

(** A placeholder is recorded as not replicable, and nothing is listed. *)
Lemma _is_replicable_graph_dummy fuel memo dps k dp g st b :
  type_of h dp = _DummyIterDataPipe → memo !! k = None →
  _is_replicable_graph h fuel (memo, dps) k dp g = Ret (st, b) →
  st = (<[k:=false]> memo, dps) ∧ b = false.
Proof.
  intros Hty Hmk Hrun. destruct fuel as [|n]; [done|].
  rewrite _is_replicable_graph_unfold, Hmk, decide_True in Hrun by done.
  by simplify_eq.
Qed.

(** A node without a placeholder at or below it, none of whose nodes has been
    recorded as not replicable, is found replicable; nothing is listed and no
    node is recorded as not replicable on the way. *)
Lemma _is_replicable_graph_clean fuel memo dps k dp g memo' dps' b :
  type_of h dp ≠ _DummyIterDataPipe → memo !! k ≠ Some false →
  (∀ k' dp' sub', reach_item h g (k', (dp', sub')) →
     type_of h dp' ≠ _DummyIterDataPipe ∧ memo !! k' ≠ Some false) →
  _is_replicable_graph h fuel (memo, dps) k dp g = Ret ((memo', dps'), b) →
  b = true ∧ dps' = dps ∧ ∀ q, memo' !! q = Some false → memo !! q = Some false.
Proof.
  revert memo dps k dp g memo' dps' b.
  induction fuel as [|n IH]; intros memo dps k dp g memo' dps' b Hty Hk Hbelow Hrun;
    [done|].
  rewrite _is_replicable_graph_unfold in Hrun.
  destruct (memo !! k) as [b0|] eqn:Hmk.
  { simplify_eq. split_and!; [|done..]. by destruct b. }
  rewrite decide_False in Hrun by done.
  apply bind_Ret_inv in Hrun as ([m1 d1] & Hloop & Hrun).
  apply bind_Ret_inv in Hrun as (b1 & Hget1 & Hrun).
  assert (d1 = dps ∧ ∀ q, m1 !! q = Some false → memo !! q = Some false)
    as [-> Hm1].
  { unfold visit_children in Hloop.
    apply (for_each_inv
             (λ _ (st : branch_state),
                st.2 = dps
                ∧ ∀ q, st.1 !! q = Some false → memo !! q = Some false)
             _ _ _ _ Hloop).
    { simpl. split; [done|].
      intros q [[_ ?]|[_ Hq]]%lookup_insert_Some; done. }
    intros pre [k' [dp' sub]] post [m3 d3] [m4 d4] Hitems [Hd3 Hm3] Hbody.
    simpl in *. subst d3.
    assert ((k', (dp', sub)) ∈ items h g) as Hin
      by (rewrite Hitems; set_solver).
    apply bind_Ret_inv in Hbody as ([[m5 d5] b5] & Hcall & Hbody).
    apply IH in Hcall as (-> & -> & Hm5).
    - simpl in Hbody. simplify_eq. split; [done|]. intros q Hq. eauto.
    - apply (Hbelow k' dp' sub). by apply reach_here.
    - intros Hf. apply Hm3 in Hf.
      by apply (Hbelow k' dp' sub); [apply reach_here|].
    - intros k2 dp2 sub2 Hr.
      assert (reach_item h g (k2, (dp2, sub2))) as Hr'
        by (by eapply reach_below).
      apply Hbelow in Hr' as [? Hnf]. split; [done|].
      intros Hf. by apply Hm3 in Hf. }
  simpl in *. apply getitem_Ret in Hget1.
  destruct b1; [|apply Hm1 in Hget1; congruence].
  simpl in Hrun.
  apply bind_Ret_inv in Hrun as (b2 & Hget2 & Hrun). simplify_eq.
  apply getitem_Ret in Hget2. by simplify_eq.
Qed.

(** The keys a call enters are keys of the node or of items below it. *)
Lemma _is_replicable_graph_dom fuel memo dps k dp g memo' dps' b :
  _is_replicable_graph h fuel (memo, dps) k dp g = Ret ((memo', dps'), b) →
  ∀ q, q ∈ dom memo' → q ∈ dom memo ∨ q = k ∨ ∃ v, reach_item h g (q, v).
Proof.
  revert memo dps k dp g memo' dps' b.
  induction fuel as [|n IH]; intros memo dps k dp g memo' dps' b Hrun; [done|].
  rewrite _is_replicable_graph_unfold in Hrun.
  destruct (memo !! k) as [b0|] eqn:Hmk.
  { simplify_eq. auto. }
  destruct (decide (type_of h dp = _DummyIterDataPipe)).
  { simplify_eq. intros q. rewrite dom_insert_L. set_solver. }
  apply bind_Ret_inv in Hrun as ([m1 d1] & Hloop & Hrun).
  apply bind_Ret_inv in Hrun as (b1 & Hget1 & Hrun).
  apply bind_Ret_inv in Hrun as ([m2 d2] & Happ & Hrun).
  apply bind_Ret_inv in Hrun as (b2 & Hget2 & Hrun). simplify_eq. simpl in *.
  assert (memo' = m1) as ->.
  { destruct b1; simpl in Happ; [by simplify_eq|].
    by apply append_replicable_children_inv in Happ as [? _]. }
  unfold visit_children in Hloop.
  apply (for_each_inv
           (λ _ (st : branch_state),
              ∀ q, q ∈ dom st.1 →
                   q ∈ dom memo ∨ q = k ∨ ∃ v, reach_item h g (q, v))
           _ _ _ _ Hloop).
  { simpl. intros q. rewrite dom_insert_L. set_solver. }
  intros pre [k' [dp' sub]] post [m3 d3] [m4 d4] Hitems Hm3 Hbody. simpl in *.
  assert ((k', (dp', sub)) ∈ items h g) as Hin by (rewrite Hitems; set_solver).
  apply bind_Ret_inv in Hbody as ([[m5 d5] b5] & Hcall & Hbody).
  assert (∀ q, q ∈ dom m5 →
               q ∈ dom memo ∨ q = k ∨ ∃ v, reach_item h g (q, v)) as Hm5.
  { intros q Hq. destruct (IH _ _ _ _ _ _ _ _ Hcall q Hq) as [?|[->|[v Hv]]].
    - auto.
    - right. right. exists (dp', sub). by apply reach_here.
    - right. right. exists v. by eapply reach_below. }
  destruct b5; simpl in Hbody; simplify_eq; [done|].
  intros q. rewrite dom_insert_L. intros [->%elem_of_singleton|?]%elem_of_union;
    auto.
Qed.

(** A node whose only predecessor is a placeholder. *)
Lemma _is_replicable_graph_above_dummy fuel memo dps (X P : nat) gX gP st b :
  items h gX = [(P, (P, gP))] →
  type_of h P = _DummyIterDataPipe → type_of h X ≠ _DummyIterDataPipe →
  memo !! X = None → memo !! P = None →
  _is_replicable_graph h fuel (memo, dps) X X gX = Ret (st, b) →
  st = (<[X:=false]> (<[P:=false]> (<[X:=true]> memo)), dps) ∧ b = false.
Proof.
  intros HgX HP HX HmX HmP Hrun.
  assert (X ≠ P) as HXP by congruence.
  destruct fuel as [|n]; [done|].
  rewrite _is_replicable_graph_unfold, HmX, decide_False in Hrun by done.
  unfold visit_children in Hrun. rewrite HgX in Hrun. cbn [for_each] in Hrun.
  apply bind_Ret_inv in Hrun as (st1 & Hloop & Hrun).
  apply bind_Ret_inv in Hloop as (st0 & Hbody & Hloop).
  apply bind_Ret_inv in Hbody as ([[m5 d5] b5] & Hcall & Hbody).
  apply _is_replicable_graph_dummy in Hcall as [? ->];
    [|done|by rewrite lookup_insert_ne].
  simpl in Hbody. simplify_eq.
  rewrite (getitem_lookup _ X false) in Hrun by apply lookup_insert_eq.
  rewrite bind_Ret in Hrun.
  unfold append_replicable_children in Hrun. cbn [negb for_each] in Hrun.
  rewrite (getitem_lookup _ P false) in Hrun
    by (by rewrite lookup_insert_ne, lookup_insert_eq).
  rewrite !bind_Ret in Hrun. cbn [fst] in Hrun.
  rewrite (getitem_lookup _ X false) in Hrun by apply lookup_insert_eq.
  rewrite bind_Ret in Hrun. by simplify_eq.
Qed.
End branches.

(** ** A replicable branch next to a placeholder *)

Section reachability.
Context (h : Snapshot).

Lemma reach_item_in g it : reach_item h g it → ∃ g', it ∈ items h g'.
Proof. induction 1; eauto. Qed.

Lemma reach_item_trans g k dp sub it :
  reach_item h g (k, (dp, sub)) → reach_item h sub it → reach_item h g it.
Proof.
  intros Hr. remember (k, (dp, sub)) as it0 eqn:Hit0.
  induction Hr as [g it0 Hin|g k1 dp1 sub1 it0 Hin Hr IH]; intros Hit; subst.
  - by eapply reach_below.
  - eapply reach_below; [done|]. by apply IH.
Qed.

Lemma well_formed_reach_item g k dp sub :
  well_formed h → reach_item h g (k, (dp, sub)) →
  k = dp ∧ sub = pred_graph h dp.
Proof. intros Hwf [g' Hin]%reach_item_in. by apply Hwf in Hin. Qed.

(** With the data model of section 3, what is below a node of a graph is in
    the graph. *)
Lemma reach_trans g dp dp' :
  well_formed h → reach h g dp → reach h (pred_graph h dp) dp' →
  reach h g dp'.
Proof.
  intros Hwf (k & sub & Hr) (k' & sub' & Hr').
  destruct (well_formed_reach_item _ _ _ _ Hwf Hr) as [_ ->].
  exists k', sub'. by eapply reach_item_trans.
Qed.
End reachability.

Section sibling_branch.
Context (h : Snapshot) (graph : Ref) (R X Y P : nat) (gR gX gY gP : Ref).
Hypothesis Hwf : well_formed h.
Hypothesis Hroot : items h graph = [(R, (R, gR))].
Hypothesis HgR : (X, (X, gX)) ∈ items h gR ∧ (Y, (Y, gY)) ∈ items h gR
                 ∧ length (items h gR) = 2.
Hypothesis HgX : items h gX = [(P, (P, gP))].
Hypothesis HP : type_of h P = _DummyIterDataPipe.
Hypothesis HR : type_of h R ≠ _DummyIterDataPipe.
Hypothesis HX : type_of h X ≠ _DummyIterDataPipe.
Hypothesis HY : type_of h Y ≠ _DummyIterDataPipe.
Hypothesis HYclean : ∀ dp, reach h gY dp → type_of h dp ≠ _DummyIterDataPipe.

Local Lemma sub_graphs :
  gR = pred_graph h R ∧ gX = pred_graph h X ∧ gY = pred_graph h Y.
Proof.
  destruct HgR as (HXin & HYin & _). split_and!.
  - apply (Hwf graph R R gR). rewrite Hroot. set_solver.
  - by apply (Hwf gR X X gX).
  - by apply (Hwf gR Y Y gY).
Qed.

Local Lemma not_below_Y q v :
  reach_item h gY (q, v) → q ≠ X ∧ q ≠ R ∧ q ≠ P.
Proof.
  destruct sub_graphs as (HeR & HeX & HeY). destruct HgR as (HXin & HYin & _).
  assert (¬ reach h gY P) as HnP by (intros ?%HYclean; done).
  assert (¬ reach h gY X) as HnX.
  { intros HrX. apply HnP. apply (reach_trans h gY X P Hwf HrX).
    rewrite <- HeX. exists P, gP. apply reach_here. rewrite HgX. set_solver. }
  assert (¬ reach h gY R) as HnR.
  { intros HrR. apply HnX. apply (reach_trans h gY R X Hwf HrR).
    rewrite <- HeR. exists X, gX. by apply reach_here. }
  destruct v as [dp sub]. intros Hr.
  destruct (well_formed_reach_item h _ _ _ _ Hwf Hr) as [-> _].
  assert (reach h gY dp) by (by exists dp, sub).
  split_and!; intros ->; done.
Qed.

Local Lemma distinct_nodes : Y ≠ X ∧ Y ≠ R ∧ Y ≠ P ∧ X ≠ R ∧ X ≠ P ∧ R ≠ P.
Proof.
  destruct sub_graphs as (HeR & HeX & HeY).
  destruct HgR as (HXin & HYin & Hlen).
  split_and!; try congruence.
  - intros Heq. assert (gY = gX) as HgYX by congruence.
    destruct (not_below_Y P (P, gP)) as (_ & _ & ?); [|done].
    apply reach_here. rewrite HgYX, HgX. set_solver.
  - intros Heq. assert (gY = gR) as HgYR by congruence.
    destruct (not_below_Y X (X, gX)) as (? & _ & _); [|done].
    apply reach_here. by rewrite HgYR.
  - intros Heq. assert (gX = gR) as HgXR by congruence.
    rewrite <- HgXR, HgX in Hlen. done.
Qed.
Local Lemma below_Y_clean (memo : gmap nat bool) k' dp' sub' :
  (∀ q, q ≠ X → q ≠ R → q ≠ P → memo !! q ≠ Some false) →
  reach_item h gY (k', (dp', sub')) →
  type_of h dp' ≠ _DummyIterDataPipe ∧ memo !! k' ≠ Some false.
Proof.
  intros Hmemo Hr. split.
  - apply HYclean. by exists k', sub'.
  - apply not_below_Y in Hr as (? & ? & ?). by apply Hmemo.
Qed.

Local Lemma branches_XY dps :
  items h gR = [(X, (X, gX)); (Y, (Y, gY))] →
  find_replicable_branches h graph = Ret dps → dps = [Y].
Proof.
  intros Hord Hrun.
  destruct distinct_nodes as (HYX & HYR & HYP & HXR & HXP & HRP).
  unfold find_replicable_branches in Hrun. rewrite Hroot in Hrun.
  apply bind_Ret_inv in Hrun as ([[m d] b] & Hcall & Hrun).
  destruct (fuel_of h) as [|n]; [done|].
  rewrite _is_replicable_graph_unfold, lookup_empty, decide_False in Hcall
    by done.
  unfold visit_children in Hcall. rewrite Hord in Hcall.
  cbn [for_each] in Hcall.
  apply bind_Ret_inv in Hcall as ([m1 d1] & Hloop & Hcall).
  apply bind_Ret_inv in Hloop as ([m2 d2] & HbodyX & Hloop).
  apply bind_Ret_inv in HbodyX as ([[m3 d3] b3] & HcallX & HbodyX).
  apply _is_replicable_graph_above_dummy with (P:=P) (gP:=gP) in HcallX
    as [? ->]; [|done..| |]; try (by rewrite lookup_insert_ne, lookup_empty).
  simpl in HbodyX. simplify_eq.
  apply bind_Ret_inv in Hloop as ([m4 d4] & HbodyY & Hloop).
  simpl in Hloop. simplify_eq.
  apply bind_Ret_inv in HbodyY as ([[m5 d5] b5] & HcallY & HbodyY).
  pose proof HcallY as Hmono.
  apply _is_replicable_graph_mono in Hmono as (Hsub & HmY & _).
  assert (∀ q, q ≠ X → q ≠ R → q ≠ P →
            <[R:=false]> (<[X:=false]> (<[P:=false]> (<[X:=true]>
              (<[R:=true]> (∅ : gmap nat bool))))) !! q ≠ Some false) as Hq.
  { intros q ???. by rewrite !lookup_insert_ne, lookup_empty. }
  apply _is_replicable_graph_clean in HcallY as (-> & -> & _);
    [|done|by apply Hq|intros ???; by apply below_Y_clean].
  simpl in HbodyY. simplify_eq.
  assert (m1 !! R = Some false) as HmR.
  { eapply lookup_weaken; [|exact Hsub]. apply lookup_insert_eq. }
  assert (m1 !! X = Some false) as HmX.
  { eapply lookup_weaken; [|exact Hsub].
    by rewrite lookup_insert_ne, lookup_insert_eq. }
  cbn [fst] in Hcall.
  rewrite (getitem_lookup _ R false), bind_Ret in Hcall by done.
  cbn [negb] in Hcall. unfold append_replicable_children in Hcall.
  cbn [for_each] in Hcall.
  rewrite (getitem_lookup _ X false), !bind_Ret in Hcall by done.
  rewrite (getitem_lookup _ Y true), !bind_Ret in Hcall by done.
  cbn [fst] in Hcall.
  rewrite (getitem_lookup _ R false), !bind_Ret in Hcall by done.
  by simplify_eq.
Qed.

Local Lemma branches_YX dps :
  items h gR = [(Y, (Y, gY)); (X, (X, gX))] →
  find_replicable_branches h graph = Ret dps → dps = [Y].
Proof.
  intros Hord Hrun.
  destruct distinct_nodes as (HYX & HYR & HYP & HXR & HXP & HRP).
  unfold find_replicable_branches in Hrun. rewrite Hroot in Hrun.
  apply bind_Ret_inv in Hrun as ([[m d] b] & Hcall & Hrun).
  destruct (fuel_of h) as [|n]; [done|].
  rewrite _is_replicable_graph_unfold, lookup_empty, decide_False in Hcall
    by done.
  unfold visit_children in Hcall. rewrite Hord in Hcall.
  cbn [for_each] in Hcall.
  apply bind_Ret_inv in Hcall as ([m1 d1] & Hloop & Hcall).
  apply bind_Ret_inv in Hloop as ([m2 d2] & HbodyY & Hloop).
  apply bind_Ret_inv in HbodyY as ([[m3 d3] b3] & HcallY & HbodyY).
  pose proof HcallY as Hmono.
  apply _is_replicable_graph_mono in Hmono as (Hsub & HmY & _).
  pose proof (_is_replicable_graph_dom _ _ _ _ _ _ _ _ _ _ HcallY) as Hdom.
  apply _is_replicable_graph_clean in HcallY as (-> & -> & _);
    [|done| |intros ???; apply below_Y_clean]; try done.
  2: { by rewrite lookup_insert_ne, lookup_empty. }
  2: { intros q ???. by rewrite lookup_insert_ne, lookup_empty. }
  simpl in HbodyY. simplify_eq.
  assert (∀ q, q ≠ R → q ≠ Y → (∀ v, ¬ reach_item h gY (q, v)) →
               m2 !! q = None) as Hfresh.
  { intros q ?? Hnr. apply not_elem_of_dom. intros Hin.
    apply Hdom in Hin as [Hin|[?|[v Hv]]]; [|done|by eapply Hnr].
    rewrite dom_insert_L, dom_empty_L in Hin. set_solver. }
  assert (m2 !! X = None) as HmX.
  { apply Hfresh; [done..|]. intros v Hv. by apply not_below_Y in Hv as (?&?&?). }
  assert (m2 !! P = None) as HmP.
  { apply Hfresh; [done..|]. intros v Hv. by apply not_below_Y in Hv as (?&?&?). }
  apply bind_Ret_inv in Hloop as ([m4 d4] & HbodyX & Hloop).
  simpl in Hloop. simplify_eq.
  apply bind_Ret_inv in HbodyX as ([[m5 d5] b5] & HcallX & HbodyX).
  apply _is_replicable_graph_above_dummy with (P:=P) (gP:=gP) in HcallX
    as [? ->]; [|done..].
  simpl in HbodyX. simplify_eq.
  cbn [fst] in Hcall.
  rewrite (getitem_lookup _ R false), bind_Ret in Hcall
    by apply lookup_insert_eq.
  cbn [negb] in Hcall. unfold append_replicable_children in Hcall.
  cbn [for_each] in Hcall.
  rewrite (getitem_lookup _ Y true), !bind_Ret in Hcall
    by (by rewrite !lookup_insert_ne).
  rewrite (getitem_lookup _ X false), !bind_Ret in Hcall
    by (by rewrite lookup_insert_ne, lookup_insert_eq).
  cbn [fst] in Hcall.
  rewrite (getitem_lookup _ R false), !bind_Ret in Hcall
    by apply lookup_insert_eq.
  by simplify_eq.
Qed.
End sibling_branch.

Lemma snapshot_of_well_formed ty (preds : list (list nat)) :
  well_formed (snapshot_of ty preds).
Proof.
  intros g k dp sub Hin. unfold items in Hin. simpl in Hin.
  destruct g as [|g]; simpl in Hin.
  - apply list_elem_of_singleton in Hin. by simplify_eq.
  - rewrite list_lookup_fmap in Hin.
    destruct (preds !! g) as [l|]; simpl in Hin; [|by apply elem_of_nil in Hin].
    apply list_elem_of_fmap in Hin as (d & ? & _). by simplify_eq.
Qed.

(** A snapshot built by [snapshot_of] in which every DataPipe reads from
    DataPipes with a larger name only has no reference cycle. *)
Lemma snapshot_of_increasing ty (preds : list (list nat)) g k dp sub :
  (∀ n l d, preds !! n = Some l → d ∈ l → n < d) →
  reach_item (snapshot_of ty preds) g (k, (dp, sub)) → g ≤ dp ∧ sub = S dp.
Proof.
  intros Hinc Hr. remember (k, (dp, sub)) as it eqn:Hit.
  assert (∀ g k dp sub, (k, (dp, sub)) ∈ items (snapshot_of ty preds) g →
            g ≤ dp ∧ sub = S dp) as Hitem.
  { clear -Hinc. intros g k dp sub Hin. unfold items in Hin. simpl in Hin.
    destruct g as [|g]; simpl in Hin.
    - apply list_elem_of_singleton in Hin. simplify_eq. lia.
    - rewrite list_lookup_fmap in Hin.
      destruct (preds !! g) as [l|] eqn:Hl; simpl in Hin;
        [|by apply elem_of_nil in Hin].
      apply list_elem_of_fmap in Hin as (d & ? & Hd). simplify_eq.
      split; [|done]. by apply (Hinc g l). }
  induction Hr as [g it Hin|g k1 dp1 sub1 it Hin Hr IH]; subst.
  - by eapply Hitem.
  - destruct (Hitem _ _ _ _ Hin) as [Hle ->].
    destruct (IH eq_refl) as [Hle' ->]. split; [lia|done].
Qed.

Lemma snapshot_of_no_cycle ty (preds : list (list nat)) g :
  (∀ n l d, preds !! n = Some l → d ∈ l → n < d) →
  ¬ has_cycle (snapshot_of ty preds) g.
Proof.
  intros Hinc (k & dp & sub & [dp' sub'] & Hr & Hself).
  destruct (well_formed_reach_item _ _ _ _ _
              (snapshot_of_well_formed ty preds) Hr) as [-> _].
  destruct (well_formed_reach_item _ _ _ _ _
              (snapshot_of_well_formed ty preds) Hself) as [<- _].
  apply (snapshot_of_increasing ty preds) in Hr as [_ ->]; [|done].
  apply (snapshot_of_increasing ty preds) in Hself as [Hle _]; [|done]. lia.
Qed.

(** C7. In a graph where the root reads from X and from Y (in either order),
    X reads from a placeholder only, and neither Y nor anything below Y is a
    placeholder, [find_replicable_branches] returns exactly [[Y]]: neither the
    root nor the placeholder is listed. *)
Theorem sibling_branch_is_listed (h : Snapshot) (graph : Ref)
    (R X Y P : DataPipe) (gR gX gY gP : Ref) :
  well_formed h →
  items h graph = [(id_of R, (R, gR))] →
  items h gR = [(id_of X, (X, gX)); (id_of Y, (Y, gY))]
  ∨ items h gR = [(id_of Y, (Y, gY)); (id_of X, (X, gX))] →
  items h gX = [(id_of P, (P, gP))] →
  type_of h P = _DummyIterDataPipe →
  type_of h R ≠ _DummyIterDataPipe →
  type_of h X ≠ _DummyIterDataPipe →
  type_of h Y ≠ _DummyIterDataPipe →
  (∀ dp, reach h gY dp → type_of h dp ≠ _DummyIterDataPipe) →
  find_replicable_branches h graph = Ret [Y] ∧ (R ∉ [Y]) ∧ (P ∉ [Y]).
Proof.
  unfold id_of. intros Hwf Hroot HgR HgX HP HR HX HY HYclean.
  assert ((X, (X, gX)) ∈ items h gR ∧ (Y, (Y, gY)) ∈ items h gR
          ∧ length (items h gR) = 2) as HgR'.
  { destruct HgR as [->| ->]; split_and!; set_solver. }
  destruct (distinct_nodes h graph R X Y P gR gX gY gP)
    as (HYX & HYR & HYP & HXR & HXP & HRP); try done.
  split; [|set_solver].
  destruct (find_replicable_branches_total h graph) as [dps Hrun].
  { by rewrite Hroot. }
  rewrite Hrun. f_equal.
  destruct HgR as [Hord|Hord].
  - by eapply (branches_XY h graph R X Y P gR gX gY gP).
  - by eapply (branches_YX h graph R X Y P gR gX gY gP).
Qed.

Lemma sibling_branch_is_listed_witness :
  find_replicable_branches sibling 0 = Ret [2] ∧ (0 ∉ [2]) ∧ (3 ∉ [2]).
Proof.
  apply (sibling_branch_is_listed sibling 0 0 1 2 3 1 2 3 4);
    [apply snapshot_of_well_formed | reflexivity | left; reflexivity
    | reflexivity | reflexivity | discriminate | discriminate | discriminate |].
  intros dp (k & sub & Hr).
  assert (items sibling 3 = [(4, (4, 5))]) as H3 by reflexivity.
  assert (items sibling 5 = []) as H5 by reflexivity.
  inversion Hr as [?? Hin|????? Hin Hr']; subst; rewrite H3 in Hin;
    apply list_elem_of_singleton in Hin; simplify_eq; [discriminate|].
  inversion Hr' as [?? Hin|????? Hin _]; subst; rewrite H5 in Hin;
    by apply elem_of_nil in Hin.
Defined.

(** ** The flattening and the marking step *)

Section marking.
Context (h : Snapshot).
Hypothesis Hwf : well_formed h.

(** What the traversal behind [list_dps] leaves: the cache has grown, it has
    the key of every item of the dictionary, the predecessors of every key it
    has entered are in it, and the list and the cache have the same
    elements. *)
Lemma list_dps_helper_closed fuel its cache dps cache' dps' :
  (∀ k dp sub, (k, (dp, sub)) ∈ its → k = id_of dp ∧ sub = pred_graph h dp) →
  list_dps_helper h fuel its (cache, dps) = Ret (cache', dps') →
  (∀ q, q ∈ dps ↔ q ∈ cache) →
  cache ⊆ cache'
  ∧ (∀ k v, (k, v) ∈ its → k ∈ cache')
  ∧ (∀ k, k ∈ cache' → k ∉ cache →
       ∀ k' v, (k', v) ∈ items h (pred_graph h k) → k' ∈ cache')
  ∧ (∀ q, q ∈ dps' ↔ q ∈ cache').
Proof.
  revert its cache dps cache' dps'.
  induction fuel as [|n IH]; intros its cache dps cache' dps' Hits0 Hrun Hsame;
    [done|].
  simpl in Hrun.
  cut (cache ⊆ cache'
       ∧ (∀ it, it ∈ its → it.1 ∈ cache')
       ∧ (∀ k, k ∈ cache' → k ∉ cache →
            ∀ k' v, (k', v) ∈ items h (pred_graph h k) → k' ∈ cache')
       ∧ (∀ q, q ∈ dps' ↔ q ∈ cache')).
  { intros (?&Hits&?&?). split_and!; try done. intros k v. apply (Hits (k, v)). }
  apply (for_each_inv
           (λ pre (st : gset nat * list DataPipe),
              cache ⊆ st.1
              ∧ (∀ it, it ∈ pre → it.1 ∈ st.1)
              ∧ (∀ k, k ∈ st.1 → k ∉ cache →
                   ∀ k' v, (k', v) ∈ items h (pred_graph h k) → k' ∈ st.1)
              ∧ (∀ q, q ∈ st.2 ↔ q ∈ st.1)) _ _ _ _ Hrun).
  { simpl. split_and!; [done| |done|done]. intros it Hit.
    by apply elem_of_nil in Hit. }
  intros pre [k [dp sub]] post [c1 d1] [c2 d2] Hitems (Hc1 & Hpre & Hcl & Hd1)
    Hbody. simpl in *.
  assert ((k, (dp, sub)) ∈ its) as Hin by (rewrite Hitems; set_solver).
  destruct (Hits0 _ _ _ Hin) as [Hk Hsub]. unfold id_of in Hk. subst k.
  destruct (decide (dp ∈ c1)) as [Hdp|Hdp].
  { rewrite decide_True in Hbody by done. simplify_eq. split_and!; try done.
    intros it [Hit|Hit]%elem_of_app; [by apply Hpre|].
    apply list_elem_of_singleton in Hit. by subst. }
  rewrite decide_False in Hbody by done.
  apply IH in Hbody as (Hc2 & Hits2 & Hcl2 & Hd2).
  2: { intros k' dp' sub' Hin'. by apply (Hwf sub). }
  2: { intros q. rewrite elem_of_app, list_elem_of_singleton, Hd1. set_solver. }
  split_and!.
  - set_solver.
  - intros it [Hit|Hit]%elem_of_app; [apply Hc2; set_solver|].
    apply list_elem_of_singleton in Hit. subst. set_solver.
  - intros k Hk2 Hk0 k' v Hch.
    destruct (decide (k ∈ c1)) as [Hk1|Hk1].
    { apply Hc2. apply elem_of_union_r. by eapply Hcl. }
    destruct (decide (k = dp)) as [->|Hne].
    { rewrite <- Hsub in Hch. by eapply Hits2. }
    eapply Hcl2; [done| |done]. set_solver.
  - done.
Qed.

(** [list_dps] lists the DataPipes found in the dictionary or below it, and
    nothing else. *)
Lemma list_dps_reach its dps dp :
  (∀ k dp sub, (k, (dp, sub)) ∈ its → k = id_of dp ∧ sub = pred_graph h dp) →
  list_dps h its = Ret dps →
  dp ∈ dps ↔ ∃ k sub, reach_items h its (k, (dp, sub)).
Proof.
  intros Hits0 Hrun. split; [by apply list_dps_sound|].
  unfold list_dps in Hrun.
  apply bind_Ret_inv in Hrun as ([c d] & Hrun & ?). simplify_eq.
  apply list_dps_helper_closed in Hrun as (_ & Hits & Hcl & Hsame);
    [|done|intros q; split; [by intros ?%elem_of_nil|set_solver]].
  assert (∀ g it, reach_item h g it →
            (∀ k' v', (k', v') ∈ items h g → k' ∈ c) → it.1 ∈ c) as Hbelow.
  { intros g it Hr. induction Hr as [g [k v] Hin|g k q sub it Hin Hr IH];
      intros Hg; [by eapply Hg|].
    apply IH. intros k' v' Hin'.
    destruct (Hwf _ _ _ _ Hin) as [Hk ->]. unfold id_of in Hk. subst k.
    eapply Hcl; [by eapply Hg|set_solver|done]. }
  intros (k & sub & [Hin|(k0 & q & sub0 & Hin & Hr)]); apply Hsame.
  - destruct (Hits0 _ _ _ Hin) as [Hk _]. unfold id_of in Hk. subst k.
    by eapply Hits.
  - assert (dp = k) as ->.
    { apply well_formed_reach_item in Hr as [Hk _]; [|done]. done. }
    apply (Hbelow _ _ Hr). intros k' v' Hin'.
    destruct (Hits0 _ _ _ Hin) as [Hk ->]. unfold id_of in Hk. subst k0.
    eapply Hcl; [by eapply Hits|set_solver|done].
Qed.

(** [list_dps] of a graph of the snapshot lists its nodes. *)
Lemma list_dps_reach_graph g dps dp :
  list_dps h (items h g) = Ret dps → dp ∈ dps ↔ reach h g dp.
Proof.
  intros Hrun. rewrite (list_dps_reach (items h g) dps dp); [|apply Hwf|done].
  split; intros (k & sub & Hr); exists k, sub; by apply reach_items_of.
Qed.

(** [list_dps] of [traverse_dps] of a DataPipe lists the DataPipe and its
    transitive predecessors. *)
Lemma list_dps_traverse M ps q :
  list_dps h (traverse_dps h M) = Ret ps → q ∈ ps ↔ at_or_below h M q.
Proof.
  intros Hrun. rewrite (list_dps_reach (traverse_dps h M) ps q); [| |done].
  - unfold at_or_below, traverse_dps, reach. split.
    + intros (k & sub & [Hin|(k0 & dp & sub0 & Hin & Hr)]).
      * apply list_elem_of_singleton in Hin. left. congruence.
      * apply list_elem_of_singleton in Hin. right. exists k, sub. congruence.
    + intros [->|(k & sub & Hr)].
      * exists (id_of M), (pred_graph h M). left. set_solver.
      * exists k, sub. right. exists (id_of M), M, (pred_graph h M).
        split; [set_solver|done].
  - intros k dp sub Hin. apply list_elem_of_singleton in Hin. by simplify_eq.
Qed.

Lemma at_or_below_trans a b c :
  at_or_below h a b → at_or_below h b c → at_or_below h a c.
Proof.
  unfold at_or_below. intros [->|Hab] [->|Hbc]; auto.
  right. by eapply reach_trans.
Qed.

Lemma foldl_add_ids (nrd : gset nat) (dps : list DataPipe) q :
  q ∈ foldl (λ s par_dp, {[id_of par_dp]} ∪ s) nrd dps ↔ q ∈ nrd ∨ q ∈ dps.
Proof.
  revert nrd. induction dps as [|dp dps IH]; intros nrd; simpl.
  - set_solver.
  - rewrite IH. unfold id_of. set_solver.
Qed.

(** The non-replicable set is the set of the dispatchers of the graph and of
    the nodes below them. *)
Lemma mark_non_replicable_spec graph nrd q :
  mark_non_replicable h graph = Ret nrd →
  q ∈ nrd ↔
  ∃ M, reach h graph M ∧ type_of h M = ShardingRoundRobinDispatcher
       ∧ at_or_below h M q.
Proof.
  unfold mark_non_replicable. intros Hrun.
  apply bind_Ret_inv in Hrun as (dps & Hdps & Hrun).
  cut ((∀ q, q ∈ nrd → ∃ M, M ∈ dps
            ∧ type_of h M = ShardingRoundRobinDispatcher
            ∧ at_or_below h M q)
       ∧ (∀ M, M ∈ dps → type_of h M = ShardingRoundRobinDispatcher →
            ∀ q, at_or_below h M q → q ∈ nrd)).
  { intros [Hsound Hcompl]. split.
    - intros (M & HM & ? & ?)%Hsound. exists M. split; [|done].
      by apply (list_dps_reach_graph graph dps).
    - intros (M & HM & ? & ?). apply (Hcompl M); [|done..].
      by apply (list_dps_reach_graph graph dps). }
  apply (for_each_inv
           (λ pre (s : gset nat),
              (∀ q, q ∈ s → ∃ M, M ∈ pre
                 ∧ type_of h M = ShardingRoundRobinDispatcher
                 ∧ at_or_below h M q)
              ∧ (∀ M, M ∈ pre → type_of h M = ShardingRoundRobinDispatcher →
                   ∀ q, at_or_below h M q → q ∈ s))
           _ _ _ _ Hrun).
  { split; [set_solver|]. intros M HM. by apply elem_of_nil in HM. }
  clear q. intros pre dp post s1 s2 Hpre [Hsound Hcompl] Hbody.
  destruct (decide (id_of dp ∈ s1)) as [Hin|Hin].
  { simplify_eq. split.
    - intros q (M & ? & ? & ?)%Hsound. exists M. set_solver.
    - intros M [HM|HM]%elem_of_app; [by apply Hcompl|].
      apply list_elem_of_singleton in HM as ->. intros _ q Hq.
      apply Hsound in Hin as (M & HM & HMty & HMdp).
      apply (Hcompl M HM HMty). by eapply at_or_below_trans. }
  unfold _is_round_robin_sharding in Hbody. case_bool_decide as Hty.
  - apply bind_Ret_inv in Hbody as (ps & Hps & Hbody). simplify_eq. split.
    + intros q [Hq|Hq]%foldl_add_ids.
      * apply Hsound in Hq as (M & ? & ? & ?). exists M. set_solver.
      * exists dp. split_and!; [set_solver|done|].
        by apply (list_dps_traverse dp ps).
    + intros M [HM|HM]%elem_of_app Hty' q Hq; apply foldl_add_ids.
      * left. by eapply Hcompl.
      * apply list_elem_of_singleton in HM as ->. right.
        by apply (list_dps_traverse dp ps).
  - simplify_eq. split.
    + intros q (M & ? & ? & ?)%Hsound. exists M. set_solver.
    + intros M [HM|HM]%elem_of_app; [by apply Hcompl|].
      apply list_elem_of_singleton in HM as ->. done.
Qed.
End marking.

(** C3, as stated, fails: in [one_marker] the only dispatcher is 1, it reads
    from the source 2, and the marking step puts the identity of the
    dispatcher itself in the non-replicable set, next to that of its
    predecessor. *)
Lemma marking_adds_a_marker :
  mark_non_replicable one_marker 0 = Ret {[1; 2]}
  ∧ reach one_marker 0 1
  ∧ type_of one_marker 1 = ShardingRoundRobinDispatcher
  ∧ id_of 1 ∈ ({[1; 2]} : gset nat).
Proof.
  split_and!; [vm_compute; reflexivity | | reflexivity | set_solver].
  exists 1, 2. apply (reach_below _ 0 0 0 1); [set_solver|].
  apply reach_here. set_solver.
Qed.

(** C3, amended. On a graph that follows the data model, the marking step
    returns a set that holds the identity of every transitive predecessor of
    every dispatcher of the graph, and the identity of every dispatcher of
    the graph as well. *)
Theorem marking_adds_predecessors (h : Snapshot) (graph : Ref) :
  well_formed h →
  ∃ nrd, mark_non_replicable h graph = Ret nrd
    ∧ (∀ M q, reach h graph M →
         type_of h M = ShardingRoundRobinDispatcher →
         reach h (pred_graph h M) q → id_of q ∈ nrd)
    ∧ (∀ M, reach h graph M →
         type_of h M = ShardingRoundRobinDispatcher →
         id_of M ∈ nrd).
Proof.
  intros Hwf. destruct (mark_non_replicable_total h graph) as [nrd Hrun].
  exists nrd. split_and!; [done| |].
  - intros M q HM Hty Hq.
    apply (mark_non_replicable_spec h Hwf graph nrd); [done|].
    exists M. split_and!; [done..|]. by right.
  - intros M HM Hty.
    apply (mark_non_replicable_spec h Hwf graph nrd); [done|].
    exists M. split_and!; [done..|]. by left.
Qed.

Lemma marking_adds_predecessors_witness :
  ∃ nrd, mark_non_replicable nested_markers 0 = Ret nrd
    ∧ (∀ M q, reach nested_markers 0 M →
         type_of nested_markers M = ShardingRoundRobinDispatcher →
         reach nested_markers (pred_graph nested_markers M) q →
         id_of q ∈ nrd)
    ∧ (∀ M, reach nested_markers 0 M →
         type_of nested_markers M = ShardingRoundRobinDispatcher →
         id_of M ∈ nrd).
Proof.
  apply marking_adds_predecessors, snapshot_of_well_formed.
Defined.

(** ** A placeholder inside a reference cycle *)

(** C8, at the failing input. In [cyclic_placeholder], where A (1) reads from
    B and B reads from A and from the placeholder D (3),
    [find_replicable_branches] lists A although D is below A. The finite
    nesting [cycle_cut] gives the same list. *)
Theorem cycle_lists_non_replicable_node :
  well_formed cyclic_placeholder
  ∧ find_replicable_branches cyclic_placeholder 0 = Ret [1]
  ∧ reach cyclic_placeholder (pred_graph cyclic_placeholder 1) 3
  ∧ type_of cyclic_placeholder 3 = _DummyIterDataPipe
  ∧ find_replicable_branches cycle_cut 0 = Ret [1]
  ∧ reach cycle_cut 2 3.
Proof.
  split_and!; try reflexivity.
  - apply snapshot_of_well_formed.
  - exists 3, 4. apply (reach_below _ 2 2 2 3); [set_solver|].
    apply reach_here. set_solver.
  - exists 3, 4. apply (reach_below _ 2 2 2 3); [set_solver|].
    apply reach_here. set_solver.
Qed.

(** ** Pipelines without shared nodes *)

Section trees.
Context (h : Snapshot).

Lemma tree_ind_preds (P : tree → Prop) :
  (∀ dp ps, Forall P ps → P (Node dp ps)) → ∀ t, P t.
Proof.
  intros Hnode. fix IH 1. intros [dp ps]. apply Hnode.
  induction ps as [|p ps IHps]; constructor; [apply IH | apply IHps].
Qed.

Lemma represents_Node dp ps it :
  represents h (Node dp ps) it
  ↔ it.1 = dp ∧ it.2.1 = dp ∧ Forall2 (represents h) ps (items h it.2.2).
Proof.
  simpl. unfold id_of. generalize (items h it.2.2). intros its.
  cut ((fix all2 (ps : list tree) (its : list item) {struct ps} : Prop :=
          match ps, its with
          | [], [] => True
          | p :: ps', it' :: its' => represents h p it' ∧ all2 ps' its'
          | _, _ => False
          end) ps its ↔ Forall2 (represents h) ps its); [tauto|].
  revert its. induction ps as [|p ps IH]; intros [|it' its]; split;
    try done; try (by inversion 1).
  - intros [? ?%IH]. by constructor.
  - inversion 1; subst. split; [done|]. by apply IH.
Qed.
Lemma represents_root t it :
  represents h t it → it.1 = root t ∧ it.2.1 = root t.
Proof. destruct t as [dp ps]. intros (? & ? & _)%represents_Node. done. Qed.

Lemma root_in_nodes t : root t ∈ nodes t.
Proof. destruct t; simpl. set_solver. Qed.

Lemma append_children_trees ps its (m : gmap nat bool) d st :
  Forall2 (represents h) ps its →
  (∀ c, c ∈ ps → m !! root c = Some (replicable h c)) →
  append_replicable_children its (m, d) = Ret st →
  st = (m, d ++ (root <$> List.filter (replicable h) ps)).
Proof.
  intros Hrep. revert d.
  induction Hrep as [|c [k [dp sub]] ps its Hc Hrep IH]; intros d Hm Hrun.
  - unfold append_replicable_children in Hrun. simpl in Hrun. simplify_eq.
    simpl. by rewrite app_nil_r.
  - apply represents_root in Hc as [Hk Hdp]. simpl in Hk, Hdp. subst k dp.
    unfold append_replicable_children in Hrun. cbn [for_each] in Hrun.
    rewrite (getitem_lookup _ _ (replicable h c)), bind_Ret in Hrun
      by (apply Hm; set_solver).
    simpl. destruct (replicable h c).
    + rewrite bind_Ret in Hrun. apply IH in Hrun; [|intros; apply Hm; set_solver].
      by rewrite Hrun, <- app_assoc.
    + rewrite bind_Ret in Hrun. apply IH in Hrun; [done|].
      intros; apply Hm; set_solver.
Qed.

Lemma visit_children_trees n (r : nat) ps its st0 st1 b0 :
  Forall (visit_spec h) ps → Forall2 (represents h) ps its →
  NoDup (flat_map nodes ps) → r ∉ flat_map nodes ps →
  (∀ q, q ∈ flat_map nodes ps → st0.1 !! q = None) →
  st0.1 !! r = Some b0 →
  visit_children (_is_replicable_graph h n) r its st0 = Ret st1 →
  st1.2 = st0.2 ++ flat_map (branches h) ps
  ∧ (∀ c, c ∈ ps → st1.1 !! root c = Some (replicable h c))
  ∧ (∀ q v, q ≠ r → st0.1 !! q = Some v → st1.1 !! q = Some v)
  ∧ st1.1 !! r = Some (b0 && forallb (replicable h) ps)
  ∧ (∀ q, q ∈ dom st1.1 → q ∈ dom st0.1 ∨ q ∈ flat_map nodes ps).
Proof.
  intros Hspec Hrep. revert st0 b0 Hspec.
  induction Hrep as [|c [k [dp sub]] ps its Hc Hrep IH];
    intros [m0 d0] b0 Hspec Hnd Hr Hfresh Hr0 Hrun; simpl in *.
  { unfold visit_children in Hrun. simpl in Hrun. simplify_eq.
    rewrite app_nil_r, andb_true_r. split_and!; try done.
    - intros c Hc. by apply elem_of_nil in Hc.
    - auto. }
  apply Forall_cons in Hspec as [Hspec_c Hspec].
  apply NoDup_app in Hnd as (Hnd_c & Hdisj & Hnd).
  apply not_elem_of_app in Hr as [Hr_c Hr].
  unfold visit_children in Hrun. cbn [for_each] in Hrun.
  apply bind_Ret_inv in Hrun as ([m1 d1] & Hbody & Hrun).
  apply bind_Ret_inv in Hbody as ([[m5 d5] b5] & Hcall & Hbody).
  pose proof Hcall as Hmono.
  apply _is_replicable_graph_mono in Hmono as (Hsub & Hm5k & _).
  apply (Hspec_c n m0 d0 (k, (dp, sub))) in Hcall as (-> & Hd5 & Hdom5);
    [|done|done|intros q Hq; apply Hfresh; set_solver].
  simpl in Hd5. subst d5.
  apply represents_root in Hc as [Hk _]. simpl in Hk. subst k.
  assert (root c ≠ r) as Hcr.
  { intros <-. apply Hr_c, root_in_nodes. }
  assert (m1 !! r = Some (b0 && replicable h c)
          ∧ d1 = d0 ++ branches h c
          ∧ (∀ q v, q ≠ r → m5 !! q = Some v → m1 !! q = Some v)
          ∧ dom m1 = dom m5) as (Hm1r & -> & Hm1 & Hdom1).
  { assert (m5 !! r = Some b0) as Hm5r by (by eapply lookup_weaken).
    destruct (replicable h c); simpl in Hbody; simplify_eq.
    - rewrite andb_true_r. done.
    - rewrite andb_false_r, lookup_insert_eq. split_and!; try done.
      + intros q v ??. by rewrite lookup_insert_ne.
      + rewrite dom_insert_L. apply elem_of_dom_2 in Hm5r. set_solver. }
  apply (IH (m1, d0 ++ branches h c) (b0 && replicable h c)) in Hrun
    as (Hd & Hroots & Hkeep & Hroot & Hdom); try done.
  2: { intros q Hq. simpl. apply not_elem_of_dom. rewrite Hdom1.
       intros [Hq0|Hqc]%Hdom5.
       - apply elem_of_dom in Hq0 as [v Hv].
         rewrite Hfresh in Hv by set_solver. done.
       - by apply (Hdisj q). }
  simpl in *. split_and!.
  - by rewrite Hd, <- app_assoc.
  - intros c' [->|Hc']%elem_of_cons; [|by apply Hroots].
    apply Hkeep; [done|]. by apply Hm1.
  - intros q v Hq Hv. apply Hkeep; [done|]. apply Hm1; [done|].
    by eapply lookup_weaken.
  - by rewrite Hroot, andb_assoc.
  - intros q [Hq|Hq]%Hdom; [|set_solver].
    rewrite Hdom1 in Hq. apply Hdom5 in Hq. set_solver.
Qed.

Lemma visit_tree t : visit_spec h t.
Proof.
  induction t as [dp ps IH] using tree_ind_preds.
  intros fuel memo dps [k [dp' sub]] st b Hrep Hnd Hfresh Hrun.
  apply represents_Node in Hrep as (Hk & Hdp & Hrep). simpl in *. subst k dp'.
  apply NoDup_cons in Hnd as [Hdp Hnd].
  destruct fuel as [|n]; [done|].
  rewrite _is_replicable_graph_unfold, Hfresh in Hrun by set_solver.
  destruct (decide (type_of h dp = _DummyIterDataPipe)) as [Hty|Hty].
  { simplify_eq. rewrite bool_decide_eq_false_2 by auto. simpl.
    split_and!; [done|by rewrite app_nil_r|].
    intros q. rewrite dom_insert_L. set_solver. }
  rewrite bool_decide_eq_true_2 by done. simpl.
  apply bind_Ret_inv in Hrun as ([m1 d1] & Hloop & Hrun).
  apply (visit_children_trees n dp ps _ _ _ true) in Hloop
    as (Hd1 & Hroots & _ & Hroot & Hdom); try done.
  2: { intros q Hq. simpl. rewrite lookup_insert_ne by set_solver.
       apply Hfresh. set_solver. }
  2: { simpl. apply lookup_insert_eq. }
  simpl in *. subst d1.
  rewrite (getitem_lookup _ _ _ Hroot), bind_Ret in Hrun.
  assert (∀ q, q ∈ dom m1 → q ∈ dom memo ∨ q ∈ dp :: flat_map nodes ps)
    as Hdom'.
  { intros q [Hq|Hq]%Hdom; [|set_solver].
    rewrite dom_insert_L in Hq. set_solver. }
  destruct (forallb (replicable h) ps) eqn:Hall; simpl in Hrun.
  - rewrite (getitem_lookup _ _ _ Hroot), bind_Ret in Hrun. simplify_eq.
    simpl. by rewrite app_nil_r.
  - apply bind_Ret_inv in Hrun as (st2 & Happ & Hrun).
    apply (append_children_trees ps) in Happ; [|done..]. subst st2.
    simpl in Hrun. rewrite (getitem_lookup _ _ _ Hroot), bind_Ret in Hrun.
    simplify_eq. simpl. by rewrite <- app_assoc.
Qed.

Lemma find_replicable_branches_tree graph t it :
  items h graph = [it] → represents h t it → NoDup (nodes t) →
  find_replicable_branches h graph = Ret (listed h t).
Proof.
  intros Hroot Hrep Hnd.
  destruct (find_replicable_branches_total h graph) as [dps Hrun];
    [by rewrite Hroot|].
  rewrite Hrun. f_equal.
  unfold find_replicable_branches in Hrun. rewrite Hroot in Hrun.
  destruct it as [k [dp sub]].
  apply bind_Ret_inv in Hrun as ([[m d] b] & Hcall & Hrun).
  apply (visit_tree t _ _ _ (k, (dp, sub))) in Hcall as (-> & Hd & _);
    [|done|done|intros; apply lookup_empty].
  simpl in Hd. subst d. apply represents_root in Hrep as [_ Hdp].
  simpl in Hdp. subst dp. unfold listed.
  destruct (replicable h t); simpl in Hrun; simplify_eq; [done|].
  by rewrite app_nil_r.
Qed.
(** *** Lists of subtrees *)

Lemma elem_of_flat_map {A B} (f : A → list B) (l : list A) (x : B) :
  x ∈ flat_map f l ↔ ∃ y, y ∈ l ∧ x ∈ f y.
Proof.
  rewrite list_elem_of_In, in_flat_map.
  by setoid_rewrite list_elem_of_In.
Qed.

Lemma flat_map_shared {A B} (f : A → list B) (l : list A) a b x :
  NoDup (flat_map f l) → a ∈ l → b ∈ l → x ∈ f a → x ∈ f b → a = b.
Proof.
  induction l as [|c l IH]; simpl; intros Hnd Ha Hb Hxa Hxb.
  { by apply elem_of_nil in Ha. }
  apply NoDup_app in Hnd as (_ & Hdisj & Hnd).
  apply elem_of_cons in Ha as [->|Ha], Hb as [->|Hb]; [done| | |by apply IH].
  - destruct (Hdisj x Hxa). apply elem_of_flat_map. eauto.
  - destruct (Hdisj x Hxb). apply elem_of_flat_map. eauto.
Qed.

Lemma NoDup_flat_map_elem {A B} (f : A → list B) (l : list A) c :
  NoDup (flat_map f l) → c ∈ l → NoDup (f c).
Proof.
  induction l as [|c' l IH]; simpl; intros Hnd Hc.
  { by apply elem_of_nil in Hc. }
  apply NoDup_app in Hnd as (? & _ & ?).
  apply elem_of_cons in Hc as [->|Hc]; auto.
Qed.

Lemma NoDup_flat_map_sub {A B} (f g : A → list B) (l : list A) :
  (∀ c x, c ∈ l → x ∈ g c → x ∈ f c) →
  (∀ c, c ∈ l → NoDup (f c) → NoDup (g c)) →
  NoDup (flat_map f l) → NoDup (flat_map g l).
Proof.
  induction l as [|c l IH]; simpl; intros Hsub Hnd Hf; [constructor|].
  apply NoDup_app in Hf as (Hc & Hdisj & Hl). apply NoDup_app. split_and!.
  - apply Hnd; [set_solver|done].
  - intros x Hx (c' & Hc' & Hx')%elem_of_flat_map.
    apply (Hdisj x); [apply Hsub; [set_solver|done]|].
    apply elem_of_flat_map. exists c'. split; [done|].
    apply Hsub; [set_solver|done].
  - apply IH; [|intros; apply Hnd; set_solver|done].
    intros c' x ?. apply Hsub. set_solver.
Qed.

Lemma nodes_subtrees t : nodes t = root <$> subtrees t.
Proof.
  induction t as [dp ps IH] using tree_ind_preds. simpl. f_equal.
  induction IH as [|c ps Hc _ IHps]; simpl; [done|].
  by rewrite fmap_app, Hc, IHps.
Qed.

Lemma subtrees_self t : t ∈ subtrees t.
Proof. destruct t; simpl. set_solver. Qed.

Lemma subtrees_trans t s1 s2 :
  s1 ∈ subtrees t → s2 ∈ subtrees s1 → s2 ∈ subtrees t.
Proof.
  induction t as [dp ps IH] using tree_ind_preds. simpl.
  intros [->|Hs1]%elem_of_cons Hs2; [done|].
  apply elem_of_cons. right.
  apply elem_of_flat_map in Hs1 as (c & Hc & Hs1).
  apply elem_of_flat_map. exists c. split; [done|].
  rewrite Forall_forall in IH. by apply IH.
Qed.

Lemma subtree_root_in_nodes t s : s ∈ subtrees t → root s ∈ nodes t.
Proof. rewrite nodes_subtrees. apply list_elem_of_fmap_2. Qed.

(** In a tree without a repeated DataPipe, a subtree is known by its root. *)
Lemma subtree_by_root t s1 s2 :
  NoDup (nodes t) → s1 ∈ subtrees t → s2 ∈ subtrees t →
  root s1 = root s2 → s1 = s2.
Proof.
  rewrite nodes_subtrees. generalize (subtrees t). intros l.
  induction l as [|s l IH]; simpl; intros Hnd H1 H2 Heq.
  { by apply elem_of_nil in H1. }
  apply NoDup_cons in Hnd as [Hs Hnd].
  apply elem_of_cons in H1 as [->|H1], H2 as [->|H2]; [done| | |by apply IH].
  - destruct Hs. rewrite Heq. by apply list_elem_of_fmap_2.
  - destruct Hs. rewrite <- Heq. by apply list_elem_of_fmap_2.
Qed.

(** *** The returned list *)

Lemma branches_replicable t : replicable h t = true → branches h t = [].
Proof.
  induction t as [dp ps IH] using tree_ind_preds. simpl.
  intros [Hty Hall]%andb_true_iff. apply bool_decide_eq_true in Hty.
  rewrite decide_False, Hall, app_nil_r by done.
  induction IH as [|c ps Hc _ IHps]; simpl in *; [done|].
  apply andb_true_iff in Hall as [Hc' Hall]. by rewrite Hc, IHps.
Qed.

Lemma branches_children ps :
  flat_map (branches h) ps ++ (root <$> List.filter (replicable h) ps)
  ≡ₚ flat_map (listed h) ps.
Proof.
  induction ps as [|c ps IH]; simpl; [done|].
  unfold listed at 1. destruct (replicable h c); simpl.
  - rewrite <- IH, <- !app_assoc. f_equiv. simpl.
    symmetry. apply Permutation_middle.
  - by rewrite <- IH, app_nil_r, <- !app_assoc.
Qed.

(** The list returned for a tree: nothing below a placeholder, the root when
    the whole tree is replicable, and otherwise what is returned for the
    predecessors. *)
Lemma listed_Node dp ps :
  listed h (Node dp ps)
  ≡ₚ if decide (type_of h dp = _DummyIterDataPipe) then []
     else if forallb (replicable h) ps then [dp]
     else flat_map (listed h) ps.
Proof.
  unfold listed. simpl.
  destruct (decide (type_of h dp = _DummyIterDataPipe)) as [Hty|Hty].
  { by rewrite bool_decide_eq_false_2 by auto. }
  rewrite bool_decide_eq_true_2 by done. simpl.
  destruct (forallb (replicable h) ps) eqn:Hall.
  - rewrite app_nil_r.
    assert (flat_map (branches h) ps = []) as ->; [|done].
    clear Hty. induction ps as [|c ps IH]; simpl in *; [done|].
    apply andb_true_iff in Hall as [Hc Hall].
    by rewrite branches_replicable, IH.
  - rewrite app_nil_r. apply branches_children.
Qed.

Lemma listed_in_nodes t x : x ∈ listed h t → x ∈ nodes t.
Proof.
  revert x. induction t as [dp ps IH] using tree_ind_preds. intros x.
  rewrite listed_Node. simpl.
  destruct (decide _); [by intros ?%elem_of_nil|].
  destruct (forallb _ _); [set_solver|].
  intros (c & Hc & Hx)%elem_of_flat_map. apply elem_of_cons. right.
  apply elem_of_flat_map. exists c. split; [done|].
  rewrite Forall_forall in IH. by apply IH.
Qed.

Lemma listed_NoDup t : NoDup (nodes t) → NoDup (listed h t).
Proof.
  induction t as [dp ps IH] using tree_ind_preds.
  rewrite listed_Node. simpl. intros [_ Hnd]%NoDup_cons.
  destruct (decide _); [constructor|].
  destruct (forallb _ _); [apply NoDup_singleton|].
  apply (NoDup_flat_map_sub nodes); [|
    |done].
  - intros c x _. apply listed_in_nodes.
  - rewrite Forall_forall in IH. intros c Hc. by apply IH.
Qed.

Lemma listed_antichain t s1 s2 :
  NoDup (nodes t) → s1 ∈ subtrees t → s2 ∈ subtrees s1 →
  root s1 ∈ listed h t → root s2 ∈ listed h t → s1 = s2.
Proof.
  revert s1 s2. induction t as [dp ps IH] using tree_ind_preds.
  intros s1 s2 Hnd Hs1 Hs2. rewrite listed_Node.
  pose proof (subtrees_trans _ _ _ Hs1 Hs2) as Hs2'.
  destruct (decide _); [by intros ?%elem_of_nil|].
  destruct (forallb _ _).
  { intros H1%list_elem_of_singleton H2%list_elem_of_singleton.
    apply (subtree_by_root (Node dp ps)); [done..|congruence]. }
  intros (c1 & Hc1 & H1)%elem_of_flat_map (c2 & Hc2 & H2)%elem_of_flat_map.
  simpl in Hnd. apply NoDup_cons in Hnd as [Hdp Hnd].
  assert (∀ s c, s ∈ subtrees (Node dp ps) → c ∈ ps → root s ∈ nodes c →
                 s ∈ subtrees c) as Hdown.
  { intros s c Hs Hc Hroot. simpl in Hs.
    apply elem_of_cons in Hs as [->|Hs].
    - destruct Hdp. apply elem_of_flat_map. eauto.
    - apply elem_of_flat_map in Hs as (c' & Hc' & Hs).
      assert (c' = c) as ->; [|done].
      eapply (flat_map_shared nodes); [done..| |done].
      by apply subtree_root_in_nodes. }
  assert (s1 ∈ subtrees c1) as Hs1c
    by (apply Hdown; [done..|by apply listed_in_nodes]).
  assert (c2 = c1) as ->.
  { eapply (flat_map_shared nodes); [done..|by apply listed_in_nodes|].
    apply subtree_root_in_nodes. by eapply subtrees_trans. }
  rewrite Forall_forall in IH. apply (IH c1); try done.
  by eapply (NoDup_flat_map_elem nodes).
Qed.

Lemma represents_below t it it' :
  represents h t it → reach_item h it.2.2 it' →
  ∃ s, s ∈ proper_subtrees t ∧ represents h s it'.
Proof.
  revert it it'. induction t as [dp ps IH] using tree_ind_preds.
  intros it it' (_ & _ & Hrep)%represents_Node Hr. simpl.
  rewrite Forall_forall in IH.
  inversion Hr as [? ? Hin|? k c sub ? Hin Hr']; subst;
    apply list_elem_of_lookup in Hin as [i Hi];
    destruct (Forall2_lookup_r _ _ _ _ _ Hrep Hi) as (p & Hp & Hpit);
    assert (p ∈ ps) as Hp' by (apply list_elem_of_lookup; eauto).
  - exists p. split; [|done]. apply elem_of_flat_map. exists p.
    split; [done|apply subtrees_self].
  - destruct (IH p Hp' (k, (c, sub)) it' Hpit Hr') as (s & Hs & Hsit).
    exists s. split; [|done]. apply elem_of_flat_map. exists p.
    split; [done|]. destruct p; simpl in *. set_solver.
Qed.

Lemma subtree_represented t it s :
  represents h t it → (∃ g, it ∈ items h g) → s ∈ subtrees t →
  ∃ it_s, represents h s it_s ∧ ∃ g, it_s ∈ items h g.
Proof.
  revert it. induction t as [dp ps IH] using tree_ind_preds.
  intros it Hrep Hg Hs. simpl in Hs.
  apply elem_of_cons in Hs as [->|Hs]; [eauto|].
  apply elem_of_flat_map in Hs as (c & Hc & Hs).
  apply represents_Node in Hrep as (_ & _ & Hrep).
  pose proof Hc as Hc'. apply list_elem_of_lookup in Hc' as [i Hi].
  destruct (Forall2_lookup_l _ _ _ _ _ Hrep Hi) as (itc & Hitc & Hrc).
  rewrite Forall_forall in IH. apply (IH c Hc itc); [done| |done].
  exists it.2.2. apply list_elem_of_lookup. eauto.
Qed.

Lemma NoDup_nodes_subtree t s :
  s ∈ subtrees t → NoDup (nodes t) → NoDup (nodes s).
Proof.
  induction t as [dp ps IH] using tree_ind_preds. simpl.
  intros [->|Hs]%elem_of_cons Hnd; [done|].
  apply NoDup_cons in Hnd as [_ Hnd].
  apply elem_of_flat_map in Hs as (c & Hc & Hs).
  rewrite Forall_forall in IH. apply (IH c Hc Hs).
  by eapply (NoDup_flat_map_elem nodes).
Qed.

Lemma proper_subtree_not_self t : NoDup (nodes t) → t ∉ proper_subtrees t.
Proof.
  destruct t as [dp ps]. simpl. intros [Hdp _]%NoDup_cons Hin. apply Hdp.
  apply elem_of_flat_map in Hin as (c & Hc & Hin).
  apply elem_of_flat_map. exists c. split; [done|].
  by apply (subtree_root_in_nodes c (Node dp ps)).
Qed.
End trees.

(** ** The result depends on the graph alone *)

Lemma for_each_Ret_mono {S A} (f f' : A → S → outcome S) xs s r :
  (∀ x s1 s2, x ∈ xs → f x s1 = Ret s2 → f' x s1 = Ret s2) →
  for_each f xs s = Ret r → for_each f' xs s = Ret r.
Proof.
  revert s. induction xs as [|x xs IH]; intros s Hff Hrun; simpl in *; [done|].
  apply bind_Ret_inv in Hrun as (s2 & Hx & Hrun).
  rewrite (Hff x s s2), bind_Ret; [|set_solver|done].
  apply IH; [|done]. intros y s1 s3 Hy. apply Hff. set_solver.
Qed.

Lemma for_each_ext {S A} (f f' : A → S → outcome S) xs s :
  (∀ x s1, x ∈ xs → f x s1 = f' x s1) →
  for_each f xs s = for_each f' xs s.
Proof.
  intros Hff. apply (for_each_ext_inv (λ _, True)); [done| |done].
  intros x s1 Hx _. by apply Hff.
Qed.

Lemma bind_Ret_mono {A B} (c c' : outcome A) (k k' : A → outcome B) r :
  (∀ a, c = Ret a → c' = Ret a) →
  (∀ a b, k a = Ret b → k' a = Ret b) →
  c ≫= k = Ret r → c' ≫= k' = Ret r.
Proof.
  intros Hc Hk (a & Ha & Hr)%bind_Ret_inv.
  rewrite (Hc a Ha), bind_Ret. by apply Hk.
Qed.

(** More fuel does not change a result. *)
Section fuel.
Context (h : Snapshot).

Lemma list_dps_helper_fuel n m g st r :
  n ≤ m → list_dps_helper h n g st = Ret r → list_dps_helper h m g st = Ret r.
Proof.
  revert m g st r. induction n as [|n IH]; intros m g st r Hnm Hrun; [done|].
  destruct m as [|m]; [lia|]. simpl in *.
  eapply for_each_Ret_mono; [|done].
  intros [k [dp sub]] [c d] s2 _. destruct (decide (k ∈ c)); [done|].
  apply IH. lia.
Qed.

Lemma _get_lca_from_graph_fuel nrd n m memo k dp g r :
  n ≤ m →
  _get_lca_from_graph h nrd n memo k dp g = Ret r →
  _get_lca_from_graph h nrd m memo k dp g = Ret r.
Proof.
  revert m memo k dp g r.
  induction n as [|n IH]; intros m memo k dp g r Hnm Hrun; [done|].
  destruct m as [|m]; [lia|].
  rewrite _get_lca_from_graph_unfold in *.
  destruct (memo !! k); [done|]. destruct (decide (k ∈ nrd)); [done|].
  eapply bind_Ret_mono; [| |done]; [|done].
  intros a. unfold lca_parents. apply for_each_Ret_mono.
  intros [k' [dp' sub]] [m1 ps] s2 _.
  apply bind_Ret_mono; [|done]. intros a'. apply IH. lia.
Qed.

Lemma _is_replicable_graph_fuel n m st k dp g r :
  n ≤ m →
  _is_replicable_graph h n st k dp g = Ret r →
  _is_replicable_graph h m st k dp g = Ret r.
Proof.
  revert m st k dp g r.
  induction n as [|n IH]; intros m [memo dps] k dp g r Hnm Hrun; [done|].
  destruct m as [|m]; [lia|].
  rewrite _is_replicable_graph_unfold in *.
  destruct (memo !! k); [done|]. destruct (decide _); [done|].
  eapply bind_Ret_mono; [| |done]; [|done].
  intros a. unfold visit_children. apply for_each_Ret_mono.
  intros [k' [dp' sub]] st1 s2 _.
  apply bind_Ret_mono; [|done]. intros a'. apply IH. lia.
Qed.
End fuel.

Lemma same_at_own_fuel {A} (f1 f2 : nat → outcome A) n1 n2 :
  (∀ n m r, n ≤ m → f1 n = Ret r → f1 m = Ret r) →
  (∀ n m r, n ≤ m → f2 n = Ret r → f2 m = Ret r) →
  (∀ n, f1 n = f2 n) →
  (∃ r, f1 n1 = Ret r) → (∃ r, f2 n2 = Ret r) →
  f1 n1 = f2 n2.
Proof.
  intros Hm1 Hm2 Heq [r1 Hr1] [r2 Hr2]. rewrite Hr1, Hr2.
  pose proof (Hm1 n1 (n1 `max` n2) r1 ltac:(lia) Hr1) as H1.
  pose proof (Hm2 n2 (n1 `max` n2) r2 ltac:(lia) Hr2) as H2.
  rewrite Heq in H1. congruence.
Qed.

Section same_graph.
Context (h1 h2 : Snapshot) (R : Ref → Prop).
Hypothesis Hsame : same_graph h1 h2 R.

Lemma list_dps_helper_same fuel its st :
  (∀ k dp sub, (k, (dp, sub)) ∈ its → R sub) →
  list_dps_helper h1 fuel its st = list_dps_helper h2 fuel its st.
Proof.
  revert its st. induction fuel as [|n IH]; intros its st Hits; [done|]. simpl.
  apply for_each_ext.
  intros [k [dp sub]] [c d] Hin. destruct (decide (k ∈ c)); [done|].
  destruct (Hsame sub (Hits k dp sub Hin)) as [<- Hsub].
  apply IH. intros k' dp' sub' Hin'. by apply (Hsub k' dp' sub').
Qed.

Lemma _get_lca_from_graph_same nrd fuel memo k dp g :
  R g →
  _get_lca_from_graph h1 nrd fuel memo k dp g
  = _get_lca_from_graph h2 nrd fuel memo k dp g.
Proof.
  revert memo k dp g. induction fuel as [|n IH]; intros memo k dp g Hg; [done|].
  rewrite !_get_lca_from_graph_unfold.
  destruct (memo !! k); [done|]. destruct (decide (k ∈ nrd)); [done|].
  destruct (Hsame g Hg) as [<- Hits]. f_equal. unfold lca_parents.
  apply for_each_ext. intros [k' [dp' sub]] [m ps] Hin.
  rewrite IH; [done|]. by apply (Hits k' dp' sub).
Qed.

Lemma _is_replicable_graph_same fuel st g0 k dp g :
  R g0 → (k, (dp, g)) ∈ items h1 g0 →
  _is_replicable_graph h1 fuel st k dp g
  = _is_replicable_graph h2 fuel st k dp g.
Proof.
  revert st g0 k dp g.
  induction fuel as [|n IH]; intros [memo dps] g0 k dp g Hg0 Hin; [done|].
  rewrite !_is_replicable_graph_unfold.
  destruct (Hsame g0 Hg0) as [_ Hits].
  destruct (Hits k dp g Hin) as (Hg & <- & _).
  destruct (memo !! k); [done|]. destruct (decide _); [done|].
  destruct (Hsame g Hg) as [<- _]. f_equal. unfold visit_children.
  apply for_each_ext. intros [k' [dp' sub]] st1 Hin'.
  by rewrite (IH st1 g k' dp' sub).
Qed.

Lemma list_dps_same its :
  (∀ k dp sub, (k, (dp, sub)) ∈ its → R sub) →
  list_dps h1 its = list_dps h2 its.
Proof.
  intros Hits. unfold list_dps. f_equal.
  apply (same_at_own_fuel (λ n, list_dps_helper h1 n its (∅, []))
           (λ n, list_dps_helper h2 n its (∅, []))).
  - intros n m r. apply list_dps_helper_fuel.
  - intros n m r. apply list_dps_helper_fuel.
  - intros n. by apply list_dps_helper_same.
  - destruct (list_dps_total h1 its) as [dps Hd]. unfold list_dps in Hd.
    apply bind_Ret_inv in Hd as (st & Hd & _). eauto.
  - destruct (list_dps_total h2 its) as [dps Hd]. unfold list_dps in Hd.
    apply bind_Ret_inv in Hd as (st & Hd & _). eauto.
Qed.

Lemma reach_item_same g it :
  R g → reach_item h1 g it → ∃ g', R g' ∧ it ∈ items h1 g'.
Proof.
  intros Hg Hr. induction Hr as [g it Hin|g k dp sub it Hin Hr IH]; [eauto|].
  apply IH. destruct (Hsame g Hg) as [_ Hits]. by apply (Hits k dp sub).
Qed.

Lemma mark_non_replicable_same graph :
  R graph → mark_non_replicable h1 graph = mark_non_replicable h2 graph.
Proof.
  intros Hg. unfold mark_non_replicable.
  destruct (Hsame graph Hg) as [<- Hroot].
  rewrite <- list_dps_same by (intros k dp sub Hin; by apply (Hroot k dp sub)).
  destruct (list_dps h1 (items h1 graph)) as [dps| |] eqn:Hdps; [|done..].
  rewrite !bind_Ret. apply for_each_ext. intros dp nrd Hdp.
  destruct (decide _); [done|].
  apply (list_dps_sound_graph h1 graph dps) in Hdp as (k & sub & Hr); [|done].
  apply reach_item_same in Hr as (g' & Hg' & Hin); [|done].
  destruct (Hsame g' Hg') as [_ Hits].
  destruct (Hits k dp sub Hin) as (_ & Hty & Htr & HR).
  unfold _is_round_robin_sharding, traverse_dps. rewrite <- Hty, <- Htr.
  rewrite list_dps_same; [done|].
  intros k' dp' sub' Hin'. apply list_elem_of_singleton in Hin'. by simplify_eq.
Qed.
End same_graph.

(** C10. Each of the two functions is a function of the graph it is given:
    two snapshots that hold the same graph, whatever else differs between
    them, give the same outcome; in particular a second run on an unmodified
    snapshot gives the outcome of the first. *)
Theorem result_depends_on_graph_only (h1 h2 : Snapshot) (R : Ref → Prop)
    (graph : Ref) :
  same_graph h1 h2 R → R graph →
  find_lca_non_replicable_dp h1 graph = find_lca_non_replicable_dp h2 graph
  ∧ find_replicable_branches h1 graph = find_replicable_branches h2 graph.
Proof.
  intros Hsame Hg. destruct (Hsame graph Hg) as [Hitems Hits].
  unfold find_lca_non_replicable_dp, find_replicable_branches.
  rewrite <- Hitems.
  destruct (items h1 graph) as [|[k [dp g]] [|??]] eqn:Hroot; try done.
  assert (k ∈ key_set h1 ∧ k ∈ key_set h2) as [Hk1 Hk2].
  { split.
    - apply (item_key_in_key_set h1 graph k (dp, g)). rewrite Hroot. set_solver.
    - apply (item_key_in_key_set h2 graph k (dp, g)). rewrite <- Hitems.
      set_solver. }
  assert (R g) as HRg by (apply (Hits k dp g); set_solver).
  split.
  - rewrite <- (mark_non_replicable_same h1 h2 R Hsame graph Hg).
    destruct (mark_non_replicable h1 graph) as [nrd| |]; [|done..].
    rewrite !bind_Ret. f_equal.
    apply (same_at_own_fuel
             (λ n, _get_lca_from_graph h1 nrd n ∅ k dp g)
             (λ n, _get_lca_from_graph h2 nrd n ∅ k dp g)).
    + intros n m r. apply _get_lca_from_graph_fuel.
    + intros n m r. apply _get_lca_from_graph_fuel.
    + intros n. by apply (_get_lca_from_graph_same h1 h2 R).
    + destruct (_get_lca_from_graph_total h1 nrd (fuel_of h1) ∅ k dp g)
        as (m & r & -> & _); [apply fuel_of_enough|done|eauto].
    + destruct (_get_lca_from_graph_total h2 nrd (fuel_of h2) ∅ k dp g)
        as (m & r & -> & _); [apply fuel_of_enough|done|eauto].
  - f_equal.
    apply (same_at_own_fuel
             (λ n, _is_replicable_graph h1 n (∅, []) k dp g)
             (λ n, _is_replicable_graph h2 n (∅, []) k dp g)).
    + intros n m r. apply _is_replicable_graph_fuel.
    + intros n m r. apply _is_replicable_graph_fuel.
    + intros n. apply (_is_replicable_graph_same h1 h2 R Hsame n _ graph).
      * done.
      * rewrite Hroot. set_solver.
    + destruct (_is_replicable_graph_total h1 (fuel_of h1) ∅ [] k dp g)
        as (m & d & b & -> & _); [apply fuel_of_enough|done|eauto].
    + destruct (_is_replicable_graph_total h2 (fuel_of h2) ∅ [] k dp g)
        as (m & d & b & -> & _); [apply fuel_of_enough|done|eauto].
Qed.

Lemma result_depends_on_graph_only_witness :
  find_lca_non_replicable_dp nested_markers 0
  = find_lca_non_replicable_dp nested_markers_elsewhere 0
  ∧ find_replicable_branches nested_markers 0
    = find_replicable_branches nested_markers_elsewhere 0.
Proof.
  apply (result_depends_on_graph_only nested_markers nested_markers_elsewhere
           (λ g, g < 5) 0); [|lia].
  intros g Hg.
  do 5 (destruct g as [|g];
        [split; [reflexivity|];
         intros k dp sub Hin; unfold items in Hin; simpl in Hin;
         repeat match goal with
                | H : _ ∈ [] |- _ => by apply elem_of_nil in H
                | H : _ ∈ _ :: _ |- _ =>
                    apply elem_of_cons in H as [H|H]; [simplify_eq|]
                end;
         split_and!; (reflexivity || (cbv; lia))|]).
  lia.
Defined.

(** ** Replicable branches of a graph without reference cycles *)

Section acyclic.
Context (h : Snapshot).
Hypothesis Hwf : well_formed h.

Lemma replicable_closure_children (dp : nat) :
  type_of h dp ≠ _DummyIterDataPipe →
  replicable_closure h dp
  ↔ ∀ it, it ∈ items h (pred_graph h dp) → replicable_closure h it.2.1.
Proof.
  intros Hty. split.
  - intros [_ Hbelow] [k [c sub]] Hin. simpl.
    destruct (Hwf _ _ _ _ Hin) as [_ ->]. split.
    + apply Hbelow. exists k, (pred_graph h c). by apply reach_here.
    + intros q (k' & sub' & Hq). apply Hbelow. exists k', sub'.
      by eapply reach_below.
  - intros Hch. split; [done|]. intros q (k' & sub' & Hq).
    inversion Hq as [g it Hin|g k c sub it Hin Hr]; subst.
    + by destruct (Hch _ Hin) as [? _].
    + destruct (Hwf _ _ _ _ Hin) as [_ ->].
      destruct (Hch _ Hin) as [_ Hbelow]. apply Hbelow. by exists k', sub'.
Qed.

(** While the visit does not run into a node that is being visited, every
    entry it adds to the table is final and says whether the closure of the
    node is replicable, and every node it lists has a replicable closure. *)
Lemma _is_replicable_graph_settled fuel memo dps (dp : nat) st b :
  (∀ q, q = dp ∨ reach h (pred_graph h dp) q →
        ¬ reach h (pred_graph h q) q) →
  (∀ q b0, q = dp ∨ reach h (pred_graph h dp) q →
           memo !! q = Some b0 → b0 = true ↔ replicable_closure h q) →
  (∀ x, x ∈ dps → replicable_closure h x) →
  _is_replicable_graph h fuel (memo, dps) dp dp (pred_graph h dp)
  = Ret (st, b) →
  (b = true ↔ replicable_closure h dp)
  ∧ (∀ x, x ∈ st.2 → replicable_closure h x)
  ∧ (∀ q b0, memo !! q = None → st.1 !! q = Some b0 →
             b0 = true ↔ replicable_closure h q).
Proof.
  revert memo dps dp st b.
  induction fuel as [|n IH]; intros memo dps dp st b Hacyc Hpre Hdps Hrun;
    [done|].
  rewrite _is_replicable_graph_unfold in Hrun.
  destruct (memo !! dp) as [b0|] eqn:Hmdp.
  { simplify_eq. split_and!; [apply Hpre; auto|done|]. intros q b0 Hq. simpl.
    congruence. }
  destruct (decide (type_of h dp = _DummyIterDataPipe)) as [Hty|Hty].
  { simplify_eq. simpl.
    assert (false = true ↔ replicable_closure h dp) as Hfalse.
    { split; [done|]. by intros [? _]. }
    split_and!; [done|done|].
    intros q b0 Hq [[<- <-]|[_ ?]]%lookup_insert_Some; [done|congruence]. }
  apply bind_Ret_inv in Hrun as ([m1 d1] & Hloop & Hrun).
  apply bind_Ret_inv in Hrun as (b1 & Hget1 & Hrun).
  apply bind_Ret_inv in Hrun as ([m2 d2] & Happ & Hrun).
  apply bind_Ret_inv in Hrun as (b2 & Hget2 & Hrun). simplify_eq. simpl in *.
  apply getitem_Ret in Hget1, Hget2.
  assert (¬ reach h (pred_graph h dp) dp) as Hnoself by (apply Hacyc; auto).
  assert (∀ k c sub, (k, (c, sub)) ∈ items h (pred_graph h dp) →
            k = c ∧ sub = pred_graph h c ∧ c ≠ dp
            ∧ reach h (pred_graph h dp) c
            ∧ ∀ q, q = c ∨ reach h (pred_graph h c) q →
                   reach h (pred_graph h dp) q) as Hchild.
  { intros k c sub Hin. destruct (Hwf _ _ _ _ Hin) as [-> ->].
    assert (reach h (pred_graph h dp) c) as Hc
      by (eexists _, _; by apply reach_here).
    split_and!; try done.
    - intros ->. done.
    - intros q [->|(k' & sub' & Hq)]; [done|].
      exists k', sub'. by eapply reach_below. }
  assert ((∀ q b0, q ≠ dp → memo !! q = None → m1 !! q = Some b0 →
                   b0 = true ↔ replicable_closure h q)
          ∧ (∀ q v, q ≠ dp → memo !! q = Some v → m1 !! q = Some v)
          ∧ (b1 = true ↔ replicable_closure h dp)
          ∧ (∀ x, x ∈ d1 → replicable_closure h x))
    as (HA & HB & HC & HE).
  { unfold visit_children in Hloop.
    cut ((∀ q b0, q ≠ dp → memo !! q = None → m1 !! q = Some b0 →
                  b0 = true ↔ replicable_closure h q)
         ∧ (∀ q v, q ≠ dp → memo !! q = Some v → m1 !! q = Some v)
         ∧ (∃ bdp, m1 !! dp = Some bdp
              ∧ (bdp = true ↔
                 ∀ it, it ∈ items h (pred_graph h dp) →
                       replicable_closure h it.2.1))
         ∧ (∀ x, x ∈ d1 → replicable_closure h x)).
    { intros (? & ? & (bdp & Hbdp & Hiff) & ?). split_and!; try done.
      rewrite Hbdp in Hget1. simplify_eq.
      by rewrite replicable_closure_children. }
    apply (for_each_inv
             (λ pre (st : branch_state),
                (∀ q b0, q ≠ dp → memo !! q = None → st.1 !! q = Some b0 →
                         b0 = true ↔ replicable_closure h q)
                ∧ (∀ q v, q ≠ dp → memo !! q = Some v → st.1 !! q = Some v)
                ∧ (∃ bdp, st.1 !! dp = Some bdp
                     ∧ (bdp = true ↔
                        ∀ it, it ∈ pre → replicable_closure h it.2.1))
                ∧ (∀ x, x ∈ st.2 → replicable_closure h x))
             _ _ _ _ Hloop).
    { simpl. split_and!; [| |exists true|done].
      - intros q b0 Hq Hnone. rewrite lookup_insert_ne by done. congruence.
      - intros q v Hq Hv. by rewrite lookup_insert_ne.
      - rewrite lookup_insert_eq. split; [done|]. split; [|done].
        intros _ it Hit. by apply elem_of_nil in Hit. }
    intros pre [k [c sub]] post [m3 d3] [m4 d4] Hitems
      (HA3 & HB3 & (bdp & Hbdp & Hiff) & HE3) Hbody. simpl in *.
    assert ((k, (c, sub)) ∈ items h (pred_graph h dp)) as Hin
      by (rewrite Hitems; set_solver).
    destruct (Hchild k c sub Hin) as (-> & -> & Hcdp & Hc & Hbelow).
    apply bind_Ret_inv in Hbody as ([[m5 d5] b5] & Hcall & Hbody).
    pose proof Hcall as Hmono.
    apply _is_replicable_graph_mono in Hmono as (Hsub & _ & _).
    apply IH in Hcall as (Hb5 & Hd5 & Hnew); simpl in *.
    2: { intros q Hq. apply Hacyc. right. by apply Hbelow. }
    2: { intros q b0 Hq Hm3. apply Hbelow in Hq.
         assert (q ≠ dp) by (by intros ->).
         destruct (memo !! q) as [v|] eqn:Hmq.
         - apply Hpre; [auto|]. rewrite (HB3 q v) in Hm3 by done. congruence.
         - by apply (HA3 q). }
    2: { done. }
    assert (∀ q b0, q ≠ dp → memo !! q = None → m5 !! q = Some b0 →
                    b0 = true ↔ replicable_closure h q) as HA5.
    { intros q b0 Hq Hnone Hm5. destruct (m3 !! q) as [v|] eqn:Hm3.
      - assert (m5 !! q = Some v) by (by eapply lookup_weaken).
        apply (HA3 q); [done..|congruence].
      - by apply Hnew. }
    assert (∀ q v, q ≠ dp → memo !! q = Some v → m5 !! q = Some v) as HB5.
    { intros q v Hq Hv. eapply lookup_weaken; [|exact Hsub]. by apply HB3. }
    assert (m5 !! dp = Some bdp) as Hm5dp by (by eapply lookup_weaken).
    assert ((∀ it, it ∈ pre ++ [(c, (c, pred_graph h c))] →
                   replicable_closure h it.2.1)
            ↔ (bdp = true ∧ b5 = true)) as Hall.
    { rewrite Hb5, Hiff. split.
      - intros Hall. split; [intros it Hit; apply Hall; set_solver|].
        apply (Hall (c, (c, pred_graph h c))). set_solver.
      - intros [Hpre' Hc'] it [Hit|Hit]%elem_of_app; [by apply Hpre'|].
        apply list_elem_of_singleton in Hit. by subst. }
    destruct b5; simpl in Hbody; simplify_eq; split_and!; try done.
    - exists bdp. split; [done|]. rewrite Hall. tauto.
    - intros q b0 Hq Hnone. rewrite lookup_insert_ne by done. by apply HA5.
    - intros q v Hq Hv. rewrite lookup_insert_ne by done. by apply HB5.
    - exists false. rewrite lookup_insert_eq. split; [done|].
      rewrite Hall. split; [done|]. by intros [_ ?]. }
  assert (∀ q b0, memo !! q = None → m1 !! q = Some b0 →
                  b0 = true ↔ replicable_closure h q) as Hnew1.
  { intros q b0 Hnone Hm1. destruct (decide (q = dp)) as [->|Hq].
    - pose proof (eq_trans (eq_sym Hget1) Hm1) as Heq.
      injection Heq as <-. done.
    - by apply HA. }
  destruct b1; simpl in Happ.
  { simplify_eq. done. }
  assert (m2 = m1 ∧ ∀ x, x ∈ d2 → replicable_closure h x) as [-> Hd2].
  { unfold append_replicable_children in Happ.
    apply (for_each_inv
             (λ _ (st : branch_state),
                st.1 = m1 ∧ ∀ x, x ∈ st.2 → replicable_closure h x)
             _ _ _ _ Happ); [done|].
    intros pre [k [c sub]] post [m3 d3] [m4 d4] Hitems [Hm3 Hd3] Hbody.
    simpl in *. subst m3.
    assert ((k, (c, sub)) ∈ items h (pred_graph h dp)) as Hin
      by (rewrite Hitems; set_solver).
    destruct (Hchild k c sub Hin) as (-> & -> & Hcdp & Hc & Hbelow).
    apply bind_Ret_inv in Hbody as (bc & Hgetc & Hbody).
    apply getitem_Ret in Hgetc.
    destruct bc; simpl in Hbody; simplify_eq; [|done].
    split; [done|]. intros x [Hx|Hx]%elem_of_app; [by apply Hd3|].
    apply list_elem_of_singleton in Hx as ->.
    destruct (memo !! c) as [v|] eqn:Hmc.
    - assert (m4 !! c = Some v) as Hv by (by apply HB).
      pose proof (eq_trans (eq_sym Hgetc) Hv) as Heq. injection Heq as <-.
      apply (Hpre c true); [by right|done|done].
    - by apply (HA c true). }
  simplify_eq. done.
Qed.

(** On a graph that follows the data model and has no reference cycle, every
    node that [find_replicable_branches] lists has a replicable closure. *)
Lemma acyclic_branches_replicable graph dps :
  ¬ has_cycle h graph →
  find_replicable_branches h graph = Ret dps →
  ∀ x, x ∈ dps → replicable_closure h x.
Proof.
  intros Hacyc Hrun. unfold find_replicable_branches in Hrun.
  destruct (items h graph) as [|[k [dp g]] [|??]] eqn:Hroot; try done.
  assert ((k, (dp, g)) ∈ items h graph) as Hin by (rewrite Hroot; set_solver).
  destruct (Hwf _ _ _ _ Hin) as [-> ->]. unfold id_of in *.
  apply bind_Ret_inv in Hrun as ([[m d] b] & Hcall & Hrun).
  apply _is_replicable_graph_settled in Hcall as (Hb & Hd & _); simpl in *.
  - destruct b; simplify_eq; [|done].
    intros x [Hx|Hx]%elem_of_app; [by apply Hd|].
    apply list_elem_of_singleton in Hx as ->. by apply Hb.
  - intros q Hq (k' & sub' & Hself). apply Hacyc.
    destruct (well_formed_reach_item h _ _ _ _ Hwf Hself) as [-> _].
    exists q, q, (pred_graph h q), (q, sub'). split; [|done].
    destruct Hq as [->|(k1 & sub1 & Hq)]; [by apply reach_here|].
    destruct (well_formed_reach_item h _ _ _ _ Hwf Hq) as [-> ->].
    by eapply reach_below.
  - intros q b0 _ Hq. by rewrite lookup_empty in Hq.
  - intros x Hx. by apply elem_of_nil in Hx.
Qed.
End acyclic.

(** ** Maximal replicable regions *)

Section regions.
Context (h : Snapshot).
Hypothesis Hwf : well_formed h.

(** An entry [False] is only written for a node with a placeholder at or
    below it, reference cycles included. *)
Lemma _is_replicable_graph_false fuel memo dps (dp : nat) st b :
  (∀ q : nat, memo !! q = Some false → ¬ replicable_closure h q) →
  _is_replicable_graph h fuel (memo, dps) dp dp (pred_graph h dp)
  = Ret (st, b) →
  ∀ q : nat, st.1 !! q = Some false → ¬ replicable_closure h q.
Proof.
  revert memo dps dp st b.
  induction fuel as [|n IH]; intros memo dps dp st b Hmemo Hrun; [done|].
  rewrite _is_replicable_graph_unfold in Hrun.
  destruct (memo !! dp) as [b0|] eqn:Hmdp; [by simplify_eq|].
  destruct (decide (type_of h dp = _DummyIterDataPipe)) as [Hty|Hty].
  { simplify_eq. simpl.
    intros q [[<- _]|[_ ?]]%lookup_insert_Some;
      [by intros [? _]|by apply Hmemo]. }
  apply bind_Ret_inv in Hrun as ([m1 d1] & Hloop & Hrun).
  apply bind_Ret_inv in Hrun as (b1 & Hget1 & Hrun).
  apply bind_Ret_inv in Hrun as ([m2 d2] & Happ & Hrun).
  apply bind_Ret_inv in Hrun as (b2 & Hget2 & Hrun). simplify_eq. simpl in *.
  assert (∀ q : nat, m1 !! q = Some false → ¬ replicable_closure h q) as Hm1.
  { unfold visit_children in Hloop.
    apply (for_each_inv
             (λ _ (st : branch_state),
                ∀ q : nat, st.1 !! q = Some false → ¬ replicable_closure h q)
             _ _ _ _ Hloop).
    { simpl. intros q [[_ ?]|[_ ?]]%lookup_insert_Some; [done|by apply Hmemo]. }
    intros pre [k [c sub]] post [m3 d3] [m4 d4] Hitems Hm3 Hbody. simpl in *.
    assert ((k, (c, sub)) ∈ items h (pred_graph h dp)) as Hin
      by (rewrite Hitems; set_solver).
    destruct (Hwf _ _ _ _ Hin) as [Hk ->]. unfold id_of in Hk. subst k.
    apply bind_Ret_inv in Hbody as ([[m5 d5] b5] & Hcall & Hbody).
    pose proof Hcall as Hmono.
    apply _is_replicable_graph_mono in Hmono as (_ & Hm5c & _).
    pose proof (IH _ _ _ _ _ Hm3 Hcall) as Hm5. simpl in Hm5.
    destruct b5; simpl in Hbody; simplify_eq; [done|].
    intros q [[<- _]|[_ ?]]%lookup_insert_Some; [|by apply Hm5].
    intros Hrep. apply (Hm5 c Hm5c).
    pose proof (proj1 (replicable_closure_children h Hwf dp Hty) Hrep) as Hch.
    apply (Hch (c, (c, pred_graph h c)) Hin). }
  destruct b1; simpl in Happ; [by simplify_eq|].
  apply append_replicable_children_inv in Happ as [Hm2 _]. simpl in Hm2.
  by subst m2.
Qed.

(** What a call leaves for every node it has entered, other than a
    placeholder: an entry for each of its predecessors, and, when the entry
    of the node is [False], each predecessor with an entry [True] in the
    list. *)
Lemma _is_replicable_graph_children fuel memo dps (dp : nat) st b :
  _is_replicable_graph h fuel (memo, dps) dp dp (pred_graph h dp)
  = Ret (st, b) →
  ∀ (q : nat) bq, memo !! q = None → st.1 !! q = Some bq →
    type_of h q ≠ _DummyIterDataPipe →
    ∀ it, it ∈ items h (pred_graph h q) →
      is_Some (st.1 !! it.1)
      ∧ (bq = false → st.1 !! it.1 = Some true → it.2.1 ∈ st.2).
Proof.
  revert memo dps dp st b.
  induction fuel as [|n IH]; intros memo dps dp st b Hrun; [done|].
  rewrite _is_replicable_graph_unfold in Hrun.
  destruct (memo !! dp) as [b0|] eqn:Hmdp.
  { simplify_eq. intros q bq Hq Hq'. simpl in Hq'. congruence. }
  destruct (decide (type_of h dp = _DummyIterDataPipe)) as [Hty|Hty].
  { simplify_eq. simpl.
    intros q bq Hq [[<- _]|[_ ?]]%lookup_insert_Some; [done|congruence]. }
  apply bind_Ret_inv in Hrun as ([m1 d1] & Hloop & Hrun).
  apply bind_Ret_inv in Hrun as (b1 & Hget1 & Hrun).
  apply bind_Ret_inv in Hrun as ([m2 d2] & Happ & Hrun).
  apply bind_Ret_inv in Hrun as (b2 & Hget2 & Hrun). simplify_eq. simpl in *.
  apply getitem_Ret in Hget1, Hget2.
  assert ((∀ (q : nat) bq, q ≠ dp → memo !! q = None → m1 !! q = Some bq →
             type_of h q ≠ _DummyIterDataPipe →
             ∀ it, it ∈ items h (pred_graph h q) →
               is_Some (m1 !! it.1)
               ∧ (bq = false → m1 !! it.1 = Some true → it.2.1 ∈ d1))
          ∧ (∀ it, it ∈ items h (pred_graph h dp) → is_Some (m1 !! it.1)))
    as [HA HB].
  { unfold visit_children in Hloop.
    apply (for_each_inv
             (λ pre (st : branch_state),
                (∀ (q : nat) bq, q ≠ dp → memo !! q = None → st.1 !! q = Some bq →
                   type_of h q ≠ _DummyIterDataPipe →
                   ∀ it, it ∈ items h (pred_graph h q) →
                     is_Some (st.1 !! it.1)
                     ∧ (bq = false → st.1 !! it.1 = Some true →
                        it.2.1 ∈ st.2))
                ∧ (∀ it, it ∈ pre → is_Some (st.1 !! it.1)))
             _ _ _ _ Hloop).
    { simpl. split; [|by intros it ?%elem_of_nil].
      intros q bq Hq Hnone. rewrite lookup_insert_ne by done. congruence. }
    intros pre [k [c sub]] post [m3 d3] [m4 d4] Hitems [HA3 HB3] Hbody.
    simpl in *.
    assert ((k, (c, sub)) ∈ items h (pred_graph h dp)) as Hin
      by (rewrite Hitems; set_solver).
    destruct (Hwf _ _ _ _ Hin) as [Hk ->]. unfold id_of in Hk. subst k.
    apply bind_Ret_inv in Hbody as ([[m5 d5] b5] & Hcall & Hbody).
    pose proof Hcall as Hmono.
    apply _is_replicable_graph_mono in Hmono as (Hsub & Hm5c & new5 & ->).
    pose proof (IH _ _ _ _ _ Hcall) as Hnew. simpl in Hnew.
    assert (∀ (q : nat) bq, q ≠ dp → memo !! q = None → m5 !! q = Some bq →
              type_of h q ≠ _DummyIterDataPipe →
              ∀ it, it ∈ items h (pred_graph h q) →
                is_Some (m5 !! it.1)
                ∧ (bq = false → m5 !! it.1 = Some true →
                   it.2.1 ∈ d3 ++ new5)) as HA5.
    { intros q bq Hq Hnone Hm5 Hty' it Hit.
      destruct (m3 !! q) as [v|] eqn:Hm3.
      - assert (m5 !! q = Some v) as Hv by (by eapply lookup_weaken).
        assert (v = bq) as -> by congruence.
        destruct (HA3 q bq Hq Hnone Hm3 Hty' it Hit) as [[w Hw] Himp].
        assert (m5 !! it.1 = Some w) as Hw5 by (by eapply lookup_weaken).
        split; [eauto|]. intros Hf Ht. apply elem_of_app. left.
        apply Himp; [done|congruence].
      - by apply (Hnew q bq). }
    assert (∀ it, it ∈ pre ++ [(c, (c, pred_graph h c))] →
              is_Some (m5 !! it.1)) as HB5.
    { intros it [Hit|Hit]%elem_of_app.
      - destruct (HB3 it Hit) as [w Hw]. exists w. by eapply lookup_weaken.
      - apply list_elem_of_singleton in Hit. subst it. simpl. eauto. }
    destruct b5; simpl in Hbody; simplify_eq; [done|]. split.
    - intros q bq Hq Hnone. rewrite lookup_insert_ne by done.
      intros Hm5 Hty' it Hit.
      destruct (HA5 q bq Hq Hnone Hm5 Hty' it Hit) as [Hsome Himp].
      split; [by apply insert_false_is_Some|].
      intros Hf Ht. apply Himp; [done|]. by eapply insert_false_true.
    - intros it Hit. by apply insert_false_is_Some, HB5. }
  destruct b1; simpl in Happ.
  { simplify_eq. simpl. intros q bq Hq Hm1 Hty' it Hit.
    destruct (decide (q = dp)) as [->|Hne].
    - pose proof (eq_trans (eq_sym Hm1) Hget1) as Heq. injection Heq as ->.
      split; [by apply HB|done].
    - exact (HA q bq Hne Hq Hm1 Hty' it Hit). }
  apply append_replicable_children_spec in Happ as [Hm2 Hd2]. simpl in *.
  subst m2. simplify_eq. simpl.
  intros q bq Hq Hm1 Hty' it Hit.
  destruct (decide (q = dp)) as [->|Hne].
  - split; [by apply HB|]. intros _ Ht. apply Hd2. right.
    destruct it as [k [c sub]]. exists k, sub. done.
  - destruct (HA q bq Hne Hq Hm1 Hty' it Hit) as [Hsome Himp].
    split; [done|]. intros Hf Ht. apply Hd2. left. by apply Himp.
Qed.

(** A node is only appended by a direct consumer that the visit has
    expanded and whose entry is [False]. *)
Lemma _is_replicable_graph_parent fuel memo dps g0 (dp : nat) st b :
  (dp, (dp, pred_graph h dp)) ∈ items h g0 →
  _is_replicable_graph h fuel (memo, dps) dp dp (pred_graph h dp)
  = Ret (st, b) →
  ∀ x, x ∈ st.2 →
    x ∈ dps
    ∨ ∃ (p : nat) k sub,
        reach_visible h g0 (p, (p, pred_graph h p))
        ∧ type_of h p ≠ _DummyIterDataPipe
        ∧ (k, (x, sub)) ∈ items h (pred_graph h p)
        ∧ st.1 !! p = Some false.
Proof.
  revert memo dps g0 dp st b.
  induction fuel as [|n IH]; intros memo dps g0 dp st b Hin0 Hrun; [done|].
  rewrite _is_replicable_graph_unfold in Hrun.
  destruct (memo !! dp) as [b0|] eqn:Hmdp; [simplify_eq; by left|].
  destruct (decide (type_of h dp = _DummyIterDataPipe)) as [Hty|Hty];
    [simplify_eq; by left|].
  apply bind_Ret_inv in Hrun as ([m1 d1] & Hloop & Hrun).
  apply bind_Ret_inv in Hrun as (b1 & Hget1 & Hrun).
  apply bind_Ret_inv in Hrun as ([m2 d2] & Happ & Hrun).
  apply bind_Ret_inv in Hrun as (b2 & Hget2 & Hrun). simplify_eq. simpl in *.
  apply getitem_Ret in Hget1, Hget2.
  assert (∀ x, x ∈ d1 →
            x ∈ dps
            ∨ ∃ (p : nat) k sub,
                reach_visible h g0 (p, (p, pred_graph h p))
                ∧ type_of h p ≠ _DummyIterDataPipe
                ∧ (k, (x, sub)) ∈ items h (pred_graph h p)
                ∧ m1 !! p = Some false) as Hd1.
  { unfold visit_children in Hloop.
    apply (for_each_inv
             (λ _ (st : branch_state),
                ∀ x, x ∈ st.2 →
                  x ∈ dps
                  ∨ ∃ (p : nat) k sub,
                      reach_visible h g0 (p, (p, pred_graph h p))
                      ∧ type_of h p ≠ _DummyIterDataPipe
                      ∧ (k, (x, sub)) ∈ items h (pred_graph h p)
                      ∧ st.1 !! p = Some false)
             _ _ _ _ Hloop); [by left|].
    intros pre [k [c sub]] post [m3 d3] [m4 d4] Hitems Hd3 Hbody. simpl in *.
    assert ((k, (c, sub)) ∈ items h (pred_graph h dp)) as Hin
      by (rewrite Hitems; set_solver).
    destruct (Hwf _ _ _ _ Hin) as [Hk ->]. unfold id_of in Hk. subst k.
    apply bind_Ret_inv in Hbody as ([[m5 d5] b5] & Hcall & Hbody).
    pose proof Hcall as Hmono.
    apply _is_replicable_graph_mono in Hmono as (Hsub & _ & _).
    pose proof (IH _ _ _ _ _ _ Hin Hcall) as Hd5. simpl in Hd5.
    assert (∀ x, x ∈ d5 →
              x ∈ dps
              ∨ ∃ (p : nat) k sub,
                  reach_visible h g0 (p, (p, pred_graph h p))
                  ∧ type_of h p ≠ _DummyIterDataPipe
                  ∧ (k, (x, sub)) ∈ items h (pred_graph h p)
                  ∧ m5 !! p = Some false) as Hd5'.
    { intros x [Hx|(p & k & sub & Hp & Hpty & Hch & Hm5)]%Hd5.
      - destruct (Hd3 x Hx) as [?|(p & k & sub & Hp & Hpty & Hch & Hm3)];
          [by left|].
        right. exists p, k, sub. split_and!; [done..|].
        by eapply lookup_weaken.
      - right. exists p, k, sub. split_and!; [|done..].
        by eapply visible_below. }
    destruct b5; simpl in Hbody; simplify_eq; [done|].
    intros x [?|(p & k & sub & Hp & Hpty & Hch & Hm5)]%Hd5'; [by left|].
    right. exists p, k, sub. split_and!; [done..|].
    by apply insert_false_false. }
  destruct b1; simpl in Happ; [by simplify_eq|].
  apply append_replicable_children_spec in Happ as [Hm2 Hd2]. simpl in *.
  subst m2. simplify_eq. simpl.
  intros x [Hx|(k & sub & Hin & _)]%Hd2; [by apply Hd1|].
  right. exists dp, k, sub. split_and!; [by apply visible_here|done..].
Qed.

Lemma reach_visible_reach_item g it :
  reach_visible h g it → reach_item h g it.
Proof.
  induction 1; [by apply reach_here|by eapply reach_below].
Qed.

(** No replicable region that the extraction can see is omitted, reference
    cycles and shared nodes included. *)
Lemma find_replicable_branches_covers graph dps k c sub :
  find_replicable_branches h graph = Ret dps →
  reach_visible h graph (k, (c, sub)) → replicable_closure h c →
  ∃ l, l ∈ dps ∧ at_or_below h l c.
Proof.
  intros Hrun Hvis Hc. unfold find_replicable_branches in Hrun.
  destruct (items h graph) as [|[k0 [dp g]] [|??]] eqn:Hroot; try done.
  assert ((k0, (dp, g)) ∈ items h graph) as Hin by (rewrite Hroot; set_solver).
  destruct (Hwf _ _ _ _ Hin) as [Hk0 ->]. unfold id_of in Hk0. subst k0.
  apply bind_Ret_inv in Hrun as ([[m d] b] & Hcall & Hrun).
  pose proof Hcall as Hmono.
  apply _is_replicable_graph_mono in Hmono as (_ & Hmdp & _).
  assert (∀ q : nat, m !! q = Some false → ¬ replicable_closure h q) as Hfalse.
  { pose proof (_is_replicable_graph_false (fuel_of h) ∅ [] dp (m, d) b) as HF.
    simpl in HF. apply HF; [|done].
    intros q Hq. by rewrite lookup_empty in Hq. }
  pose proof (_is_replicable_graph_children _ _ _ _ _ _ Hcall) as Hch.
  simpl in Hch.
  assert (∀ gp it, reach_visible h gp it →
            ∀ (p : nat) bp, gp = pred_graph h p → m !! p = Some bp →
              type_of h p ≠ _DummyIterDataPipe →
              replicable_closure h it.2.1 →
              (∃ l, l ∈ d ∧ at_or_below h l it.2.1) ∨ bp = true) as Hpath.
  { intros gp it Hr.
    induction Hr as [gp it Hit|gp k1 x sub1 it Hit Hx Hr IH];
      intros p bp -> Hmp Hp Hrep.
    - destruct (Hch p bp (lookup_empty p) Hmp Hp it Hit) as [[w Hw] Himp].
      destruct it as [k1 [x sub1]]. simpl in *.
      destruct (Hwf _ _ _ _ Hit) as [Hk1 _]. unfold id_of in Hk1. subst k1.
      destruct w; [|by destruct (Hfalse x Hw)].
      destruct bp; [by right|]. left. exists x. split; [by apply Himp|by left].
    - destruct (Hch p bp (lookup_empty p) Hmp Hp _ Hit) as [[w Hw] Himp].
      simpl in *.
      destruct (Hwf _ _ _ _ Hit) as [Hk1 ->]. unfold id_of in Hk1. subst k1.
      destruct (IH x w eq_refl Hw Hx Hrep) as [?| ->]; [by left|].
      destruct bp; [by right|]. left. exists x. split; [by apply Himp|].
      right. destruct it as [k2 [y sub2]]. simpl.
      apply reach_visible_reach_item in Hr.
      destruct (well_formed_reach_item h _ _ _ _ Hwf Hr) as [-> _].
      by exists y, sub2. }
  assert (b = true → ∃ l, l ∈ dps ∧ at_or_below h l c) as Hwhole.
  { intros ->. simplify_eq. exists dp. split; [set_solver|].
    inversion Hvis as [? ? Hin'|? k1 x sub1 ? Hin' Hx Hr]; subst;
      rewrite Hroot in Hin'; apply list_elem_of_singleton in Hin';
      simplify_eq; [by left|].
    right. apply reach_visible_reach_item in Hr.
    destruct (well_formed_reach_item h _ _ _ _ Hwf Hr) as [-> _].
    by exists c, sub. }
  inversion Hvis as [? ? Hin'|? k1 x sub1 ? Hin' Hx Hr]; subst;
    rewrite Hroot in Hin'; apply list_elem_of_singleton in Hin'; simplify_eq.
  - apply Hwhole. destruct b; [done|]. by destruct (Hfalse _ Hmdp).
  - destruct (Hpath _ _ Hr _ b eq_refl Hmdp Hx Hc) as [(l & Hl & Hlc)|Hb];
      [|by apply Hwhole].
    exists l. split; [|done]. destruct b; simplify_eq; set_solver.
Qed.

(** Every listed node is at the top of a region. *)
Lemma find_replicable_branches_maximal graph dps x :
  find_replicable_branches h graph = Ret dps → x ∈ dps →
  region_top h graph x.
Proof.
  intros Hrun Hx. unfold region_top, find_replicable_branches in *.
  destruct (items h graph) as [|[k0 [dp g]] [|??]] eqn:Hroot; try done.
  assert ((k0, (dp, g)) ∈ items h graph) as Hin by (rewrite Hroot; set_solver).
  destruct (Hwf _ _ _ _ Hin) as [Hk0 ->]. unfold id_of in *. subst k0.
  apply bind_Ret_inv in Hrun as ([[m d] b] & Hcall & Hrun).
  assert (∀ q : nat, m !! q = Some false → ¬ replicable_closure h q) as Hfalse.
  { pose proof (_is_replicable_graph_false (fuel_of h) ∅ [] dp (m, d) b) as HF.
    simpl in HF. apply HF; [|done].
    intros q Hq. by rewrite lookup_empty in Hq. }
  pose proof (_is_replicable_graph_parent _ _ _ _ _ _ _ Hin Hcall) as Hpar.
  simpl in Hpar.
  assert (x ∈ d ∨ (b = true ∧ x = dp)) as [Hd|[_ ->]].
  { destruct b; simplify_eq; [|by left].
    apply elem_of_app in Hx as [?|Hx]; [by left|].
    apply list_elem_of_singleton in Hx. by right. }
  - destruct (Hpar x Hd) as [Hnil|(p & k & sub & Hp & Hpty & Hch & Hmp)];
      [by apply elem_of_nil in Hnil|].
    right. exists p, k, sub. split_and!; [done|done|by apply Hfalse|done].
  - left. exists dp, (pred_graph h dp). set_solver.
Qed.

(** The visit has an entry for every node that can be reached without
    passing through a placeholder. *)
Lemma find_replicable_branches_enters fuel (dp : nat) graph m d b it :
  items h graph = [(dp, (dp, pred_graph h dp))] →
  _is_replicable_graph h fuel (∅, []) dp dp (pred_graph h dp)
  = Ret ((m, d), b) →
  reach_visible h graph it → is_Some (m !! it.1).
Proof.
  intros Hroot Hcall Hr.
  pose proof Hcall as Hmono.
  apply _is_replicable_graph_mono in Hmono as (_ & Hmdp & _).
  pose proof (_is_replicable_graph_children _ _ _ _ _ _ Hcall) as Hch.
  simpl in Hch.
  cut (∀ g it, reach_visible h g it →
         (∀ it0, it0 ∈ items h g → is_Some (m !! it0.1)) →
         is_Some (m !! it.1)).
  { intros Hcut. apply (Hcut graph it Hr). intros it0 Hit0.
    rewrite Hroot in Hit0. apply list_elem_of_singleton in Hit0. subst it0.
    simpl. eauto. }
  clear it Hr. intros g it Hr.
  induction Hr as [g it Hit|g k1 x sub1 it Hit Hx Hr IH]; intros Hg.
  - by apply Hg.
  - apply IH. intros it0 Hit0.
    destruct (Hg _ Hit) as [bx Hbx]. simpl in Hbx.
    destruct (Hwf _ _ _ _ Hit) as [Hk1 ->]. unfold id_of in Hk1. subst k1.
    by destruct (Hch x bx (lookup_empty x) Hbx Hx it0 Hit0) as [? _].
Qed.

(** On a graph without a reference cycle, every node with a replicable
    closure at the top of a region is listed. *)
Lemma find_replicable_branches_exact graph dps x :
  ¬ has_cycle h graph →
  find_replicable_branches h graph = Ret dps →
  replicable_closure h x → region_top h graph x → x ∈ dps.
Proof.
  intros Hacyc Hrun Hx Htop. unfold region_top, find_replicable_branches in *.
  destruct (items h graph) as [|[k0 [dp g]] [|??]] eqn:Hroot; try done.
  assert ((k0, (dp, g)) ∈ items h graph) as Hin by (rewrite Hroot; set_solver).
  destruct (Hwf _ _ _ _ Hin) as [Hk0 ->]. unfold id_of in *. subst k0.
  apply bind_Ret_inv in Hrun as ([[m d] b] & Hcall & Hrun).
  assert ((b = true ↔ replicable_closure h dp)
          ∧ ∀ (q : nat) b0, m !! q = Some b0 →
              b0 = true ↔ replicable_closure h q) as [Hb Hm].
  { pose proof (_is_replicable_graph_settled h Hwf (fuel_of h) ∅ [] dp (m, d) b)
      as HS. simpl in HS.
    destruct HS as (HS1 & _ & HS3); [| | |done|].
    - intros q Hq (k' & sub' & Hself). apply Hacyc.
      destruct (well_formed_reach_item h _ _ _ _ Hwf Hself) as [-> _].
      exists q, q, (pred_graph h q), (q, sub'). split; [|done].
      destruct Hq as [->|(k1 & sub1 & Hq)]; [by apply reach_here|].
      destruct (well_formed_reach_item h _ _ _ _ Hwf Hq) as [-> ->].
      by eapply reach_below.
    - intros q b0 _ Hq. by rewrite lookup_empty in Hq.
    - intros y Hy. by apply elem_of_nil in Hy.
    - split; [done|]. intros q b0. apply HS3, lookup_empty. }
  destruct Htop as [(k & sub & Hit)|(p & k & sub & Hp & Hpty & Hprep & Hit)].
  - apply list_elem_of_singleton in Hit. simplify_eq.
    apply Hb in Hx. subst b. simplify_eq. set_solver.
  - assert (Hroot' : items h graph = [(dp, (dp, pred_graph h dp))]) by
      (by rewrite Hroot).
    destruct (find_replicable_branches_enters _ _ _ _ _ _ _ Hroot' Hcall Hp)
      as [bp Hbp]. simpl in Hbp.
    assert (bp = false) as ->.
    { destruct bp; [|done]. destruct Hprep. by apply (Hm p true). }
    pose proof (_is_replicable_graph_children _ _ _ _ _ _ Hcall) as Hch.
    simpl in Hch.
    destruct (Hch p false (lookup_empty p) Hbp Hpty _ Hit) as [[w Hw] Himp].
    simpl in *.
    destruct (Hwf _ _ _ _ Hit) as [Hk _]. unfold id_of in Hk. subst k.
    assert (w = true) as -> by (by apply (Hm x w)).
    assert (x ∈ d) as Hd by (by apply Himp).
    destruct b; simplify_eq; set_solver.
Qed.

(** In a pipeline shaped as a tree, no listed node is a transitive
    predecessor of a listed node. *)
Lemma listed_no_predecessor t it a b :
  represents h t it → (∃ g, it ∈ items h g) → NoDup (nodes t) →
  a ∈ listed h t → b ∈ listed h t → ¬ reach h (pred_graph h a) b.
Proof.
  intros Hrep Hg Hnd Ha Hb (k & sub & Hr).
  pose proof (listed_in_nodes h _ _ Ha) as Ha'. rewrite nodes_subtrees in Ha'.
  apply list_elem_of_fmap in Ha' as (s1 & Heq & Hs1). subst a.
  destruct (subtree_represented h t it s1 Hrep Hg Hs1)
    as ([k1 [a1 g1]] & Hrep1 & g0 & Hin1).
  destruct (Hwf _ _ _ _ Hin1) as [_ ->].
  destruct (represents_root h _ _ Hrep1) as [_ Ha1]. simpl in Ha1. subst a1.
  destruct (represents_below h s1 _ _ Hrep1 Hr) as (s2 & Hs2 & Hrep2).
  destruct (represents_root h _ _ Hrep2) as [_ Hb2]. simpl in Hb2. subst b.
  assert (s2 ∈ subtrees s1) as Hs2' by (destruct s1; simpl in *; set_solver).
  assert (s1 = s2) as <- by apply (listed_antichain h t s1 s2 Hnd Hs1 Hs2' Ha Hb).
  apply (proper_subtree_not_self s1); [|done].
  by apply (NoDup_nodes_subtree t s1).
Qed.
End regions.

(** C2, as stated, fails twice. In [shared_source] the source N (3) is read
    by X, whose other predecessor is a placeholder, by A and by the root; N
    is appended once below X and once below the root, and it is listed next
    to A although it is below A. In [behind_placeholder] the source Z (2)
    has a replicable closure, its only consumer is a placeholder, and
    nothing is listed: the region of Z is omitted. *)
Lemma branch_list_counterexamples :
  (well_formed shared_source
   ∧ find_replicable_branches shared_source 0 = Ret [3; 2; 3]
   ∧ ¬ NoDup [3; 2; 3]
   ∧ reach shared_source (pred_graph shared_source 2) 3)
  ∧ (well_formed behind_placeholder
     ∧ find_replicable_branches behind_placeholder 0 = Ret []
     ∧ reach behind_placeholder 0 2
     ∧ replicable_closure behind_placeholder 2).
Proof.
  split; split_and!.
  - apply snapshot_of_well_formed.
  - reflexivity.
  - intros [Hin _]%NoDup_cons. set_solver.
  - exists 3, 4. apply reach_here. set_solver.
  - apply snapshot_of_well_formed.
  - reflexivity.
  - exists 2, 3. apply (reach_below _ 0 0 0 1); [set_solver|].
    apply (reach_below _ 1 1 1 2); [set_solver|].
    apply reach_here. set_solver.
  - split; [discriminate|]. intros q (k & sub & Hr).
    assert (items behind_placeholder 3 = []) as H3 by reflexivity.
    change (reach_item behind_placeholder 3 (k, (q, sub))) in Hr.
    inversion Hr as [?? Hin|????? Hin _]; subst; rewrite H3 in Hin;
      by apply elem_of_nil in Hin.
Qed.

(** C2, amended. On a graph that follows the data model
    [find_replicable_branches] returns a list such that: every node with a
    replicable closure that can be reached from the root without passing
    through a placeholder is a listed node or a transitive predecessor of a
    listed node, so that no replicable region in sight is omitted, shared
    nodes and reference cycles included; every listed node is at the top of
    a region, that is, it is the root of the graph or a direct predecessor
    of a node whose closure is not replicable; when the graph has no
    reference cycle, the listed nodes are exactly the nodes with a
    replicable closure at the top of a region, the roots of the maximal
    replicable regions; and when the pipeline is shaped as a tree (no
    DataPipe is filed under two consumers), no node is listed twice and no
    listed node is a transitive predecessor of a listed node. *)
Theorem branches_cover_regions (h : Snapshot) (graph : Ref) :
  well_formed h → length (items h graph) = 1 →
  ∃ dps, find_replicable_branches h graph = Ret dps
    ∧ (∀ k c sub, reach_visible h graph (k, (c, sub)) →
         replicable_closure h c → ∃ l, l ∈ dps ∧ at_or_below h l c)
    ∧ (∀ x, x ∈ dps → region_top h graph x)
    ∧ (¬ has_cycle h graph →
       ∀ x, x ∈ dps ↔ replicable_closure h x ∧ region_top h graph x)
    ∧ (∀ t it, items h graph = [it] → represents h t it → NoDup (nodes t) →
         NoDup dps
         ∧ ∀ a b, a ∈ dps → b ∈ dps → ¬ reach h (pred_graph h a) b).
Proof.
  intros Hwf Hlen.
  destruct (find_replicable_branches_total h graph Hlen) as [dps Hrun].
  exists dps. split; [done|]. split_and!.
  - intros k c sub. by apply find_replicable_branches_covers.
  - intros x. by apply find_replicable_branches_maximal.
  - intros Hacyc x. split.
    + intros Hx. split; [by eapply acyclic_branches_replicable|].
      by eapply find_replicable_branches_maximal.
    + intros [Hx Htop]. by eapply find_replicable_branches_exact.
  - intros t it Hroot Hrep Hnd.
    rewrite (find_replicable_branches_tree h graph t it Hroot Hrep Hnd) in Hrun.
    injection Hrun as <-. split; [by apply listed_NoDup|].
    intros a b. apply (listed_no_predecessor h Hwf t it); [done| |done].
    exists graph. rewrite Hroot. set_solver.
Qed.

Lemma branches_cover_regions_witness :
  ∃ dps, find_replicable_branches sibling 0 = Ret dps
    ∧ (∃ l, l ∈ dps ∧ at_or_below sibling l 4)
    ∧ (∀ x, x ∈ dps ↔ replicable_closure sibling x ∧ region_top sibling 0 x)
    ∧ NoDup dps
    ∧ ∀ a b, a ∈ dps → b ∈ dps → ¬ reach sibling (pred_graph sibling a) b.
Proof.
  destruct (branches_cover_regions sibling 0
              (snapshot_of_well_formed _ _) eq_refl)
    as (dps & Hrun & Hcov & Hmax & Hexact & Htree).
  exists dps. split; [done|].
  destruct (Htree sibling_tree (0, (0, 1))) as [Hnd Hanti];
    [reflexivity | simpl; tauto | |].
  { simpl. repeat (apply NoDup_cons_2; [set_solver|]). apply NoDup_nil_2. }
  split_and!; [| |done|done].
  - apply (Hcov 4 4 5).
    + apply (visible_below _ 0 0 0 1); [set_solver|discriminate|].
      apply (visible_below _ 1 2 2 3); [set_solver|discriminate|].
      apply visible_here. set_solver.
    + split; [discriminate|]. intros q (k & sub & Hr).
      assert (items sibling 5 = []) as H5 by reflexivity.
      change (reach_item sibling 5 (k, (q, sub))) in Hr.
      inversion Hr as [?? Hin|????? Hin _]; subst; rewrite H5 in Hin;
        by apply elem_of_nil in Hin.
  - apply Hexact, snapshot_of_no_cycle. intros n l d Hl Hd.
    do 5 (destruct n as [|n]; [simpl in Hl; simplify_eq; set_solver by lia|]).
    done.
Defined.

(** ** Further properties of the branch extraction *)

Section branch_listing.
Context (h : Snapshot) (Q : DataPipe → Prop).

(** Only nodes that are filed under an entry [True] are listed, and an entry
    [True] is only written for a node that is not a placeholder. *)
Lemma _is_replicable_graph_listed fuel memo dps (k : nat) dp g st b :
  k = dp → Q dp →
  (∀ k' dp' sub', reach_item h g (k', (dp', sub')) → k' = dp' ∧ Q dp') →
  (∀ q, memo !! q = Some true → type_of h q ≠ _DummyIterDataPipe) →
  (∀ x, x ∈ dps → Q x ∧ type_of h x ≠ _DummyIterDataPipe) →
  _is_replicable_graph h fuel (memo, dps) k dp g = Ret (st, b) →
  (∀ q, st.1 !! q = Some true → type_of h q ≠ _DummyIterDataPipe)
  ∧ (∀ x, x ∈ st.2 → Q x ∧ type_of h x ≠ _DummyIterDataPipe).
Proof.
  revert memo dps k dp g st b.
  induction fuel as [|n IH];
    intros memo dps k dp g st b -> HQ Hbelow Hmemo Hdps Hrun; [done|].
  rewrite _is_replicable_graph_unfold in Hrun.
  destruct (memo !! dp) as [b0|] eqn:Hmdp; [by simplify_eq|].
  destruct (decide (type_of h dp = _DummyIterDataPipe)) as [Hty|Hty].
  { simplify_eq. split; [|done]. simpl.
    intros q [[_ ?]|[_ ?]]%lookup_insert_Some; [done|by apply Hmemo]. }
  apply bind_Ret_inv in Hrun as ([m1 d1] & Hloop & Hrun).
  apply bind_Ret_inv in Hrun as (b1 & Hget1 & Hrun).
  apply bind_Ret_inv in Hrun as ([m2 d2] & Happ & Hrun).
  apply bind_Ret_inv in Hrun as (b2 & Hget2 & Hrun). simplify_eq. simpl in *.
  assert ((∀ q, m1 !! q = Some true → type_of h q ≠ _DummyIterDataPipe)
          ∧ (∀ x, x ∈ d1 → Q x ∧ type_of h x ≠ _DummyIterDataPipe))
    as [Hm1 Hd1].
  { unfold visit_children in Hloop.
    apply (for_each_inv
             (λ _ (st : branch_state),
                (∀ q, st.1 !! q = Some true →
                      type_of h q ≠ _DummyIterDataPipe)
                ∧ (∀ x, x ∈ st.2 → Q x ∧ type_of h x ≠ _DummyIterDataPipe))
             _ _ _ _ Hloop).
    { simpl. split; [|done].
      intros q [[<- _]|[_ ?]]%lookup_insert_Some; [done|by apply Hmemo]. }
    intros pre [k' [c sub]] post [m3 d3] [m4 d4] Hitems [Hm3 Hd3] Hbody.
    simpl in *.
    assert ((k', (c, sub)) ∈ items h g) as Hin by (rewrite Hitems; set_solver).
    destruct (Hbelow k' c sub) as [-> Hc]; [by apply reach_here|].
    apply bind_Ret_inv in Hbody as ([[m5 d5] b5] & Hcall & Hbody).
    assert (∀ k2 dp2 sub2, reach_item h sub (k2, (dp2, sub2)) →
              k2 = dp2 ∧ Q dp2) as Hbelow_c.
    { intros k2 dp2 sub2 Hr. apply (Hbelow k2 dp2 sub2). by eapply reach_below. }
    destruct (IH _ _ _ _ _ _ _ eq_refl Hc Hbelow_c Hm3 Hd3 Hcall)
      as [Hm5 Hd5]. simpl in *.
    destruct b5; simpl in Hbody; simplify_eq; split; try done.
    intros q [[_ ?]|[_ ?]]%lookup_insert_Some; [done|by apply Hm5]. }
  destruct b1; simpl in Happ; [by simplify_eq|].
  assert (m2 = m1
          ∧ (∀ x, x ∈ d2 → Q x ∧ type_of h x ≠ _DummyIterDataPipe))
    as [-> Hd2]; [|done].
  unfold append_replicable_children in Happ.
  apply (for_each_inv
           (λ _ (st : branch_state),
              st.1 = m1
              ∧ (∀ x, x ∈ st.2 → Q x ∧ type_of h x ≠ _DummyIterDataPipe))
           _ _ _ _ Happ); [done|].
  intros pre [k' [c sub]] post [m3 d3] [m4 d4] Hitems [Hm3 Hd3] Hbody.
  simpl in *. subst m3.
  assert ((k', (c, sub)) ∈ items h g) as Hin by (rewrite Hitems; set_solver).
  destruct (Hbelow k' c sub) as [-> Hc]; [by apply reach_here|].
  apply bind_Ret_inv in Hbody as (bc & Hgetc & Hbody).
  apply getitem_Ret in Hgetc.
  destruct bc; simpl in Hbody; simplify_eq; [|done].
  split; [done|]. intros x [Hx|Hx]%elem_of_app; [by apply Hd3|].
  apply list_elem_of_singleton in Hx as ->. split; [done|]. by apply Hm1.
Qed.
End branch_listing.

(** X1. On every graph with exactly one root, shared nodes and reference
    cycles included, both functions return a value: no lookup in a memo table
    (lines 85, 114, 117 and 119) raises [KeyError]. *)
Theorem branches_always_returned (h : Snapshot) (graph : Ref) :
  length (items h graph) = 1 →
  (∃ dps, find_replicable_branches h graph = Ret dps)
  ∧ (∃ r, find_lca_non_replicable_dp h graph = Ret r).
Proof.
  intros Hlen. split.
  - by apply find_replicable_branches_total.
  - by apply find_lca_non_replicable_dp_total.
Qed.

Lemma branches_always_returned_witness :
  (∃ dps, find_replicable_branches shared_source 0 = Ret dps)
  ∧ (∃ r, find_lca_non_replicable_dp shared_source 0 = Ret r).
Proof. apply branches_always_returned. reflexivity. Defined.

(** X2. On a graph that follows the data model, reference cycles included,
    every DataPipe that [find_replicable_branches] lists is a node of the
    graph and is not a placeholder. *)
Theorem listed_nodes_are_graph_nodes (h : Snapshot) (graph : Ref)
    (dps : list DataPipe) :
  well_formed h →
  find_replicable_branches h graph = Ret dps →
  ∀ x, x ∈ dps → reach h graph x ∧ type_of h x ≠ _DummyIterDataPipe.
Proof.
  intros Hwf Hrun. unfold find_replicable_branches in Hrun.
  destruct (items h graph) as [|[k [dp g]] [|??]] eqn:Hroot; try done.
  assert ((k, (dp, g)) ∈ items h graph) as Hin by (rewrite Hroot; set_solver).
  destruct (Hwf _ _ _ _ Hin) as [Hk _]. unfold id_of in Hk.
  assert (reach h graph dp) as Hdp by (exists k, g; by apply reach_here).
  apply bind_Ret_inv in Hrun as ([[m d] b] & Hcall & Hrun).
  pose proof Hcall as Hmono.
  apply _is_replicable_graph_mono in Hmono as (_ & Hmk & _).
  assert (∀ k' dp' sub', reach_item h g (k', (dp', sub')) →
            k' = dp' ∧ reach h graph dp') as Hbelow.
  { intros k' dp' sub' Hr.
    assert (reach_item h graph (k', (dp', sub'))) as Hr'
      by (by eapply reach_below).
    split; [|by exists k', sub'].
    by destruct (well_formed_reach_item h _ _ _ _ Hwf Hr'). }
  assert (∀ q, (∅ : gmap nat bool) !! q = Some true →
               type_of h q ≠ _DummyIterDataPipe) as Hm0.
  { intros q Hq. by rewrite lookup_empty in Hq. }
  assert (∀ x, x ∈ ([] : list DataPipe) →
               reach h graph x ∧ type_of h x ≠ _DummyIterDataPipe) as Hd0.
  { intros x Hx. by apply elem_of_nil in Hx. }
  destruct (_is_replicable_graph_listed h (reach h graph) _ _ _ _ _ _ _ _
              Hk Hdp Hbelow Hm0 Hd0 Hcall) as [Hm Hd]. simpl in *.
  destruct b; simplify_eq; [|done].
  intros x [Hx|Hx]%elem_of_app; [by apply Hd|].
  apply list_elem_of_singleton in Hx as ->. split; [done|]. by apply Hm.
Qed.

Lemma listed_nodes_are_graph_nodes_witness :
  reach cyclic_placeholder 0 1
  ∧ type_of cyclic_placeholder 1 ≠ _DummyIterDataPipe.
Proof.
  apply (listed_nodes_are_graph_nodes cyclic_placeholder 0 [1]);
    [apply snapshot_of_well_formed | reflexivity | set_solver].
Defined.

(** X3. On a graph that follows the data model and has no reference cycle,
    [find_replicable_branches] returns a list, and every DataPipe in it has a
    replicable closure: no placeholder is at or below it. *)
Theorem acyclic_listed_nodes_replicable (h : Snapshot) (graph : Ref) :
  well_formed h → ¬ has_cycle h graph → length (items h graph) = 1 →
  ∃ dps, find_replicable_branches h graph = Ret dps
         ∧ ∀ x, x ∈ dps → replicable_closure h x.
Proof.
  intros Hwf Hacyc Hlen.
  destruct (find_replicable_branches_total h graph Hlen) as [dps Hrun].
  exists dps. split; [done|]. by eapply acyclic_branches_replicable.
Qed.

Lemma acyclic_listed_nodes_replicable_witness :
  ∃ dps, find_replicable_branches shared_source 0 = Ret dps
         ∧ ∀ x, x ∈ dps → replicable_closure shared_source x.
Proof.
  apply acyclic_listed_nodes_replicable;
    [apply snapshot_of_well_formed | | reflexivity].
  apply snapshot_of_no_cycle. intros n l d Hl Hd.
  do 5 (destruct n as [|n]; [simpl in Hl; simplify_eq; set_solver by lia|]).
  done.
Defined.

(** X4. On a graph none of whose nodes is a placeholder, reference cycles
    included, [find_replicable_branches] returns exactly the root. *)
Theorem no_placeholder_whole_graph (h : Snapshot) (graph : Ref) (k : nat)
    (dp : DataPipe) (g : Ref) :
  items h graph = [(k, (dp, g))] →
  (∀ q, reach h graph q → type_of h q ≠ _DummyIterDataPipe) →
  find_replicable_branches h graph = Ret [dp].
Proof.
  intros Hroot Hno.
  destruct (find_replicable_branches_total h graph) as [dps Hrun];
    [by rewrite Hroot|].
  rewrite Hrun. f_equal.
  unfold find_replicable_branches in Hrun. rewrite Hroot in Hrun.
  apply bind_Ret_inv in Hrun as ([[m d] b] & Hcall & Hrun).
  assert (type_of h dp ≠ _DummyIterDataPipe) as Hty.
  { apply Hno. exists k, g. apply reach_here. rewrite Hroot. set_solver. }
  assert ((∅ : gmap nat bool) !! k ≠ Some false) as Hk
    by (by rewrite lookup_empty).
  assert (∀ k' dp' sub', reach_item h g (k', (dp', sub')) →
            type_of h dp' ≠ _DummyIterDataPipe
            ∧ (∅ : gmap nat bool) !! k' ≠ Some false) as Hbelow.
  { intros k' dp' sub' Hr. split; [|by rewrite lookup_empty].
    apply Hno. exists k', sub'. apply (reach_below h graph k dp g); [|done].
    rewrite Hroot. set_solver. }
  destruct (_is_replicable_graph_clean h _ _ _ _ _ _ _ _ _ Hty Hk Hbelow Hcall)
    as (-> & -> & _).
  by simplify_eq.
Qed.

Lemma no_placeholder_whole_graph_witness :
  find_replicable_branches plain_chain 0 = Ret [0].
Proof.
  apply (no_placeholder_whole_graph plain_chain 0 0 0 1); [reflexivity|].
  intros q _. simpl. discriminate.
Defined.

(** X8. A visit of the branch extraction never changes an entry that was in
    the table before it, and it leaves an entry for the visited key that holds
    the returned flag: any later visit under that key, from whatever parent,
    returns that flag at once and changes neither the table nor the list. *)
Theorem visited_node_is_settled (h : Snapshot) (fuel : nat)
    (memo : gmap nat bool) (dps : list DataPipe) (k : nat) (dp : DataPipe)
    (g : Ref) (st : branch_state) (b : bool) :
  _is_replicable_graph h fuel (memo, dps) k dp g = Ret (st, b) →
  memo ⊆ st.1
  ∧ ∀ n dp' g', _is_replicable_graph h (S n) st k dp' g' = Ret (st, b).
Proof.
  destruct st as [m d]. intros Hrun.
  apply _is_replicable_graph_mono in Hrun as (Hsub & Hk & _).
  split; [done|]. intros n dp' g'.
  by rewrite _is_replicable_graph_unfold, Hk.
Qed.

Lemma visited_node_is_settled_witness :
  ∃ st b, _is_replicable_graph sibling 4 (∅, []) 0 0 1 = Ret (st, b)
    ∧ ∀ n dp' g', _is_replicable_graph sibling (S n) st 0 dp' g' = Ret (st, b).
Proof.
  eexists _, _. split; [vm_compute; reflexivity|].
  eapply (visited_node_is_settled sibling 4 ∅ [] 0 0 1).
  vm_compute. reflexivity.
Defined.

(** ** Further properties of the cut-point reduction *)

Section cut_point_values.
Context (h : Snapshot) (nrd : gset nat).

(** Every node in the table is the node of a visited item. *)
Lemma _get_lca_from_graph_values (Q : DataPipe → Prop) fuel memo k dp g
    memo' r :
  Q dp →
  (∀ k' dp' sub', reach_item h g (k', (dp', sub')) → Q dp') →
  (∀ q v, memo !! q = Some (Some v) → Q v) →
  _get_lca_from_graph h nrd fuel memo k dp g = Ret (memo', r) →
  ∀ q v, memo' !! q = Some (Some v) → Q v.
Proof.
  revert memo k dp g memo' r.
  induction fuel as [|n IH]; intros memo k dp g memo' r HQ Hbelow Hmemo Hrun;
    [done|].
  rewrite _get_lca_from_graph_unfold in Hrun.
  destruct (memo !! k) as [r0|] eqn:Hmk; [by simplify_eq|].
  destruct (decide (k ∈ nrd)).
  { simplify_eq. intros q v [[_ ?]|[_ ?]]%lookup_insert_Some;
      [by simplify_eq|by eapply Hmemo]. }
  apply bind_Ret_inv in Hrun as ([m ps] & Hloop & Hrun).
  apply bind_Ret_inv in Hrun as (r1 & _ & Hrun). simplify_eq.
  assert ((∀ q v, m !! q = Some (Some v) → Q v) ∧ (∀ x, x ∈ ps → Q x))
    as [Hm Hps].
  { unfold lca_parents in Hloop.
    apply (for_each_inv
             (λ _ (st : gmap nat (option DataPipe) * list DataPipe),
                (∀ q v, st.1 !! q = Some (Some v) → Q v)
                ∧ (∀ x, x ∈ st.2 → Q x)) _ _ _ _ Hloop).
    { simpl. split; [|by intros x ?%elem_of_nil].
      intros q v [[_ ?]|[_ ?]]%lookup_insert_Some; [done|by eapply Hmemo]. }
    intros pre [k' [c sub]] post [m3 ps3] [m4 ps4] Hitems [Hm3 Hps3] Hbody.
    simpl in *.
    assert ((k', (c, sub)) ∈ items h g) as Hin by (rewrite Hitems; set_solver).
    apply bind_Ret_inv in Hbody as ([m5 r5] & Hcall & Hbody). simplify_eq.
    pose proof Hcall as Hmono.
    apply _get_lca_from_graph_mono in Hmono as [_ Hr5].
    assert (∀ q v, m4 !! q = Some (Some v) → Q v) as Hm4.
    { eapply (IH m3 k' c sub); [| |done|done].
      - apply (Hbelow k' c sub). by apply reach_here.
      - intros k2 dp2 sub2 Hr. apply (Hbelow k2 dp2 sub2).
        by eapply reach_below. }
    split; [done|]. destruct r5 as [x5|]; [|done].
    intros x [Hx|Hx]%elem_of_app; [by apply Hps3|].
    apply list_elem_of_singleton in Hx as ->. by eapply Hm4. }
  unfold lca_record. destruct ps as [|p0 ps]; [done|].
  destruct (_ || _); intros q v [[_ ?]|[_ ?]]%lookup_insert_Some;
    simplify_eq; try (by eapply Hm).
  - apply Hps. set_solver.
  - done.
Qed.

(** When no visited key is in the set, nothing but [None] is recorded. *)
Lemma _get_lca_from_graph_unmarked fuel memo k dp g memo' r :
  (∀ q v, memo !! q = Some v → v = None) →
  k ∉ nrd →
  (∀ k' v, reach_item h g (k', v) → k' ∉ nrd) →
  _get_lca_from_graph h nrd fuel memo k dp g = Ret (memo', r) →
  r = None ∧ ∀ q v, memo' !! q = Some v → v = None.
Proof.
  revert memo k dp g memo' r.
  induction fuel as [|n IH]; intros memo k dp g memo' r Hnone Hk Hbelow Hrun;
    [done|].
  rewrite _get_lca_from_graph_unfold in Hrun.
  destruct (memo !! k) as [r0|] eqn:Hmk.
  { simplify_eq. split; [by eapply Hnone|done]. }
  rewrite decide_False in Hrun by done.
  apply bind_Ret_inv in Hrun as ([m ps] & Hloop & Hrun).
  apply bind_Ret_inv in Hrun as (r1 & Hget & Hrun). simplify_eq.
  unfold lca_parents in Hloop.
  apply (for_each_inv
           (λ _ (st : gmap nat (option DataPipe) * list DataPipe),
              (∀ q v, st.1 !! q = Some v → v = None) ∧ st.2 = [])) in Hloop.
  - simpl in Hloop. destruct Hloop as [Hm ->]. simpl in *.
    apply getitem_Ret in Hget. split; [by eapply Hm|done].
  - simpl. split; [|done]. intros q v [[_ <-]|[_ Hq]]%lookup_insert_Some; eauto.
  - intros pre [k' [dp' sub]] post [m1 ps1] [m2 ps2] Hitems [Hm1 Hps1] Hbody.
    simpl in *. subst.
    assert ((k', (dp', sub)) ∈ items h g) as Hin
      by (rewrite Hitems; set_solver).
    apply bind_Ret_inv in Hbody as ([m3 r3] & Hcall & Hbody).
    apply IH in Hcall as [-> Hm3]; [by simplify_eq|done| |].
    + apply (Hbelow k' (dp', sub)). by apply reach_here.
    + intros k2 v2 Hr. apply (Hbelow k2 v2). by eapply reach_below.
Qed.
End cut_point_values.

Section cut_point_none.
Context (h : Snapshot) (nrd : gset nat).
Hypothesis Hwf : well_formed h.

(** A visit that answers [None] has entered no key of the set, has recorded
    [None] for every key it entered, and has an entry for every predecessor
    of every key it entered. *)
Lemma _get_lca_from_graph_none fuel memo (dp : nat) memo' r :
  _get_lca_from_graph h nrd fuel memo dp dp (pred_graph h dp)
  = Ret (memo', r) →
  r = None →
  ∀ q v, memo !! q = None → memo' !! q = Some v →
    v = None ∧ (q ∉ nrd)
    ∧ ∀ k' v', (k', v') ∈ items h (pred_graph h q) → is_Some (memo' !! k').
Proof.
  revert memo dp memo' r.
  induction fuel as [|n IH]; intros memo dp memo' r Hrun Hr; [done|].
  rewrite _get_lca_from_graph_unfold in Hrun.
  destruct (memo !! dp) as [r0|] eqn:Hmdp.
  { simplify_eq. intros q v Hq Hq'. congruence. }
  destruct (decide (dp ∈ nrd)) as [|Hdp]; [by simplify_eq|].
  apply bind_Ret_inv in Hrun as ([m1 ps] & Hloop & Hrun).
  apply bind_Ret_inv in Hrun as (r1 & Hget & Hrun). simplify_eq.
  apply getitem_Ret in Hget.
  assert (ps = []) as ->.
  { destruct ps as [|p0 ps]; [done|]. unfold lca_record in Hget.
    destruct (_ || _); by rewrite lookup_insert_eq in Hget. }
  simpl in *.
  cut (<[dp:=None]> memo ⊆ m1
       ∧ (([] : list DataPipe) = [] →
          (∀ q v, q ≠ dp → memo !! q = None → m1 !! q = Some v →
             v = None ∧ (q ∉ nrd)
             ∧ ∀ k' v', (k', v') ∈ items h (pred_graph h q) →
                        is_Some (m1 !! k'))
          ∧ ∀ it, it ∈ items h (pred_graph h dp) → is_Some (m1 !! it.1))).
  { intros [Hsub Hfacts]. destruct (Hfacts eq_refl) as [HA HB].
    intros q v Hq Hq'. destruct (decide (q = dp)) as [->|Hne].
    - assert (m1 !! dp = Some None) as Hm1dp
        by (eapply lookup_weaken; [apply lookup_insert_eq|done]).
      pose proof (eq_trans (eq_sym Hq') Hm1dp) as Heq. injection Heq as ->.
      split_and!; [done|done|]. intros k' v' Hin. by apply (HB (k', v')).
    - by apply HA. }
  unfold lca_parents in Hloop.
  apply (for_each_inv
           (λ pre (st : gmap nat (option DataPipe) * list DataPipe),
              <[dp:=None]> memo ⊆ st.1
              ∧ (st.2 = [] →
                 (∀ q v, q ≠ dp → memo !! q = None → st.1 !! q = Some v →
                    v = None ∧ (q ∉ nrd)
                    ∧ ∀ k' v', (k', v') ∈ items h (pred_graph h q) →
                               is_Some (st.1 !! k'))
                 ∧ ∀ it, it ∈ pre → is_Some (st.1 !! it.1)))
           _ _ _ _ Hloop).
  { simpl. split; [done|]. intros _. split.
    - intros q v Hq Hnone. rewrite lookup_insert_ne by done. congruence.
    - intros it Hit. by apply elem_of_nil in Hit. }
  intros pre [k [c sub]] post [m3 ps3] [m4 ps4] Hitems [Hsub3 Hfacts3] Hbody.
  simpl in *.
  assert ((k, (c, sub)) ∈ items h (pred_graph h dp)) as Hin
    by (rewrite Hitems; set_solver).
  destruct (Hwf _ _ _ _ Hin) as [Hk ->]. unfold id_of in Hk. subst k.
  apply bind_Ret_inv in Hbody as ([m5 r5] & Hcall & Hbody). simplify_eq.
  pose proof Hcall as Hmono.
  apply _get_lca_from_graph_mono in Hmono as [Hsub5 Hr5].
  split; [by etrans|].
  intros Hnil. destruct r5 as [x5|]; [by destruct ps3|]. subst ps3.
  destruct (Hfacts3 eq_refl) as [HA3 HB3].
  pose proof (IH _ _ _ _ Hcall eq_refl) as Hnew.
  split.
  - intros q v Hq Hnone Hm4. destruct (m3 !! q) as [v3|] eqn:Hm3.
    + assert (m4 !! q = Some v3) as Hm4' by (by eapply lookup_weaken).
      destruct (HA3 q v3 Hq Hnone Hm3) as (-> & ? & Hch).
      split_and!; [congruence|done|].
      intros k' v' Hin'. destruct (Hch k' v' Hin') as [w Hw].
      exists w. by eapply lookup_weaken.
    + by apply Hnew.
  - intros it [Hit|Hit]%elem_of_app.
    + destruct (HB3 it Hit) as [w Hw]. exists w. by eapply lookup_weaken.
    + apply list_elem_of_singleton in Hit as ->. simpl. eauto.
Qed.

(** A set of keys that has the predecessors of each of its keys has every
    key below its keys. *)
Lemma closed_keys_reach (Z : nat → Prop) (q : nat) it :
  (∀ q, Z q → ∀ k' v', (k', v') ∈ items h (pred_graph h q) → Z k') →
  Z q → reach_item h (pred_graph h q) it → Z it.1.
Proof.
  intros Hclosed Hq Hr. remember (pred_graph h q) as g eqn:Hg.
  revert q Hq Hg.
  induction Hr as [g [k1 v1] Hin|g k1 dp1 sub1 it Hin Hr IH]; intros q Hq ->.
  - by eapply Hclosed.
  - destruct (Hwf _ _ _ _ Hin) as [Hk ->]. unfold id_of in Hk. subst k1.
    apply (IH dp1); [|done]. by eapply Hclosed.
Qed.

Lemma find_lca_none_iff graph k dp g :
  items h graph = [(k, (dp, g))] →
  mark_non_replicable h graph = Ret nrd →
  find_lca_non_replicable_dp h graph = Ret None
  ↔ ∀ x, reach h graph x → id_of x ∉ nrd.
Proof.
  intros Hroot Hmark.
  assert ((k, (dp, g)) ∈ items h graph) as Hin by (rewrite Hroot; set_solver).
  destruct (Hwf _ _ _ _ Hin) as [Hk Hg]. unfold id_of in *. subst k g.
  assert (∀ x, reach h graph x ↔
               x = dp ∨ ∃ v, reach_item h (pred_graph h dp) (x, v))
    as Hreach.
  { intros x. split.
    - intros (k & sub & Hr).
      destruct (well_formed_reach_item h _ _ _ _ Hwf Hr) as [-> _].
      inversion Hr as [? ? Hin'|? k1 dp1 sub1 ? Hin' Hr']; subst;
        rewrite Hroot in Hin'; apply list_elem_of_singleton in Hin';
        simplify_eq; eauto.
    - intros [->|[[x' sub] Hr]]; [by exists dp, (pred_graph h dp); apply reach_here|].
      assert (reach_item h graph (x, (x', sub))) as Hr'
        by (by eapply reach_below).
      destruct (well_formed_reach_item h _ _ _ _ Hwf Hr') as [-> _].
      by exists x', sub. }
  destruct (find_lca_non_replicable_dp_total h graph) as [r Hrun];
    [by rewrite Hroot|].
  rewrite Hrun. unfold find_lca_non_replicable_dp in Hrun.
  rewrite Hroot, Hmark, bind_Ret in Hrun.
  apply bind_Ret_inv in Hrun as ([m r'] & Hcall & ?). simplify_eq.
  split.
  - intros Hnone. simplify_eq.
    pose proof (_get_lca_from_graph_none _ _ _ _ _ Hcall eq_refl) as Hclosed.
    pose proof Hcall as Hmono.
    apply _get_lca_from_graph_mono in Hmono as [_ Hmdp].
    assert (∀ q, is_Some (m !! q) →
              (q ∉ nrd) ∧ ∀ k' v', (k', v') ∈ items h (pred_graph h q) →
                                 is_Some (m !! k')) as HZ.
    { intros q [v Hv]. by destruct (Hclosed q v (lookup_empty q) Hv) as (_&?&?). }
    intros x [->|[v Hr]]%Hreach; [apply HZ; eauto|].
    apply HZ. apply (closed_keys_reach (λ q, is_Some (m !! q)) dp (x, v));
      [|eauto|done].
    intros q Hq. by apply HZ.
  - intros Hno. f_equal.
    apply _get_lca_from_graph_unmarked in Hcall as [-> _]; [done| | |].
    + intros q v Hq. by rewrite lookup_empty in Hq.
    + apply Hno, Hreach. auto.
    + intros k' v Hr. apply Hno, Hreach. eauto.
Qed.
End cut_point_none.

Section cut_point_single.
Context (h : Snapshot) (nrd : gset nat) (M : DataPipe).

(** When only one node can be entered through a key of the set, no other
    node is ever recorded. *)
Lemma _get_lca_from_graph_single fuel memo k dp g memo' r :
  (k ∈ nrd → dp = M) →
  (k ∉ nrd → ∀ k' dp' sub',
     reach_outside h nrd g (k', (dp', sub')) → k' ∈ nrd → dp' = M) →
  (∀ q v, memo !! q = Some (Some v) → v = M) →
  _get_lca_from_graph h nrd fuel memo k dp g = Ret (memo', r) →
  ∀ q v, memo' !! q = Some (Some v) → v = M.
Proof.
  revert memo k dp g memo' r.
  induction fuel as [|n IH]; intros memo k dp g memo' r Hk Hbelow Hmemo Hrun;
    [done|].
  rewrite _get_lca_from_graph_unfold in Hrun.
  destruct (memo !! k) as [r0|] eqn:Hmk; [by simplify_eq|].
  destruct (decide (k ∈ nrd)) as [|Hout].
  { simplify_eq. intros q v [[_ ?]|[_ ?]]%lookup_insert_Some;
      [simplify_eq; by apply Hk|by eapply Hmemo]. }
  specialize (Hbelow Hout).
  apply bind_Ret_inv in Hrun as ([m ps] & Hloop & Hrun).
  apply bind_Ret_inv in Hrun as (r1 & _ & Hrun). simplify_eq.
  assert ((∀ q v, m !! q = Some (Some v) → v = M) ∧ (∀ x, x ∈ ps → x = M))
    as [Hm Hps].
  { unfold lca_parents in Hloop.
    apply (for_each_inv
             (λ _ (st : gmap nat (option DataPipe) * list DataPipe),
                (∀ q v, st.1 !! q = Some (Some v) → v = M)
                ∧ (∀ x, x ∈ st.2 → x = M)) _ _ _ _ Hloop).
    { simpl. split; [|by intros x ?%elem_of_nil].
      intros q v [[_ ?]|[_ ?]]%lookup_insert_Some; [done|by eapply Hmemo]. }
    intros pre [k' [c sub]] post [m3 ps3] [m4 ps4] Hitems [Hm3 Hps3] Hbody.
    simpl in *.
    assert ((k', (c, sub)) ∈ items h g) as Hin by (rewrite Hitems; set_solver).
    apply bind_Ret_inv in Hbody as ([m5 r5] & Hcall & Hbody). simplify_eq.
    pose proof Hcall as Hmono.
    apply _get_lca_from_graph_mono in Hmono as [_ Hr5].
    assert (∀ q v, m4 !! q = Some (Some v) → v = M) as Hm4.
    { eapply (IH m3 k' c sub); [| |done|done].
      - apply (Hbelow k' c sub). by apply outside_here.
      - intros Hk' k2 dp2 sub2 Hr. apply (Hbelow k2 dp2 sub2).
        by eapply outside_below. }
    split; [done|]. destruct r5 as [x5|]; [|done].
    intros x [Hx|Hx]%elem_of_app; [by apply Hps3|].
    apply list_elem_of_singleton in Hx as ->. by eapply Hm4. }
  unfold lca_record. destruct ps as [|p0 ps]; [done|].
  assert (forallb (λ d : DataPipe, bool_decide (d = p0)) (p0 :: ps) = true)
    as ->.
  { apply forallb_forall. intros x Hx%list_elem_of_In.
    apply bool_decide_eq_true. rewrite (Hps x), (Hps p0); set_solver. }
  rewrite orb_true_r.
  intros q v [[_ ?]|[_ ?]]%lookup_insert_Some; [|by eapply Hm].
  simplify_eq. apply Hps. set_solver.
Qed.

Lemma reach_outside_reach_item g it :
  reach_outside h nrd g it → reach_item h g it.
Proof.
  induction 1; [by apply reach_here|by eapply reach_below].
Qed.
End cut_point_single.

(** X5. A DataPipe returned by [find_lca_non_replicable_dp] is a node of the
    graph. *)
Theorem cut_point_is_graph_node (h : Snapshot) (graph : Ref) (x : DataPipe) :
  find_lca_non_replicable_dp h graph = Ret (Some x) → reach h graph x.
Proof.
  intros Hrun. unfold find_lca_non_replicable_dp in Hrun.
  destruct (items h graph) as [|[k [dp g]] [|??]] eqn:Hroot; try done.
  apply bind_Ret_inv in Hrun as (nrd & _ & Hrun).
  apply bind_Ret_inv in Hrun as ([m r] & Hcall & ?). simplify_eq.
  pose proof Hcall as Hmono.
  apply _get_lca_from_graph_mono in Hmono as [_ Hmk].
  eapply (_get_lca_from_graph_values h nrd (reach h graph)); [| | |done|done].
  - exists k, g. apply reach_here. rewrite Hroot. set_solver.
  - intros k' dp' sub' Hr. exists k', sub'.
    apply (reach_below h graph k dp g); [|done]. rewrite Hroot. set_solver.
  - intros q v Hq. by rewrite lookup_empty in Hq.
Qed.

Lemma cut_point_is_graph_node_witness : reach two_chains 0 0.
Proof. apply (cut_point_is_graph_node two_chains 0 0). reflexivity. Defined.

(** X6. On a graph that follows the data model,
    [find_lca_non_replicable_dp] returns [None] exactly when no node of the
    graph is a [ShardingRoundRobinDispatcher], reference cycles included. *)
Theorem cut_point_none_iff (h : Snapshot) (graph : Ref) :
  well_formed h → length (items h graph) = 1 →
  find_lca_non_replicable_dp h graph = Ret None
  ↔ ∀ x, reach h graph x → type_of h x ≠ ShardingRoundRobinDispatcher.
Proof.
  intros Hwf Hlen.
  destruct (items h graph) as [|[k [dp g]] [|??]] eqn:Hroot; try done.
  destruct (mark_non_replicable_total h graph) as [nrd Hmark].
  rewrite (find_lca_none_iff h nrd Hwf graph k dp g Hroot Hmark).
  split.
  - intros Hno x Hx Hty. apply (Hno x Hx).
    apply (mark_non_replicable_spec h Hwf graph nrd); [done|].
    exists x. split_and!; [done..|]. by left.
  - intros Hno x Hx Hin.
    apply (mark_non_replicable_spec h Hwf graph nrd) in Hin
      as (M & HM & Hty & _); [|done].
    by apply (Hno M).
Qed.

Lemma cut_point_none_iff_witness :
  find_lca_non_replicable_dp plain_chain 0 = Ret None
  ↔ ∀ x, reach plain_chain 0 x →
      type_of plain_chain x ≠ ShardingRoundRobinDispatcher.
Proof.
  apply cut_point_none_iff; [apply snapshot_of_well_formed | reflexivity].
Defined.

(** X7. On a graph that follows the data model, when a node [M] of the
    non-replicable set is the only node of the set that can be reached from
    the root without passing through another node of the set,
    [find_lca_non_replicable_dp] returns [M]: a pipeline that reads all its
    non-replicable part through one dispatcher is cut at that dispatcher. *)
Theorem single_non_replicable_node (h : Snapshot) (graph : Ref)
    (nrd : gset nat) (M : DataPipe) :
  well_formed h → length (items h graph) = 1 →
  mark_non_replicable h graph = Ret nrd →
  reach h graph M → id_of M ∈ nrd →
  (∀ k x sub, reach_outside h nrd graph (k, (x, sub)) → id_of x ∈ nrd →
     x = M) →
  find_lca_non_replicable_dp h graph = Ret (Some M).
Proof.
  intros Hwf Hlen Hmark HM HMin Honly.
  destruct (items h graph) as [|[k [dp g]] [|??]] eqn:Hroot; try done.
  destruct (find_lca_non_replicable_dp_total h graph) as [r Hrun];
    [by rewrite Hroot|].
  rewrite Hrun. f_equal. destruct r as [x|].
  - f_equal. unfold find_lca_non_replicable_dp in Hrun.
    rewrite Hroot, Hmark, bind_Ret in Hrun.
    apply bind_Ret_inv in Hrun as ([m r] & Hcall & ?). simplify_eq.
    pose proof Hcall as Hmono.
    apply _get_lca_from_graph_mono in Hmono as [_ Hmk].
    assert ((k, (dp, g)) ∈ items h graph) as Hin
      by (rewrite Hroot; set_solver).
    destruct (Hwf _ _ _ _ Hin) as [-> _]. unfold id_of in *.
    eapply (_get_lca_from_graph_single h nrd M); [| | |done|done].
    + intros Hdp. apply (Honly dp dp g); [|done]. by apply outside_here.
    + intros Hdp k' dp' sub' Hr Hk'.
      assert (reach_outside h nrd graph (k', (dp', sub'))) as Hr'
        by (by eapply outside_below).
      apply reach_outside_reach_item in Hr as Hr0.
      assert (reach_item h graph (k', (dp', sub'))) as Hr1
        by (by eapply reach_below).
      destruct (well_formed_reach_item h _ _ _ _ Hwf Hr1) as [-> _].
      by apply (Honly dp' dp' sub').
    + intros q v Hq. by rewrite lookup_empty in Hq.
  - exfalso.
    destruct (find_lca_none_iff h nrd Hwf graph k dp g Hroot Hmark)
      as [Hto _].
    by apply (Hto Hrun M).
Qed.

Lemma single_non_replicable_node_witness :
  find_lca_non_replicable_dp one_marker 0 = Ret (Some 1).
Proof.
  apply (single_non_replicable_node one_marker 0 {[1; 2]} 1);
    [apply snapshot_of_well_formed | reflexivity | vm_compute; reflexivity
    | | set_solver | ].
  - exists 1, 2. apply (reach_below _ 0 0 0 1); [set_solver|].
    apply reach_here. set_solver.
  - assert (items one_marker 0 = [(0, (0, 1))]) as H0 by reflexivity.
    assert (items one_marker 1 = [(1, (1, 2))]) as H1 by reflexivity.
    intros k x sub Hr Hx.
    inversion Hr as [?? Hin|????? Hin Hk Hr1]; subst; rewrite H0 in Hin;
      apply list_elem_of_singleton in Hin; simplify_eq; [set_solver|].
    inversion Hr1 as [?? Hin|????? Hin Hk1 _]; subst; rewrite H1 in Hin;
      apply list_elem_of_singleton in Hin; simplify_eq; [done|set_solver].
Defined.

(** ** The cut point of a graph without reference cycles *)

Section common_ancestor.
Context (h : Snapshot) (nrd : gset nat).
Hypothesis Hwf : well_formed h.

Lemma below_child (dp m : nat) :
  reach h (pred_graph h dp) m →
  ∃ c, (c, (c, pred_graph h c)) ∈ items h (pred_graph h dp)
       ∧ at_or_below h c m.
Proof.
  intros (k & sub & Hr).
  inversion Hr as [g it Hin|g k1 c sub1 it Hin Hr']; subst.
  - destruct (Hwf _ _ _ _ Hin) as [-> ->]. exists m. split; [done|by left].
  - destruct (Hwf _ _ _ _ Hin) as [-> ->]. exists c. split; [done|].
    right. by exists k, sub.
Qed.

Lemma _get_lca_from_graph_covers fuel memo (dp : nat) memo' r :
  (∀ q, at_or_below h dp q → ¬ reach h (pred_graph h q) q) →
  (∀ q v, at_or_below h dp q → memo !! q = Some v → covers h nrd q v) →
  _get_lca_from_graph h nrd fuel memo dp dp (pred_graph h dp)
  = Ret (memo', r) →
  covers h nrd dp r
  ∧ ∀ q v, memo !! q = None → memo' !! q = Some v → covers h nrd q v.
Proof.
  revert memo dp memo' r.
  induction fuel as [|n IH]; intros memo dp memo' r Hacyc Hpre Hrun; [done|].
  rewrite _get_lca_from_graph_unfold in Hrun.
  destruct (memo !! dp) as [r0|] eqn:Hmdp.
  { simplify_eq. split; [apply Hpre; [by left|done]|].
    intros q v Hq Hq'. congruence. }
  assert (covers h nrd dp (Some dp)) as Hself.
  { split.
    - intros x ?. simplify_eq. by left.
    - intros m _ Hm. eauto. }
  destruct (decide (dp ∈ nrd)) as [Hdp|Hdp].
  { simplify_eq. split; [done|].
    intros q v Hq [[<- <-]|[_ ?]]%lookup_insert_Some; [done|congruence]. }
  apply bind_Ret_inv in Hrun as ([m1 ps] & Hloop & Hrun).
  apply bind_Ret_inv in Hrun as (r1 & Hget & Hrun). simplify_eq.
  apply getitem_Ret in Hget.
  assert (¬ reach h (pred_graph h dp) dp) as Hnoself
    by (apply Hacyc; by left).
  assert (∀ k c sub, (k, (c, sub)) ∈ items h (pred_graph h dp) →
            k = c ∧ sub = pred_graph h c
            ∧ ∀ q, at_or_below h c q → reach h (pred_graph h dp) q)
    as Hchild.
  { intros k c sub Hin. destruct (Hwf _ _ _ _ Hin) as [-> ->].
    split_and!; try done.
    intros q [->|(k' & sub' & Hq)].
    - eexists _, _. by apply reach_here.
    - exists k', sub'. by eapply reach_below. }
  assert ((∀ q v, q ≠ dp → memo !! q = None → m1 !! q = Some v →
             covers h nrd q v)
          ∧ <[dp:=None]> memo ⊆ m1
          ∧ (∀ it, it ∈ items h (pred_graph h dp) →
               ∃ v, covers h nrd it.2.1 v ∧ ∀ x, v = Some x → x ∈ ps)
          ∧ (∀ x, x ∈ ps → reach h (pred_graph h dp) x))
    as (HA & HB & HC & HD).
  { unfold lca_parents in Hloop.
    apply (for_each_inv
             (λ pre (st : gmap nat (option DataPipe) * list DataPipe),
                (∀ q v, q ≠ dp → memo !! q = None → st.1 !! q = Some v →
                   covers h nrd q v)
                ∧ <[dp:=None]> memo ⊆ st.1
                ∧ (∀ it, it ∈ pre →
                     ∃ v, covers h nrd it.2.1 v
                          ∧ ∀ x, v = Some x → x ∈ st.2)
                ∧ (∀ x, x ∈ st.2 → reach h (pred_graph h dp) x))
             _ _ _ _ Hloop).
    { simpl. split_and!; [|done| |].
      - intros q v Hq Hnone. rewrite lookup_insert_ne by done. congruence.
      - intros it Hit. by apply elem_of_nil in Hit.
      - intros x Hx. by apply elem_of_nil in Hx. }
    intros pre [k [c sub]] post [m3 ps3] [m4 ps4] Hitems
      (HA3 & HB3 & HC3 & HD3) Hbody. simpl in *.
    assert ((k, (c, sub)) ∈ items h (pred_graph h dp)) as Hin
      by (rewrite Hitems; set_solver).
    destruct (Hchild k c sub Hin) as (-> & -> & Hbelow).
    apply bind_Ret_inv in Hbody as ([m5 r5] & Hcall & Hbody). simplify_eq.
    pose proof Hcall as Hmono.
    apply _get_lca_from_graph_mono in Hmono as [Hsub5 _].
    apply IH in Hcall as [Hc Hnew].
    2: { intros q Hq. apply Hacyc. right. by apply Hbelow. }
    2: { intros q v Hq Hm3. apply Hbelow in Hq.
         assert (q ≠ dp) by (by intros ->).
         destruct (memo !! q) as [v0|] eqn:Hmq.
         - apply Hpre; [by right|].
           assert (m3 !! q = Some v0) as Hm3'.
           { eapply lookup_weaken; [|exact HB3]. by rewrite lookup_insert_ne. }
           congruence.
         - by apply (HA3 q). }
    split_and!.
    - intros q v Hq Hnone Hm4. destruct (m3 !! q) as [v3|] eqn:Hm3.
      + assert (m4 !! q = Some v3) as Hm4' by (by eapply lookup_weaken).
        apply (HA3 q); [done..|congruence].
      + by apply Hnew.
    - by etrans.
    - intros it [Hit|Hit]%elem_of_app.
      + destruct (HC3 it Hit) as (v & Hv & Hps). exists v. split; [done|].
        intros x Hx. specialize (Hps x Hx). destruct r5; set_solver.
      + apply list_elem_of_singleton in Hit as ->. exists r5. split; [done|].
        intros x ->. set_solver.
    - destruct r5 as [x5|]; [|done].
      intros x [Hx|Hx]%elem_of_app; [by apply HD3|].
      apply list_elem_of_singleton in Hx as ->.
      apply Hbelow. by apply Hc. }
  assert (m1 !! dp = Some None) as Hm1dp
    by (eapply lookup_weaken; [apply lookup_insert_eq|done]).
  assert (∀ m, id_of m ∈ nrd → at_or_below h dp m →
               ∃ x, x ∈ ps ∧ at_or_below h x m) as Hmarked.
  { intros m Hm [->|Hbelow]; [done|].
    apply below_child in Hbelow as (c & Hin & Hcm).
    destruct (HC _ Hin) as (v & [_ Hv] & Hps). simpl in *.
    destruct (Hv m Hm Hcm) as (x & -> & Hxm). exists x. split; [|done].
    by apply Hps. }
  assert (covers h nrd dp r) as Hr.
  { unfold lca_record in Hget. destruct ps as [|p0 ps].
    { assert (r = None) as -> by congruence. split; [done|].
      intros m Hm Hdm. destruct (Hmarked m Hm Hdm) as (x & Hx & _).
      by apply elem_of_nil in Hx. }
    destruct (bool_decide (length (p0 :: ps) = 1)
              || forallb (λ d : DataPipe, bool_decide (d = p0)) (p0 :: ps))
      eqn:Hsame; rewrite lookup_insert_eq in Hget; simplify_eq; [|done].
    assert (∀ x, x ∈ p0 :: ps → x = p0) as Hall.
    { apply orb_true_iff in Hsame as [Hlen|Hall].
      - apply bool_decide_eq_true in Hlen. destruct ps; [|done].
        by intros x ->%list_elem_of_singleton.
      - rewrite forallb_forall in Hall. intros x Hx%list_elem_of_In.
        specialize (Hall x Hx). by apply bool_decide_eq_true in Hall. }
    split.
    - intros x ?. simplify_eq. right. apply HD. set_solver.
    - intros m Hm Hdm. destruct (Hmarked m Hm Hdm) as (x & Hx & Hxm).
      apply Hall in Hx as ->. eauto. }
  split; [done|].
  intros q v Hq Hq'. destruct (decide (q = dp)) as [->|Hne].
  - pose proof (eq_trans (eq_sym Hq') Hget) as Heq. by injection Heq as ->.
  - rewrite lca_record_lookup_ne in Hq' by done. by apply HA.
Qed.
End common_ancestor.

(** X9. On a graph that follows the data model and has no reference cycle,
    the DataPipe returned by [find_lca_non_replicable_dp] is a common
    ancestor of the non-replicable nodes: every node of the graph that is in
    the non-replicable set is the returned node or a transitive predecessor
    of it. *)
Theorem cut_point_is_common_ancestor (h : Snapshot) (graph : Ref)
    (nrd : gset nat) :
  well_formed h → ¬ has_cycle h graph → length (items h graph) = 1 →
  mark_non_replicable h graph = Ret nrd →
  ∃ r, find_lca_non_replicable_dp h graph = Ret r
    ∧ ∀ m, reach h graph m → id_of m ∈ nrd →
        ∃ x, r = Some x ∧ reach h graph x ∧ at_or_below h x m.
Proof.
  intros Hwf Hacyc Hlen Hmark.
  destruct (find_lca_non_replicable_dp_total h graph Hlen) as [r Hrun].
  exists r. split; [done|].
  unfold find_lca_non_replicable_dp in Hrun.
  destruct (items h graph) as [|[k [dp g]] [|??]] eqn:Hroot; try done.
  rewrite Hmark, bind_Ret in Hrun.
  apply bind_Ret_inv in Hrun as ([m0 r'] & Hcall & ?). simplify_eq.
  assert ((k, (dp, g)) ∈ items h graph) as Hin by (rewrite Hroot; set_solver).
  destruct (Hwf _ _ _ _ Hin) as [-> ->]. unfold id_of in *.
  assert (∀ q, at_or_below h dp q → reach h graph q) as Hnode.
  { intros q [->|(k1 & sub1 & Hq)]; [by eexists _, _; apply reach_here|].
    exists k1, sub1. by eapply reach_below. }
  assert (∀ q, reach h graph q → at_or_below h dp q) as Hnode'.
  { intros q (k & sub & Hr).
    inversion Hr as [? ? Hin'|? k1 dp1 sub1 ? Hin' Hr']; subst;
      rewrite Hroot in Hin'; apply list_elem_of_singleton in Hin';
      simplify_eq; [by left|right; by exists k, sub]. }
  apply _get_lca_from_graph_covers in Hcall as [[Hx Hm] _]; [|done| |].
  - intros m Hreach Hmin.
    destruct (Hm m Hmin (Hnode' m Hreach)) as (x & -> & Hxm).
    exists x. split_and!; [done| |done]. by apply Hnode, Hx.
  - intros q Hq (k' & sub' & Hself). apply Hacyc.
    destruct (well_formed_reach_item h _ _ _ _ Hwf Hself) as [-> _].
    apply Hnode in Hq as (k1 & sub1 & Hq).
    destruct (well_formed_reach_item h _ _ _ _ Hwf Hq) as [-> ->].
    by exists q, q, (pred_graph h q), (q, sub').
  - intros q v _ Hq. by rewrite lookup_empty in Hq.
Qed.

Lemma cut_point_is_common_ancestor_witness :
  ∃ r, find_lca_non_replicable_dp nested_markers 0 = Ret r
    ∧ ∀ m, reach nested_markers 0 m → id_of m ∈ ({[1; 2; 3]} : gset nat) →
        ∃ x, r = Some x ∧ reach nested_markers 0 x
             ∧ at_or_below nested_markers x m.
Proof.
  apply cut_point_is_common_ancestor;
    [apply snapshot_of_well_formed | | reflexivity | vm_compute; reflexivity].
  apply snapshot_of_no_cycle. intros n l d Hl Hd.
  do 4 (destruct n as [|n]; [simpl in Hl; simplify_eq; set_solver by lia|]).
  done.
Defined.
